(** * Living Memory: a shallow embedding of [src/index.ts]

    The store keeps "memories" as files under one storage root
    ([MEMORY_DIR]).  Two managers share that root: [JSONMemoryManager]
    wraps every unit in a record (timestamp, id, tags, content) and
    [RAWMemoryManager] writes plain files.  Every mutating operation ends
    with [updateDirectoryFile], which rewrites the manifest
    [DIRECTORY.txt] from a walk of the root.

    Modelling decisions, in one place:
    - A string of the program is held as [string], the bytes of its
      UTF-8 form: what [fs] writes for it and what [JSON.parse] is given
      once [fs] has read it.  A statement about every content string
      quantifies over [Utf16.text], the sequences of UTF-16 code units,
      and hands the operation their [Utf16.encode]; a string in which a
      surrogate stands alone has no UTF-8 form of its own, and [fs]
      writes U+FFFD for the surrogate.
    - [JS.toLowerCase] lowers the letters A to Z and nothing else, which
      is [toLowerCase] on ASCII text; the statements on what the
      structured search returns are about ASCII text.
    - The file system is a tree of [node]s rooted at "/".  A directory is
      an ordered list of entries, in the order in which they were made,
      and [readdirSync] enumerates them in that order; on a disk the
      enumeration is by name.  There are no symbolic links, no
      permissions and no limit on the length of a name, so the only
      failures are the structural ones (a missing entry, a file where a
      directory is needed, and so on).
    - A thrown [Error] is its message.  Operations thread the process
      state and return a [result]; what an operation did before it threw
      stays done, exactly as in the source.
    - The clock readings [new Date()] and [Date.now()] are arguments.
    - [BUILD_DIR] comes from [process.argv[1]] and is a field of the
      process environment [Process]. *)

From Stdlib Require Import ZArith Ascii String List Bool Lia.
From Stdlib Require Import DecimalString DecimalZ.
From stdpp Require Import gmap strings list.

Set Default Proof Using "Type".

#[local] Arguments String.append !_ _ : simpl nomatch.

(* ================================================================= *)
(** * Part I: the model *)
(* ================================================================= *)

(** ** JavaScript string primitives *)

Module JS.

(** [s.split(sep)] for a one-character separator. *)
Fixpoint split (sep : ascii) (s : string) : list string :=
  match s with
  | EmptyString => [EmptyString]
  | String c r =>
      if decide (c = sep) then EmptyString :: split sep r
      else match split sep r with
           | h :: t => String c h :: t
           | [] => [String c EmptyString]
           end
  end.

(** [l.join(sep)]. *)
Fixpoint join (sep : string) (l : list string) : string :=
  match l with
  | [] => ""
  | [x] => x
  | x :: r => x +:+ sep +:+ join sep r
  end.

(** [s.startsWith(p)]. *)
Fixpoint startsWith (s p : string) : bool :=
  match p, s with
  | EmptyString, _ => true
  | String a p', String b s' => bool_decide (a = b) && startsWith s' p'
  | String _ _, EmptyString => false
  end.

(** [s.includes(q)]: [q] occurs in [s] as a contiguous substring. *)
Fixpoint includes (s q : string) : bool :=
  startsWith s q ||
  match s with
  | EmptyString => false
  | String _ s' => includes s' q
  end.

(** [s.endsWith(p)]: scan for a position where exactly [p] remains. *)
Fixpoint endsWith (s p : string) : bool :=
  bool_decide (s = p) ||
  match s with
  | EmptyString => false
  | String _ s' => endsWith s' p
  end.

Definition lower_ascii (c : ascii) : ascii :=
  let n := nat_of_ascii c in
  if (65 <=? n)%nat && (n <=? 90)%nat then ascii_of_nat (n + 32) else c.

(** [s.toLowerCase()] on ASCII text: the letters A to Z are lowered,
    every other byte is kept. *)
Fixpoint toLowerCase (s : string) : string :=
  match s with
  | EmptyString => EmptyString
  | String c r => String (lower_ascii c) (toLowerCase r)
  end.

(** The two tests of the source's search predicates. *)
Definition includes_ci (s q : string) : bool :=
  includes (toLowerCase s) (toLowerCase q).

(** [n.toString()] for an integer [n]. *)
Definition Z_toString (n : Z) : string :=
  NilEmpty.string_of_int (Z.to_int n).

(** The line feed. *)
Definition nl : string := String "010"%char EmptyString.

Definition head_is (c : ascii) (s : string) : bool :=
  match s with
  | String a _ => bool_decide (a = c)
  | EmptyString => false
  end.

Fixpoint last_is (c : ascii) (s : string) : bool :=
  match s with
  | EmptyString => false
  | String a EmptyString => bool_decide (a = c)
  | String _ r => last_is c r
  end.

End JS.

(** ** JavaScript strings and their UTF-8 form *)

Module Utf16.

(** A JavaScript string is a sequence of UTF-16 code units. *)
Definition text : Type := list N.

Definition is_high (u : N) : bool := ((0xD800 <=? u) && (u <=? 0xDBFF))%N.

Definition is_low (u : N) : bool := ((0xDC00 <=? u) && (u <=? 0xDFFF))%N.

(** No surrogate stands without its partner. *)
Fixpoint well_formed (t : text) : bool :=
  match t with
  | [] => true
  | u :: r =>
      if is_high u then
        match r with
        | l :: r' => is_low l && well_formed r'
        | [] => false
        end
      else negb (is_low u) && (u <? 0x10000)%N && well_formed r
  end.

(** U+FFFD, which stands in for what cannot be encoded or decoded. *)
Definition replacement : N := 0xFFFD%N.

(** The code points of a string: a surrogate pair is one code point, an
    unpaired surrogate is replaced. *)
Fixpoint code_points (t : text) : list N :=
  match t with
  | [] => []
  | u :: r =>
      if is_high u then
        match r with
        | l :: r' =>
            if is_low l
            then (0x10000 + (u - 0xD800) * 0x400 + (l - 0xDC00))%N
                 :: code_points r'
            else replacement :: code_points r
        | [] => [replacement]
        end
      else if is_low u then replacement :: code_points r
      else u :: code_points r
  end.

(** A code point that has an encoding of its own. *)
Definition scalar (cp : N) : Prop :=
  (cp < 0xD800 \/ 0xE000 <= cp < 0x110000)%N.

(** The bytes of one code point. *)
Definition utf8 (cp : N) : list N :=
  (if cp <? 0x80 then [cp]
   else if cp <? 0x800 then [0xC0 + cp / 0x40; 0x80 + cp mod 0x40]
   else if cp <? 0x10000 then
     [0xE0 + cp / 0x1000; 0x80 + cp / 0x40 mod 0x40; 0x80 + cp mod 0x40]
   else
     [0xF0 + cp / 0x40000; 0x80 + cp / 0x1000 mod 0x40;
      0x80 + cp / 0x40 mod 0x40; 0x80 + cp mod 0x40])%N.

Fixpoint pack (bytes : list N) : string :=
  match bytes with
  | [] => EmptyString
  | b :: r => String (ascii_of_N b) (pack r)
  end.

Fixpoint unpack (s : string) : list N :=
  match s with
  | EmptyString => []
  | String a r => N_of_ascii a :: unpack r
  end.

(** What [fs] writes for a string, and [Buffer.from(s, "utf8")] holds. *)
Definition encode (t : text) : string := pack (flat_map utf8 (code_points t)).

(** The state of the UTF-8 decoder between two bytes: the code point so
    far, the continuation bytes still to come, and the range the next
    one must lie in. *)
Record decoder : Type := {
  code_point : N;
  bytes_needed : nat;
  lower_boundary : N;
  upper_boundary : N
}.

Definition fresh : decoder :=
  {| code_point := 0; bytes_needed := 0;
     lower_boundary := 0x80; upper_boundary := 0xBF |}.

(** A byte that arrives when no sequence is under way. *)
Definition lead (b : N) : list N * decoder :=
  (if b <=? 0x7F then ([b], fresh)
   else if (0xC2 <=? b) && (b <=? 0xDF) then
     ([], {| code_point := b - 0xC0; bytes_needed := 1;
             lower_boundary := 0x80; upper_boundary := 0xBF |})
   else if (0xE0 <=? b) && (b <=? 0xEF) then
     ([], {| code_point := b - 0xE0; bytes_needed := 2;
             lower_boundary := if b =? 0xE0 then 0xA0 else 0x80;
             upper_boundary := if b =? 0xED then 0x9F else 0xBF |})
   else if (0xF0 <=? b) && (b <=? 0xF4) then
     ([], {| code_point := b - 0xF0; bytes_needed := 3;
             lower_boundary := if b =? 0xF0 then 0x90 else 0x80;
             upper_boundary := if b =? 0xF4 then 0x8F else 0xBF |})
   else ([replacement], fresh))%N.

(** The decoder: a byte out of range ends the sequence under way with
    one replacement and is then read afresh; so does the end of the
    input. *)
Fixpoint decode_bytes (d : decoder) (bytes : list N) : list N :=
  match bytes with
  | [] =>
      match bytes_needed d with
      | O => []
      | S _ => [replacement]
      end
  | b :: rest =>
      match bytes_needed d with
      | O => let (out, d') := lead b in out ++ decode_bytes d' rest
      | S n =>
          if ((lower_boundary d <=? b) && (b <=? upper_boundary d))%N then
            let cp := (code_point d * 0x40 + (b - 0x80))%N in
            match n with
            | O => cp :: decode_bytes fresh rest
            | S _ =>
                decode_bytes
                  {| code_point := cp; bytes_needed := n;
                     lower_boundary := 0x80; upper_boundary := 0xBF |} rest
            end
          else
            replacement
            :: (let (out, d') := lead b in out ++ decode_bytes d' rest)
      end
  end.

(** The code units of one code point. *)
Definition units (cp : N) : list N :=
  (if cp <? 0x10000 then [cp]
   else [0xD800 + (cp - 0x10000) / 0x400;
         0xDC00 + (cp - 0x10000) mod 0x400])%N.

(** What [fs] reads as a string, and [buffer.toString("utf8")] gives. *)
Definition decode (s : string) : text :=
  flat_map units (decode_bytes fresh (unpack s)).

End Utf16.

(** ** [path.join] of Node's POSIX [path] module *)

Module Path.

Definition slash : ascii := "/"%char.

(** [normalizeString]: drop empty and "." segments, let ".." cancel the
    segment before it; [acc] is the reversed result so far.  Above the
    root ".." is kept when the path is relative and dropped otherwise. *)
Fixpoint normalizeString (allowAboveRoot : bool) (acc segs : list string)
  : list string :=
  match segs with
  | [] => rev acc
  | seg :: rest =>
      if decide (seg = "") then normalizeString allowAboveRoot acc rest
      else if decide (seg = ".") then normalizeString allowAboveRoot acc rest
      else if decide (seg = "..") then
        match acc with
        | top :: acc' =>
            if decide (top = "..")
            then normalizeString allowAboveRoot (".." :: acc) rest
            else normalizeString allowAboveRoot acc' rest
        | [] =>
            if allowAboveRoot
            then normalizeString allowAboveRoot [".."] rest
            else normalizeString allowAboveRoot [] rest
        end
      else normalizeString allowAboveRoot (seg :: acc) rest
  end.

(** [path.normalize]. *)
Definition normalize (p : string) : string :=
  if decide (p = "") then "."
  else
    let isAbsolute := JS.head_is slash p in
    let trailingSeparator := JS.last_is slash p in
    let body :=
      JS.join "/" (normalizeString (negb isAbsolute) [] (JS.split slash p)) in
    if decide (body = "") then
      if isAbsolute then "/" else if trailingSeparator then "./" else "."
    else
      (if isAbsolute then "/" else "") +:+ body
      +:+ (if trailingSeparator then "/" else "").

(** [path.join(a, b)]: empty arguments are skipped. *)
Definition join (a b : string) : string :=
  if decide (a = "") then normalize b
  else if decide (b = "") then normalize a
  else normalize (a +:+ "/" +:+ b).

End Path.

(** ** The file system behind Node's [fs] module *)

Module Fs.

#[warnings="-register-all"]
Inductive node : Type :=
| File (data : string)
| Dir (entries : list (string * node)).

Inductive errno : Type :=
| ENOENT | ENOTDIR | EISDIR | EEXIST | EINVAL | ENOTEMPTY | EBUSY.

(** A path as the kernel sees it: the components below "/", and whether
    the text ended in a separator (which demands a directory). *)
Record fpath : Type := { segs : list string; dir_only : bool }.

(** Relative paths are resolved against the root "/"; the texts that
    reach this function come out of [Path.join]. *)
Definition resolve (p : string) : fpath :=
  {| segs := Path.normalizeString false [] (JS.split Path.slash p);
     dir_only := JS.last_is Path.slash p |}.

Fixpoint find_entry (x : string) (es : list (string * node)) : option node :=
  match es with
  | [] => None
  | (y, n) :: r => if decide (x = y) then Some n else find_entry x r
  end.

(** Replace the entry named [x] where it stands, or add it at the end. *)
Fixpoint set_entry (x : string) (n : node) (es : list (string * node))
  : list (string * node) :=
  match es with
  | [] => [(x, n)]
  | (y, m) :: r =>
      if decide (x = y) then (x, n) :: r else (y, m) :: set_entry x n r
  end.

Fixpoint remove_entry (x : string) (es : list (string * node))
  : list (string * node) :=
  match es with
  | [] => []
  | (y, m) :: r =>
      if decide (x = y) then r else (y, m) :: remove_entry x r
  end.

(** Path walk: the node at [p], or why there is none. *)
Fixpoint walk (p : list string) (n : node) : errno + node :=
  match p with
  | [] => inr n
  | x :: q =>
      match n with
      | File _ => inl ENOTDIR
      | Dir es =>
          match find_entry x es with
          | Some c => walk q c
          | None => inl ENOENT
          end
      end
  end.

Definition is_file (p : list string) (root : node) : Prop :=
  exists data, walk p root = inr (File data).

Definition is_fileb (p : list string) (root : node) : bool :=
  match walk p root with
  | inr (File _) => true
  | _ => false
  end.

(** [open(O_WRONLY|O_CREAT|O_TRUNC)] or [O_APPEND], then write [data]. *)
Fixpoint store (append : bool) (p : list string) (data : string) (n : node)
  : errno + node :=
  match n with
  | File old =>
      match p with
      | [] => inr (File (if append then old +:+ data else data))
      | _ :: _ => inl ENOTDIR
      end
  | Dir es =>
      match p with
      | [] => inl EISDIR
      | x :: q =>
          match find_entry x es with
          | Some c =>
              match store append q data c with
              | inr c' => inr (Dir (set_entry x c' es))
              | inl e => inl e
              end
          | None =>
              match q with
              | [] => inr (Dir (es ++ [(x, File data)]))
              | _ :: _ => inl ENOENT
              end
          end
      end
  end.

Definition open_write (append : bool) (p : fpath) (data : string)
  (root : node) : errno + node :=
  if dir_only p then
    match walk (segs p) root with
    | inr (File _) => inl ENOTDIR
    | _ => inl EISDIR
    end
  else store append (segs p) data root.

Definition read (p : fpath) (root : node) : errno + string :=
  match walk (segs p) root with
  | inl e => inl e
  | inr (Dir _) => inl EISDIR
  | inr (File data) => if dir_only p then inl ENOTDIR else inr data
  end.

(** [mkdir -p]: missing directories are created along the way; an
    existing directory is not an error. *)
Fixpoint mkdirp (p : list string) (n : node) : errno + node :=
  match n with
  | File _ =>
      match p with
      | [] => inl EEXIST
      | _ :: _ => inl ENOTDIR
      end
  | Dir es =>
      match p with
      | [] => inr n
      | x :: q =>
          match find_entry x es with
          | Some c =>
              match mkdirp q c with
              | inr c' => inr (Dir (set_entry x c' es))
              | inl e => inl e
              end
          | None =>
              match mkdirp q (Dir []) with
              | inr c' => inr (Dir (es ++ [(x, c')]))
              | inl e => inl e
              end
          end
      end
  end.

(** Unlink the entry at [p] (no effect when there is none). *)
Fixpoint remove (p : list string) (n : node) : node :=
  match p, n with
  | [x], Dir es => Dir (remove_entry x es)
  | x :: q, Dir es =>
      match find_entry x es with
      | Some c => Dir (set_entry x (remove q c) es)
      | None => n
      end
  | _, _ => n
  end.

(** Link [v] at [p], over what is there or as a new last entry of the
    parent (no effect when the parent is missing). *)
Fixpoint put (p : list string) (v : node) (n : node) : node :=
  match p, n with
  | [x], Dir es => Dir (set_entry x v es)
  | x :: q, Dir es =>
      match find_entry x es with
      | Some c => Dir (set_entry x (put q v c) es)
      | None => n
      end
  | _, _ => n
  end.

(** Change the data of the file at [p] where it stands; nothing happens
    when [p] is not a file.  (What a write to an existing file does.) *)
Fixpoint update (p : list string) (g : string -> string) (n : node) : node :=
  match p, n with
  | [], File d => File (g d)
  | x :: r, Dir es =>
      match find_entry x es with
      | Some c => Dir (set_entry x (update r g c) es)
      | None => n
      end
  | _, _ => n
  end.

(** [strip q p]: what is left of [p] below [q]. *)
Fixpoint strip (q p : list string) : option (list string) :=
  match q, p with
  | [], _ => Some p
  | x :: q', y :: p' => if decide (x = y) then strip q' p' else None
  | _ :: _, [] => None
  end.

Definition is_dirb (n : node) : bool :=
  match n with Dir _ => true | File _ => false end.

Fixpoint is_prefix (p q : list string) : bool :=
  match p, q with
  | [], _ => true
  | x :: p', y :: q' => bool_decide (x = y) && is_prefix p' q'
  | _ :: _, [] => false
  end.

(** [rename(2)]. *)
Definition rename (src dst : fpath) (root : node) : errno + node :=
  match walk (segs src) root with
  | inl e => inl e
  | inr sn =>
      if (dir_only src || dir_only dst) && negb (is_dirb sn) then inl ENOTDIR
      else if decide (segs src = []) then inl EBUSY
      else if decide (segs src = segs dst) then inr root
      else if is_dirb sn && is_prefix (segs src) (segs dst) then inl EINVAL
      else
        let move := inr (put (segs dst) sn (remove (segs src) root)) in
        match walk (segs dst) root with
        | inr dn =>
            match sn, dn with
            | File _, File _ => move
            | File _, Dir _ => inl EISDIR
            | Dir _, File _ => inl ENOTDIR
            | Dir _, Dir [] => move
            | Dir _, Dir (_ :: _) => inl ENOTEMPTY
            end
        | inl _ =>
            match walk (removelast (segs dst)) root with
            | inr (Dir _) => move
            | inr (File _) => inl ENOTDIR
            | inl e => inl e
            end
        end
  end.

(** [readdir]: the names of a directory, in enumeration order. *)
Definition readdir (p : fpath) (root : node)
  : errno + list (string * node) :=
  match walk (segs p) root with
  | inl e => inl e
  | inr (File _) => inl ENOTDIR
  | inr (Dir es) => inr es
  end.

(** The text of a system error, as Node renders [error.message]. *)
Definition describe (e : errno) : string :=
  match e with
  | ENOENT => "ENOENT: no such file or directory"
  | ENOTDIR => "ENOTDIR: not a directory"
  | EISDIR => "EISDIR: illegal operation on a directory"
  | EEXIST => "EEXIST: file already exists"
  | EINVAL => "EINVAL: invalid argument"
  | ENOTEMPTY => "ENOTEMPTY: directory not empty"
  | EBUSY => "EBUSY: resource busy or locked"
  end.

Definition message (e : errno) (syscall path : string) : string :=
  describe e +:+ ", " +:+ syscall +:+ " '" +:+ path +:+ "'".

Definition message2 (e : errno) (syscall path dest : string) : string :=
  describe e +:+ ", " +:+ syscall +:+ " '" +:+ path +:+ "' -> '"
  +:+ dest +:+ "'".

End Fs.

(** ** [JSON.parse] and [JSON.stringify(value, null, 2)] *)

Module Json.

(** A number keeps the text of its literal: the grammar decides what
    parses, and a canonical integer literal is its own rendering. *)
#[warnings="-register-all"]
Inductive value : Type :=
| Null
| Bool (b : bool)
| Num (literal : string)
| Str (s : string)
| Arr (items : list value)
| Obj (members : list (string * value)).

Definition nl : string := JS.nl.
Definition dquote : ascii := "034"%char.
Definition backslash : ascii := "\"%char.

Definition ch (c d : ascii) : bool := Ascii.eqb c d.

Definition is_ws (c : ascii) : bool :=
  ch c " " || ch c "009" || ch c "010" || ch c "013".

Fixpoint skip_ws (s : string) : string :=
  match s with
  | String c r => if is_ws c then skip_ws r else s
  | EmptyString => s
  end.

(** *** Objects as ordered property lists *)

Fixpoint find_member (k : string) (ms : list (string * value))
  : option value :=
  match ms with
  | [] => None
  | (k', v) :: r => if decide (k = k') then Some v else find_member k r
  end.

(** [o[k] = v]: an existing property keeps its place, a new one goes
    last. *)
Fixpoint set_member (k : string) (v : value) (ms : list (string * value))
  : list (string * value) :=
  match ms with
  | [] => [(k, v)]
  | (k', v') :: r =>
      if decide (k = k') then (k, v) :: r else (k', v') :: set_member k v r
  end.

(** *** Printing *)

Definition hex_digit (n : N) : ascii :=
  match n with
  | 0 => "0" | 1 => "1" | 2 => "2" | 3 => "3" | 4 => "4" | 5 => "5"
  | 6 => "6" | 7 => "7" | 8 => "8" | 9 => "9" | 10 => "a" | 11 => "b"
  | 12 => "c" | 13 => "d" | 14 => "e" | _ => "f"
  end%N%char.

Definition escape_char (c : ascii) : string :=
  if ch c dquote then String backslash (String dquote "")
  else if ch c backslash then "\\"
  else if ch c "008" then "\b"
  else if ch c "012" then "\f"
  else if ch c "010" then "\n"
  else if ch c "013" then "\r"
  else if ch c "009" then "\t"
  else
    let n := N_of_ascii c in
    if (n <? 32)%N
    then "\u00" +:+ String (hex_digit (n / 16))
                      (String (hex_digit (n mod 16)) "")
    else String c "".

Fixpoint escape (s : string) : string :=
  match s with
  | EmptyString => EmptyString
  | String c r => escape_char c +:+ escape r
  end.

Definition quote (s : string) : string :=
  String dquote (escape s +:+ String dquote "").

(** [JSON.stringify(v, null, 2)] at indentation [ind]. *)
Fixpoint print (ind : string) (v : value) : string :=
  match v with
  | Null => "null"
  | Bool true => "true"
  | Bool false => "false"
  | Num literal => literal
  | Str s => quote s
  | Arr [] => "[]"
  | Arr (x :: r) =>
      let ind' := ind +:+ "  " in
      "[" +:+ nl +:+ ind' +:+ print ind' x
      +:+ (fix more (l : list value) : string :=
             match l with
             | [] => ""
             | y :: l' => "," +:+ nl +:+ ind' +:+ print ind' y +:+ more l'
             end) r
      +:+ nl +:+ ind +:+ "]"
  | Obj [] => "{}"
  | Obj ((k, x) :: r) =>
      let ind' := ind +:+ "  " in
      "{" +:+ nl +:+ ind' +:+ quote k +:+ ": " +:+ print ind' x
      +:+ (fix more (l : list (string * value)) : string :=
             match l with
             | [] => ""
             | (k', y) :: l' =>
                 "," +:+ nl +:+ ind' +:+ quote k' +:+ ": "
                 +:+ print ind' y +:+ more l'
             end) r
      +:+ nl +:+ ind +:+ "}"
  end.

Definition stringify (v : value) : string := print "" v.

(** *** Parsing *)

Definition hex_value (c : ascii) : option N :=
  let n := N_of_ascii c in
  if (48 <=? n)%N && (n <=? 57)%N then Some (n - 48)%N
  else if (97 <=? n)%N && (n <=? 102)%N then Some (n - 87)%N
  else if (65 <=? n)%N && (n <=? 70)%N then Some (n - 55)%N
  else None.

Definition hex4 (s : string) : option (N * string) :=
  match s with
  | String a (String b (String c (String d r))) =>
      match hex_value a, hex_value b, hex_value c, hex_value d with
      | Some x, Some y, Some z, Some w =>
          Some (((x * 16 + y) * 16 + z) * 16 + w, r)%N
      | _, _, _, _ => None
      end
  | _ => None
  end.

Definition byte (n : N) : string := String (ascii_of_N n) "".

(** The UTF-8 bytes of a code point. *)
Definition utf8 (n : N) : string :=
  (if n <? 128 then byte n
   else if n <? 2048 then byte (192 + n / 64) +:+ byte (128 + n mod 64)
   else if n <? 65536 then
     byte (224 + n / 4096) +:+ byte (128 + (n / 64) mod 64)
     +:+ byte (128 + n mod 64)
   else
     byte (240 + n / 262144) +:+ byte (128 + (n / 4096) mod 64)
     +:+ byte (128 + (n / 64) mod 64) +:+ byte (128 + n mod 64))%N.

Definition is_high (n : N) : bool := (55296 <=? n)%N && (n <=? 56319)%N.
Definition is_low (n : N) : bool := (56320 <=? n)%N && (n <=? 57343)%N.

(** A low surrogate written as an escape. *)
Definition low_escape (s : string) : option (N * string) :=
  match s with
  | String a (String b r) =>
      if ch a backslash && ch b "u" then
        match hex4 r with
        | Some (m, r') => if is_low m then Some (m, r') else None
        | None => None
        end
      else None
  | _ => None
  end.

(** What follows a backslash.  A surrogate pair is one code point; a
    surrogate on its own reaches the disk as U+FFFD. *)
Definition unescape (s : string) : option (string * string) :=
  match s with
  | String e r =>
      if ch e dquote then Some (String dquote "", r)
      else if ch e backslash then Some (String backslash "", r)
      else if ch e "/" then Some ("/", r)
      else if ch e "b" then Some (byte 8, r)
      else if ch e "f" then Some (byte 12, r)
      else if ch e "n" then Some (byte 10, r)
      else if ch e "r" then Some (byte 13, r)
      else if ch e "t" then Some (byte 9, r)
      else if ch e "u" then
        match hex4 r with
        | Some (n, r1) =>
            if is_high n then
              match low_escape r1 with
              | Some (m, r3) =>
                  Some (utf8 (65536 + (n - 55296) * 1024 + (m - 56320))%N, r3)
              | None => Some (utf8 65533, r1)
              end
            else if is_low n then Some (utf8 65533, r1)
            else Some (utf8 n, r1)
        | None => None
        end
      else None
  | EmptyString => None
  end.

(** The inside of a string literal, up to and including the closing
    quote. *)
Fixpoint string_body (fuel : nat) (s : string) : option (string * string) :=
  match fuel with
  | O => None
  | S fuel' =>
      match s with
      | EmptyString => None
      | String c r =>
          if ch c dquote then Some (EmptyString, r)
          else if ch c backslash then
            match unescape r with
            | Some (bytes, r1) =>
                match string_body fuel' r1 with
                | Some (x, r2) => Some (bytes +:+ x, r2)
                | None => None
                end
            | None => None
            end
          else if (N_of_ascii c <? 32)%N then None
          else
            match string_body fuel' r with
            | Some (x, r1) => Some (String c x, r1)
            | None => None
            end
      end
  end.

Definition string_lit (s : string) : option (string * string) :=
  string_body (String.length s) s.

Definition is_digit (c : ascii) : bool :=
  let n := N_of_ascii c in (48 <=? n)%N && (n <=? 57)%N.

(** The longest run of digits at the head of [s]. *)
Fixpoint digits (s : string) : string * string :=
  match s with
  | String c r =>
      if is_digit c then let (d, r') := digits r in (String c d, r')
      else (EmptyString, s)
  | EmptyString => (EmptyString, EmptyString)
  end.

(** One character, when it passes the test. *)
Definition take_if (test : ascii -> bool) (s : string) : string * string :=
  match s with
  | String c r => if test c then (String c "", r) else ("", s)
  | EmptyString => ("", s)
  end.

Definition some_digits (s : string) : option (string * string) :=
  let (d, r) := digits s in
  if decide (d = "") then None else Some (d, r).

Definition int_part (s : string) : option (string * string) :=
  match s with
  | String c r => if ch c "0" then Some ("0", r) else some_digits s
  | EmptyString => None
  end.

Definition frac_part (s : string) : option (string * string) :=
  match s with
  | String c r =>
      if ch c "." then
        match some_digits r with
        | Some (d, r') => Some (String c d, r')
        | None => None
        end
      else Some ("", s)
  | EmptyString => Some ("", s)
  end.

Definition exp_part (s : string) : option (string * string) :=
  match s with
  | String c r =>
      if ch c "e" || ch c "E" then
        let (sg, r1) := take_if (fun c => ch c "+" || ch c "-") r in
        match some_digits r1 with
        | Some (d, r2) => Some (String c sg +:+ d, r2)
        | None => None
        end
      else Some ("", s)
  | EmptyString => Some ("", s)
  end.

(** A number literal: an optional minus sign; then a single zero, or a
    nonzero digit and any digits; then optionally a point and one or more
    digits; then optionally an exponent mark, a sign and one or more
    digits. *)
Definition number (s : string) : option (string * string) :=
  let (sign, s1) := take_if (fun c => ch c "-") s in
  match int_part s1 with
  | None => None
  | Some (i, s2) =>
      match frac_part s2 with
      | None => None
      | Some (f, s3) =>
          match exp_part s3 with
          | None => None
          | Some (e, s4) => Some (sign +:+ i +:+ f +:+ e, s4)
          end
      end
  end.

(** [s] without its prefix [w], when it has that prefix. *)
Fixpoint strip_prefix (w s : string) : option string :=
  match w with
  | EmptyString => Some s
  | String a w' =>
      match s with
      | String b s' => if ch a b then strip_prefix w' s' else None
      | EmptyString => None
      end
  end.

Definition keyword (w : string) (v : value) (s : string)
  : option (value * string) :=
  match strip_prefix w s with
  | Some r => Some (v, r)
  | None => None
  end.

(** The elements of an array after the first bracket; [pv] parses one
    value and [acc] holds the elements read so far, last first. *)
Fixpoint parse_elements (pv : string -> option (value * string))
  (fuel : nat) (acc : list value) (s : string) : option (value * string) :=
  match fuel with
  | O => None
  | S fuel' =>
      match pv s with
      | Some (v, r) =>
          match skip_ws r with
          | String c r' =>
              if ch c "," then parse_elements pv fuel' (v :: acc) r'
              else if ch c "]" then Some (Arr (rev (v :: acc)), r')
              else None
          | EmptyString => None
          end
      | None => None
      end
  end.

(** A property name and the colon after it. *)
Definition member_key (s : string) : option (string * string) :=
  match skip_ws s with
  | String c r =>
      if ch c dquote then
        match string_lit r with
        | Some (k, r1) =>
            match skip_ws r1 with
            | String d r2 => if ch d ":" then Some (k, r2) else None
            | EmptyString => None
            end
        | None => None
        end
      else None
  | EmptyString => None
  end.

(** The members of an object; a repeated key overwrites the earlier
    value in place, as property assignment does. *)
Fixpoint parse_members (pv : string -> option (value * string))
  (fuel : nat) (acc : list (string * value)) (s : string)
  : option (value * string) :=
  match fuel with
  | O => None
  | S fuel' =>
      match member_key s with
      | Some (k, r2) =>
          match pv r2 with
          | Some (v, r3) =>
              match skip_ws r3 with
              | String c r4 =>
                  if ch c ","
                  then parse_members pv fuel' (set_member k v acc) r4
                  else if ch c "}" then Some (Obj (set_member k v acc), r4)
                  else None
              | EmptyString => None
              end
          | None => None
          end
      | None => None
      end
  end.

(** An empty array or object: the closing bracket right after the
    opening one, white space aside. *)
Definition closes (c : ascii) (s : string) : option string :=
  match skip_ws s with
  | String d r => if ch d c then Some r else None
  | EmptyString => None
  end.

Fixpoint parse_value (fuel : nat) (s : string) : option (value * string) :=
  match fuel with
  | O => None
  | S fuel' =>
      match skip_ws s with
      | EmptyString => None
      | String c r =>
          if ch c "{" then
            match closes "}" r with
            | Some r' => Some (Obj [], r')
            | None => parse_members (parse_value fuel') fuel' [] r
            end
          else if ch c "[" then
            match closes "]" r with
            | Some r' => Some (Arr [], r')
            | None => parse_elements (parse_value fuel') fuel' [] r
            end
          else if ch c dquote then
            match string_lit r with
            | Some (x, r') => Some (Str x, r')
            | None => None
            end
          else if ch c "t" then keyword "true" (Bool true) (String c r)
          else if ch c "f" then keyword "false" (Bool false) (String c r)
          else if ch c "n" then keyword "null" Null (String c r)
          else
            match number (String c r) with
            | Some (literal, r') => Some (Num literal, r')
            | None => None
            end
      end
  end.

(** [JSON.parse(text)]; [None] stands for the [SyntaxError]. *)
Definition parse (text : string) : option value :=
  match parse_value (S (String.length text)) text with
  | Some (v, r) =>
      match skip_ws r with
      | EmptyString => Some v
      | String _ _ => None
      end
  | None => None
  end.

(** *** The coercions the managers rely on *)

(** [String(v)]; [None] is [undefined]. *)
Fixpoint toString (v : value) : string :=
  match v with
  | Null => "null"
  | Bool true => "true"
  | Bool false => "false"
  | Num literal => literal
  | Str s => s
  | Arr items =>
      JS.join ","
        (map (fun x => match x with Null => "" | _ => toString x end) items)
  | Obj _ => "[object Object]"
  end.

Definition toString_opt (v : option value) : string :=
  match v with
  | Some x => toString x
  | None => "undefined"
  end.

(** *** Notions the statements about the codec need *)

Fixpoint all_ws (w : string) : bool :=
  match w with
  | EmptyString => true
  | String c r => is_ws c && all_ws r
  end.

(** [t] is empty or starts with a character that passes [test]. *)
Definition head_ok (test : ascii -> bool) (t : string) : bool :=
  match t with
  | EmptyString => true
  | String c _ => test c
  end.

Definition not_digit (c : ascii) : bool := negb (is_digit c).
Definition not_dot (c : ascii) : bool := negb (ch c ".").
Definition not_exp (c : ascii) : bool := negb (ch c "e" || ch c "E").
Definition not_minus (c : ascii) : bool := negb (ch c "-").
Definition not_sign (c : ascii) : bool := negb (ch c "+" || ch c "-").

(** What may follow a number literal without changing how it is read. *)
Definition stops (t : string) : bool :=
  head_ok (fun c => not_digit c && not_dot c && not_exp c) t.

Fixpoint all_digits (d : string) : bool :=
  match d with
  | EmptyString => true
  | String c r => is_digit c && all_digits r
  end.

(** The values [parse] can produce: number literals that follow the
    grammar, and no property name twice in an object. *)
Fixpoint wf (v : value) : Prop :=
  match v with
  | Num literal => number literal = Some (literal, "")
  | Arr items =>
      (fix all (l : list value) : Prop :=
         match l with
         | [] => True
         | x :: r => wf x /\ all r
         end) items
  | Obj members =>
      NoDup (map fst members) /\
      (fix all (l : list (string * value)) : Prop :=
         match l with
         | [] => True
         | (_, x) :: r => wf x /\ all r
         end) members
  | _ => True
  end.

Fixpoint size (v : value) : nat :=
  match v with
  | Arr items =>
      S ((fix sum (l : list value) : nat :=
            match l with
            | [] => 0
            | x :: r => size x + sum r
            end) items)
  | Obj members =>
      S ((fix sum (l : list (string * value)) : nat :=
            match l with
            | [] => 0
            | (_, x) :: r => size x + sum r
            end) members)
  | _ => 1
  end.

Definition sizes (l : list value) : nat := foldr (fun x n => size x + n) 0 l.

Definition msizes (l : list (string * value)) : nat :=
  foldr (fun m n => size m.2 + n) 0 l.

(** The text after the first element of a printed array, and after the
    first member of a printed object. *)
Definition more_items (ind : string) : list value -> string :=
  fix more (l : list value) : string :=
    match l with
    | [] => ""
    | y :: l' => "," +:+ nl +:+ ind +:+ print ind y +:+ more l'
    end.

Definition more_members (ind : string) : list (string * value) -> string :=
  fix more (l : list (string * value)) : string :=
    match l with
    | [] => ""
    | (k', y) :: l' =>
        "," +:+ nl +:+ ind +:+ quote k' +:+ ": " +:+ print ind y +:+ more l'
    end.

End Json.

(** ** Process state, failures, and the [try]/[catch] discipline *)

(** [process.argv[1]] decides where the store lives. *)
Class Process : Type := { BUILD_DIR : string }.

Inductive result (A : Type) : Type :=
| Ok (value : A)
| Throw (message : string).
Arguments Ok {A} value.
Arguments Throw {A} message.

(** The disk, and the one piece of heap the managers keep: the tag graph
    of [JSONMemoryManager]. *)
Record state : Type := {
  disk : Fs.node;
  memoryGraph : gmap string (gset string)
}.

Definition with_disk (s : state) (d : Fs.node) : state :=
  {| disk := d; memoryGraph := memoryGraph s |}.

Definition M (A : Type) : Type := state -> result A * state.

Definition on_inr {E A B} (f : A -> B) (r : E + A) : E + B :=
  match r with
  | inl e => inl e
  | inr a => inr (f a)
  end.

Definition ret {A} (a : A) : M A := fun s => (Ok a, s).

Definition throw {A} (message : string) : M A := fun s => (Throw message, s).

Definition bind {A B} (m : M A) (k : A -> M B) : M B :=
  fun s =>
    match m s with
    | (Ok a, s') => k a s'
    | (Throw e, s') => (Throw e, s')
    end.

#[global] Instance M_ret : MRet M := @ret.
#[global] Instance M_bind : MBind M := fun A B k m => bind m k.

(** [new FileOperationError(operation, path, error).message]; every
    thrown value in the program is an [Error], so the [String(error)]
    branch is never taken. *)
Definition FileOperationError (operation path error : string) : string :=
  "Failed to " +:+ operation +:+ " at " +:+ path +:+ ": " +:+ error.

(** [try { m } catch (error) { throw new FileOperationError(...) }]. *)
Definition try_catch {A} (operation path : string) (m : M A) : M A :=
  fun s =>
    match m s with
    | (Ok a, s') => (Ok a, s')
    | (Throw e, s') => (Throw (FileOperationError operation path e), s')
    end.

Definition nl : string := JS.nl.

(** *** The calls into [fs] *)

Definition lift_disk (syscall path : string) (r : Fs.errno + Fs.node)
  : M unit :=
  fun s =>
    match r with
    | inr d => (Ok tt, with_disk s d)
    | inl e => (Throw (Fs.message e syscall path), s)
    end.

(** [fs.writeFileSync(path, data)] and [fs.appendFileSync(path, data)],
    where [data] is the UTF-8 form of the string the program passes. *)
Definition writeFileSync (path data : string) : M unit :=
  fun s =>
    lift_disk "open" path
      (Fs.open_write false (Fs.resolve path) data (disk s)) s.

Definition appendFileSync (path data : string) : M unit :=
  fun s =>
    lift_disk "open" path
      (Fs.open_write true (Fs.resolve path) data (disk s)) s.

(** The text of a failed [readFileSync]: a directory opens for reading
    and it is the [read] that fails, with no path in the text; every
    other failure is that of the [open]. *)
Definition read_failure (e : Fs.errno) (path : string) : string :=
  match e with
  | Fs.EISDIR => Fs.describe Fs.EISDIR +:+ ", read"
  | _ => Fs.message e "open" path
  end.

(** [fs.readFileSync(path, "utf-8")]: the bytes of the file, which are
    the UTF-8 form of the string the program gets. *)
Definition readFileSync (path : string) : M string :=
  fun s =>
    match Fs.read (Fs.resolve path) (disk s) with
    | inr data => (Ok data, s)
    | inl e => (Throw (read_failure e path), s)
    end.

(** [fs.mkdirSync(path, { recursive: true })].  The model makes the
    missing directories of the path all at once or refuses; the disk
    makes them one after the other. *)
Definition mkdirSync_recursive (path : string) : M unit :=
  fun s =>
    lift_disk "mkdir" path (Fs.mkdirp (Fs.segs (Fs.resolve path)) (disk s)) s.

Definition renameSync (oldPath newPath : string) : M unit :=
  fun s =>
    match Fs.rename (Fs.resolve oldPath) (Fs.resolve newPath) (disk s) with
    | inr d => (Ok tt, with_disk s d)
    | inl e => (Throw (Fs.message2 e "rename" oldPath newPath), s)
    end.

Definition readdirSync (path : string) : M (list (string * Fs.node)) :=
  fun s =>
    match Fs.readdir (Fs.resolve path) (disk s) with
    | inr es => (Ok es, s)
    | inl e => (Throw (Fs.message e "scandir" path), s)
    end.

Definition existsSync (path : string) : M bool :=
  fun s =>
    match Fs.walk (Fs.segs (Fs.resolve path)) (disk s) with
    | inr _ => (Ok true, s)
    | inl _ => (Ok false, s)
    end.

(** *** The clock *)

(** What one request sees of the clock, in milliseconds since the epoch:
    the value behind [new Date()] and the value of [Date.now()]. *)
Record clock : Type := { new_Date : Z; Date_now : Z }.

(** [n] in decimal, padded with zeros to [width] digits. *)
Definition pad (width : nat) (n : Z) : string :=
  let d := JS.Z_toString n in
  String.concat "" (repeat "0" (width - String.length d)) +:+ d.

(** [new Date(t).toISOString()], by the usual days-to-civil-date
    computation on the proleptic Gregorian calendar. *)
Definition toISOString (t : Z) : string :=
  (let days := t / 86400000 in
   let ms := t mod 86400000 in
   let z := days + 719468 in
   let era := z / 146097 in
   let doe := z - era * 146097 in
   let yoe := (doe - doe / 1460 + doe / 36524 - doe / 146096) / 365 in
   let doy := doe - (365 * yoe + yoe / 4 - yoe / 100) in
   let mp := (5 * doy + 2) / 153 in
   let d := doy - (153 * mp + 2) / 5 + 1 in
   let m := if mp <? 10 then mp + 3 else mp - 9 in
   let y := yoe + era * 400 + (if m <=? 2 then 1 else 0) in
   let year :=
     if (0 <=? y) && (y <=? 9999) then pad 4 y
     else (if y <? 0 then "-" else "+") +:+ pad 6 (Z.abs y) in
   year +:+ "-" +:+ pad 2 m +:+ "-" +:+ pad 2 d +:+ "T"
   +:+ pad 2 (ms / 3600000) +:+ ":" +:+ pad 2 (ms / 60000 mod 60) +:+ ":"
   +:+ pad 2 (ms / 1000 mod 60) +:+ "." +:+ pad 3 (ms mod 1000) +:+ "Z")%Z.

(** ** The managers *)

(** A value as JavaScript passes it around; [None] is [undefined]. *)
Definition jsval : Type := option Json.value.

Definition js_string (s : string) : jsval := Some (Json.Str s).

(** The abstract class [MemoryManager]: the nine operations both modes
    implement. *)
Record MemoryManager : Type := {
  createFile : clock -> string -> string -> M unit;
  createDir : string -> M unit;
  moveFile : string -> string -> M unit;
  moveDir : string -> string -> M unit;
  appendContent : clock -> string -> string -> M unit;
  renameFile : string -> string -> M unit;
  readAllFiles : M (list string);
  readFileContent : string -> M jsval;
  fuzzySearch : string -> M (list string)
}.

(** [l.filter(f)] for a predicate that may throw. *)
Fixpoint filterM {A} (f : A -> M bool) (l : list A) : M (list A) :=
  match l with
  | [] => ret []
  | x :: r =>
      keep ← f x;
      rest ← filterM f r;
      ret (if (keep : bool) then x :: rest else rest)
  end.

Section Managers.
Context {process : Process}.

Definition MEMORY_DIR : string := Path.join BUILD_DIR "MEMORY_DIR".
Definition ARCHIVE_DIR : string := Path.join MEMORY_DIR "ARCHIVE".
Definition DIRECTORY_FILE : string := Path.join MEMORY_DIR "DIRECTORY.txt".

(** *** The base class *)

(** The text [generateDirectoryTree(dir)] builds for the directory [n]:
    the source walks the disk by path, the model walks the same subtree.
    The lines of a subdirectory are indented one by one, and because its
    text ends in a line feed the last of them is the bare indentation,
    which the next entry's line continues. *)
Fixpoint tree_text (dir : string) (n : Fs.node) {struct n} : string :=
  dir +:+ nl +:+
  match n with
  | Fs.File _ => ""
  | Fs.Dir items =>
      (fix each (items : list (string * Fs.node)) : string :=
         match items with
         | [] => ""
         | (item, child) :: rest =>
             let fullPath := Path.join dir item in
             let isLast := match rest with [] => true | _ :: _ => false end in
             let prefix := if isLast then "└── " else "├── " in
             (if Fs.is_dirb child then
                prefix +:+ item +:+ "/" +:+ nl
                +:+ JS.join nl
                      (map (fun line =>
                              (if isLast then "    " else "│   ") +:+ line)
                           (JS.split "010" (tree_text fullPath child)))
              else prefix +:+ item +:+ nl)
             +:+ each rest
         end) items
  end.

Definition generateDirectoryTree (dir : string) : M string :=
  try_catch "generate directory tree" dir
    (items ← readdirSync dir;
     ret (tree_text dir (Fs.Dir items))).

Definition updateDirectoryFile : M unit :=
  try_catch "update directory file" DIRECTORY_FILE
    (tree ← generateDirectoryTree MEMORY_DIR;
     writeFileSync DIRECTORY_FILE tree).

Definition initializeDirectory : M unit :=
  try_catch "initialize directories" MEMORY_DIR
    (present ← existsSync MEMORY_DIR;
     if (present : bool) then ret tt
     else
       mkdirSync_recursive MEMORY_DIR;;
       mkdirSync_recursive ARCHIVE_DIR;;
       updateDirectoryFile).

(** The moves and renames are the same code in both classes. *)
Definition rename_op (operation source dest : string) : M unit :=
  try_catch operation (source +:+ " to " +:+ dest)
    (let sourcePath := Path.join MEMORY_DIR source in
     let destPath := Path.join MEMORY_DIR dest in
     renameSync sourcePath destPath;;
     updateDirectoryFile).

Definition createDir_op (name : string) : M unit :=
  try_catch "create directory" name
    (mkdirSync_recursive (Path.join MEMORY_DIR name);;
     updateDirectoryFile).

(** *** [JSONMemoryManager] *)

(** One round of the outer [forEach] of [connectTags]. *)
Definition connect_tag (tags : list string)
  (graph : gmap string (gset string)) (tag : string)
  : gmap string (gset string) :=
  let graph1 :=
    match graph !! tag with
    | Some _ => graph
    | None => <[tag := ∅]> graph
    end in
  foldl (fun g relatedTag =>
           if decide (tag = relatedTag) then g
           else alter (fun related => related ∪ {[relatedTag]}) tag g)
        graph1 tags.

Definition connectTags (tags : list string) : M unit :=
  fun s =>
    (Ok tt,
     {| disk := disk s;
        memoryGraph := foldl (connect_tag tags) (memoryGraph s) tags |}).

(** The object literal of [createFile]. *)
Definition new_memory (c : clock) (content : string) : Json.value :=
  Json.Obj [("timestamp", Json.Str (toISOString (new_Date c)));
            ("id", Json.Str (JS.Z_toString (Date_now c)));
            ("tags", Json.Arr []);
            ("content", Json.Str content)].

Definition JSON_createFile (c : clock) (name content : string) : M unit :=
  try_catch "create JSON file" name
    (let memory := new_memory c content in
     let filePath := Path.join MEMORY_DIR (name +:+ ".json") in
     writeFileSync filePath (Json.stringify memory);;
     updateDirectoryFile).

(** The engine's wording of a [SyntaxError] or [TypeError] varies with
    its version; the model fixes one wording for each. *)
Definition SyntaxError : string := "Unexpected token in JSON".

Definition TypeError_read (what property : string) : string :=
  "Cannot read properties of " +:+ what +:+ " (reading '" +:+ property +:+ "')".

Definition TypeError_create (property : string) (v : Json.value) : string :=
  "Cannot create property '" +:+ property +:+ "' on '"
  +:+ Json.toString v +:+ "'".

Definition TypeError_call (callee : string) : string :=
  callee +:+ " is not a function".

Definition JSON_parse (text : string) : M Json.value :=
  match Json.parse text with
  | Some v => ret v
  | None => throw SyntaxError
  end.

(** [memory[k]] for the property names the program reads ("content",
    "tags"): an own property of an object, [undefined] on an array or a
    primitive, a [TypeError] on [null]. *)
Definition get_property (memory : Json.value) (k : string) : M jsval :=
  match memory with
  | Json.Null => throw (TypeError_read "null" k)
  | Json.Obj members => ret (Json.find_member k members)
  | _ => ret None
  end.

(** [memory.content += content; memory.timestamp = timestamp], in a
    module (strict mode): an object gets the two properties, an array
    takes them too but does not serialize them, a primitive refuses the
    assignment. *)
Definition append_to (memory : Json.value) (content timestamp : string)
  : M Json.value :=
  old ← get_property memory "content";
  match memory with
  | Json.Obj members =>
      ret (Json.Obj
             (Json.set_member "timestamp" (Json.Str timestamp)
                (Json.set_member "content"
                   (Json.Str (Json.toString_opt old +:+ content)) members)))
  | Json.Arr items => ret (Json.Arr items)
  | _ => throw (TypeError_create "content" memory)
  end.

Definition JSON_appendContent (c : clock) (file content : string) : M unit :=
  try_catch "append content" file
    (let filePath := Path.join MEMORY_DIR file in
     text ← readFileSync filePath;
     memory ← JSON_parse text;
     memory' ← append_to memory content (toISOString (new_Date c));
     writeFileSync filePath (Json.stringify memory');;
     updateDirectoryFile).

Definition JSON_readAllFiles : M (list string) :=
  try_catch "read all files" MEMORY_DIR
    (items ← readdirSync MEMORY_DIR;
     ret (map (fun file => Path.join MEMORY_DIR file)
            (filter (fun file => JS.endsWith file ".json" = true)
               (map fst items)))).

Definition JSON_readFileContent (file : string) : M jsval :=
  try_catch "read file content" file
    (content ← readFileSync (Path.join MEMORY_DIR file);
     memory ← JSON_parse content;
     get_property memory "content").

(** [v.toLowerCase().includes(query.toLowerCase())] for a value that
    should be a string. *)
Definition lower_includes (what : string) (v : jsval) (query : string)
  : M bool :=
  match v with
  | Some (Json.Str s) => ret (JS.includes_ci s query)
  | None => throw (TypeError_read "undefined" "toLowerCase")
  | Some Json.Null => throw (TypeError_read "null" "toLowerCase")
  | Some _ => throw (TypeError_call (what +:+ ".toLowerCase"))
  end.

(** [tags.some(tag => ...)]: left to right, stopping at the first hit. *)
Fixpoint some_tag (tags : list Json.value) (query : string) : M bool :=
  match tags with
  | [] => ret false
  | tag :: rest =>
      hit ← lower_includes "tag" (Some tag) query;
      if (hit : bool) then ret true else some_tag rest query
  end.

(** The predicate of [fuzzySearch] on one parsed record. *)
Definition memory_matches (memory : Json.value) (query : string) : M bool :=
  content ← get_property memory "content";
  hit ← lower_includes "memory.content" content query;
  if (hit : bool) then ret true
  else
    tags ← get_property memory "tags";
    match tags with
    | Some (Json.Arr items) => some_tag items query
    | None => throw (TypeError_read "undefined" "some")
    | Some Json.Null => throw (TypeError_read "null" "some")
    | Some _ => throw (TypeError_call "memory.tags.some")
    end.

Definition JSON_fuzzySearch (query : string) : M (list string) :=
  try_catch "fuzzy search" query
    (files ← JSON_readAllFiles;
     filterM (fun file =>
                content ← readFileSync file;
                memory ← JSON_parse content;
                memory_matches memory query) files).

Definition jsonManager : MemoryManager := {|
  createFile := JSON_createFile;
  createDir := createDir_op;
  moveFile := rename_op "move file";
  moveDir := rename_op "move directory";
  appendContent := JSON_appendContent;
  renameFile := rename_op "rename file";
  readAllFiles := JSON_readAllFiles;
  readFileContent := JSON_readFileContent;
  fuzzySearch := JSON_fuzzySearch
|}.

(** *** [RAWMemoryManager] *)

Definition RAW_createFile (c : clock) (name content : string) : M unit :=
  try_catch "create RAW file" name
    (writeFileSync (Path.join MEMORY_DIR name) content;;
     updateDirectoryFile).

Definition RAW_appendContent (c : clock) (file content : string) : M unit :=
  try_catch "append content" file
    (appendFileSync (Path.join MEMORY_DIR file) content;;
     updateDirectoryFile).

(** [getAllFiles(dir)] on the directory [n], as a walk of the subtree. *)
Fixpoint getAllFiles (dir : string) (n : Fs.node) {struct n} : list string :=
  match n with
  | Fs.File _ => []
  | Fs.Dir files =>
      (fix each (files : list (string * Fs.node)) : list string :=
         match files with
         | [] => []
         | (file, child) :: rest =>
             let fullPath := Path.join dir file in
             (if Fs.is_dirb child then getAllFiles fullPath child
              else [fullPath])
             ++ each rest
         end) files
  end.

Definition RAW_readAllFiles : M (list string) :=
  try_catch "read directory" MEMORY_DIR
    (files ← readdirSync MEMORY_DIR;
     ret (getAllFiles MEMORY_DIR (Fs.Dir files))).

Definition RAW_readFileContent (file : string) : M string :=
  try_catch "read file content" file
    (readFileSync (Path.join MEMORY_DIR file)).

Definition RAW_fuzzySearch (query : string) : M (list string) :=
  try_catch "fuzzy search" query
    (files ← RAW_readAllFiles;
     filterM (fun file =>
                content ← RAW_readFileContent file;
                ret (JS.includes_ci content query)) files).

Definition rawManager : MemoryManager := {|
  createFile := RAW_createFile;
  createDir := createDir_op;
  moveFile := rename_op "move file";
  moveDir := rename_op "move directory";
  appendContent := RAW_appendContent;
  renameFile := rename_op "rename file";
  readAllFiles := RAW_readAllFiles;
  readFileContent :=
    fun file => content ← RAW_readFileContent file; ret (js_string content);
  fuzzySearch := RAW_fuzzySearch
|}.

End Managers.

(** ** The tool-call handler *)

(** [request.params]: the tool's name and the arguments object, whose
    properties are whatever JSON the client sent. *)
Record CallToolRequest : Type := {
  params_name : string;
  params_arguments : option (list (string * Json.value))
}.

(** The one item of the returned [content] array. *)
Record CallToolResult : Type := {
  content_type : string;
  content_text : jsval
}.

(** [args?.[k]]. *)
Definition arg (args : option (list (string * Json.value))) (k : string)
  : jsval :=
  match args with
  | Some members => Json.find_member k members
  | None => None
  end.

(** A number literal denotes zero when its digits before the exponent
    are all zeros. *)
Fixpoint zero_literal (literal : string) : bool :=
  match literal with
  | EmptyString => true
  | String c r =>
      if Json.ch c "e" || Json.ch c "E" then true
      else (Json.ch c "0" || Json.ch c "-" || Json.ch c ".")
           && zero_literal r
  end.

(** [!v]. *)
Definition falsy (v : jsval) : bool :=
  match v with
  | None => true
  | Some Json.Null => true
  | Some (Json.Bool b) => negb b
  | Some (Json.Num literal) => zero_literal literal
  | Some (Json.Str s) => bool_decide (s = "")
  | Some (Json.Arr _) => false
  | Some (Json.Obj _) => false
  end.

(** [typeof v !== "string"]. *)
Definition not_string (v : jsval) : bool :=
  match v with
  | Some (Json.Str _) => false
  | _ => true
  end.

(** The string a value is, once the handler's checks have passed. *)
Definition string_of (v : jsval) : string :=
  match v with
  | Some (Json.Str s) => s
  | _ => ""
  end.

(** [v === a] for a string [a]. *)
Definition strict_equal (v : jsval) (a : string) : bool :=
  match v with
  | Some (Json.Str x) => bool_decide (x = a)
  | _ => false
  end.

Definition text_result (text : jsval) : CallToolResult :=
  {| content_type := "text"; content_text := text |}.

(** Whether a template literal makes a string of the value.  Of the
    values [JSON.parse] makes, an object with a property [toString] of
    its own does not convert: the property is no function, and [valueOf]
    returns the object.  An array converts when its items do. *)
Fixpoint converts (v : Json.value) : bool :=
  match v with
  | Json.Arr items => forallb converts items
  | Json.Obj members =>
      match Json.find_member "toString" members with
      | Some _ => false
      | None => true
      end
  | _ => true
  end.

(** The same for [args?.action], which may be [undefined]. *)
Definition printable (v : jsval) : bool :=
  match v with
  | Some v => converts v
  | None => true
  end.

(** The message of the [TypeError] of a conversion that fails. *)
Definition TypeError_primitive : string :=
  "Cannot convert object to primitive value".

Section Server.
Context {process : Process}.

(** The body of the handler's [try] block: it yields the [result] that
    becomes the text of the response. *)
Definition dispatch (c : clock) (request : CallToolRequest) : M jsval :=
  let name := params_name request in
  let args := params_arguments request in
  let manager := if decide (name = "MODE_JSON") then jsonManager
                 else rawManager in
  let action := arg args "action" in
  let is_action (a : string) := strict_equal action a in
  if is_action "create_file" then
    if falsy (arg args "name") || falsy (arg args "content")
       || not_string (arg args "name") || not_string (arg args "content")
    then throw "Name and content are required for creating a file"
    else
      let name := string_of (arg args "name") in
      let content := string_of (arg args "content") in
      createFile manager c name content;;
      ret (js_string ("File " +:+ name +:+ " created successfully in "
                      +:+ MEMORY_DIR))
  else if is_action "create_dir" then
    if falsy (arg args "name") || not_string (arg args "name")
    then throw "Name is required for creating a directory"
    else
      let name := string_of (arg args "name") in
      createDir manager name;;
      ret (js_string ("Directory " +:+ name +:+ " created successfully in "
                      +:+ MEMORY_DIR))
  else if is_action "move_file" then
    if falsy (arg args "source") || falsy (arg args "dest")
       || not_string (arg args "source") || not_string (arg args "dest")
    then throw "Source and destination are required for moving a file"
    else
      let source := string_of (arg args "source") in
      let dest := string_of (arg args "dest") in
      moveFile manager source dest;;
      ret (js_string ("File moved from " +:+ source +:+ " to " +:+ dest
                      +:+ " in " +:+ MEMORY_DIR))
  else if is_action "move_dir" then
    if falsy (arg args "source") || falsy (arg args "dest")
       || not_string (arg args "source") || not_string (arg args "dest")
    then throw "Source and destination are required for moving a directory"
    else
      let source := string_of (arg args "source") in
      let dest := string_of (arg args "dest") in
      moveDir manager source dest;;
      ret (js_string ("Directory moved from " +:+ source +:+ " to " +:+ dest
                      +:+ " in " +:+ MEMORY_DIR))
  else if is_action "append_content" then
    if falsy (arg args "name") || falsy (arg args "content")
       || not_string (arg args "name") || not_string (arg args "content")
    then throw "Name and content are required for appending content"
    else
      let name := string_of (arg args "name") in
      let content := string_of (arg args "content") in
      appendContent manager c name content;;
      ret (js_string ("Content appended to " +:+ name +:+ " in "
                      +:+ MEMORY_DIR))
  else if is_action "rename_file" then
    if falsy (arg args "source") || falsy (arg args "dest")
       || not_string (arg args "source") || not_string (arg args "dest")
    then throw "Source and destination are required for renaming a file"
    else
      let source := string_of (arg args "source") in
      let dest := string_of (arg args "dest") in
      renameFile manager source dest;;
      ret (js_string ("File renamed from " +:+ source +:+ " to " +:+ dest
                      +:+ " in " +:+ MEMORY_DIR))
  else if is_action "read_all_files" then
    files ← readAllFiles manager;
    ret (js_string (JS.join nl files))
  else if is_action "read_file_content" then
    if falsy (arg args "name") || not_string (arg args "name")
    then throw "Name is required for reading file content"
    else readFileContent manager (string_of (arg args "name"))
  else if is_action "fuzzy_search" then
    if falsy (arg args "query") || not_string (arg args "query")
    then throw "Query is required for fuzzy search"
    else
      files ← fuzzySearch manager (string_of (arg args "query"));
      ret (js_string (JS.join nl files))
  else throw ("Unknown action: " +:+ Json.toString_opt action).

(** The [try] statement of the handler installed for
    [CallToolRequestSchema]: the [try] block and its [catch]. *)
Definition callTool (c : clock) (request : CallToolRequest) (s : state)
  : CallToolResult * state :=
  match dispatch c request s with
  | (Ok result, s') => (text_result result, s')
  | (Throw errorMessage, s') =>
      (text_result (js_string ("Error: " +:+ errorMessage)), s')
  end.

(** The handler installed for [CallToolRequestSchema], whole: the line
    that logs the request, whose template literal converts
    [args?.action] to text, and then the [try] statement.  The logging
    line stands before the [try], so what it throws leaves the
    handler. *)
Definition CallToolHandler (c : clock) (request : CallToolRequest)
  : M CallToolResult :=
  if printable (arg (params_arguments request) "action")
  then fun s => let (response, s') := callTool c request s in
                (Ok response, s')
  else throw TypeError_primitive.

(** The action names the [switch] knows. *)
Definition actions : list string :=
  ["create_file"; "create_dir"; "move_file"; "move_dir"; "append_content";
   "rename_file"; "read_all_files"; "read_file_content"; "fuzzy_search"].

End Server.

(** The arguments an action insists on. *)
Definition required (a : string) : list string :=
  if String.eqb a "create_file" then ["name"; "content"]
  else if String.eqb a "create_dir" then ["name"]
  else if String.eqb a "move_file" then ["source"; "dest"]
  else if String.eqb a "move_dir" then ["source"; "dest"]
  else if String.eqb a "append_content" then ["name"; "content"]
  else if String.eqb a "rename_file" then ["source"; "dest"]
  else if String.eqb a "read_file_content" then ["name"]
  else if String.eqb a "fuzzy_search" then ["query"]
  else [].

(** What the handler throws when one of them is missing, empty or not a
    string. *)
Definition complaint (a : string) : string :=
  if String.eqb a "create_file"
  then "Name and content are required for creating a file"
  else if String.eqb a "create_dir"
  then "Name is required for creating a directory"
  else if String.eqb a "move_file"
  then "Source and destination are required for moving a file"
  else if String.eqb a "move_dir"
  then "Source and destination are required for moving a directory"
  else if String.eqb a "append_content"
  then "Name and content are required for appending content"
  else if String.eqb a "rename_file"
  then "Source and destination are required for renaming a file"
  else if String.eqb a "read_file_content"
  then "Name is required for reading file content"
  else if String.eqb a "fuzzy_search"
  then "Query is required for fuzzy search"
  else "".

(** [!args?.[k] || typeof args[k] !== "string"]. *)
Definition unusable (args : option (list (string * Json.value)))
  (k : string) : bool :=
  falsy (arg args k) || not_string (arg args k).

(** ** Notions the statements about the store need *)

Module Store.
Import Fs.

(** The lines [tree_text] adds for the entries of a directory. *)
Definition tree_items (dir : string) : list (string * Fs.node) -> string :=
  fix each (items : list (string * Fs.node)) : string :=
    match items with
    | [] => ""
    | (item, child) :: rest =>
        let fullPath := Path.join dir item in
        let isLast := match rest with [] => true | _ :: _ => false end in
        let prefix := if isLast then "└── " else "├── " in
        (if Fs.is_dirb child then
           prefix +:+ item +:+ "/" +:+ nl
           +:+ JS.join nl
                 (map (fun line =>
                         (if isLast then "    " else "│   ") +:+ line)
                      (JS.split "010" (tree_text fullPath child)))
         else prefix +:+ item +:+ nl)
        +:+ each rest
    end.

(** The paths [getAllFiles] collects from the entries of a directory. *)
Definition files_items (dir : string)
  : list (string * Fs.node) -> list string :=
  fix each (files : list (string * Fs.node)) : list string :=
    match files with
    | [] => []
    | (file, child) :: rest =>
        let fullPath := Path.join dir file in
        (if Fs.is_dirb child then getAllFiles fullPath child
         else [fullPath])
        ++ each rest
    end.

Section with_process.
Context {process : Process}.

(** Where the calls into [fs] land: the storage root, the manifest, and
    the path an operation makes of its [file] argument. *)
Definition Mp : fpath := resolve MEMORY_DIR.

Definition DFp : fpath := resolve DIRECTORY_FILE.

Definition Fp (file : string) : fpath := resolve (Path.join MEMORY_DIR file).

(** The text [generateDirectoryTree(MEMORY_DIR)] computes on disk [d]. *)
Definition tree_at (d : node) : errno + string :=
  on_inr (fun items => tree_text MEMORY_DIR (Dir items)) (readdir Mp d).

(** What [updateDirectoryFile] does to the disk. *)
Definition resync (d : node) : node :=
  match tree_at d with
  | inl _ => d
  | inr tree =>
      match open_write false DFp tree d with
      | inr d' => d'
      | inl _ => d
      end
  end.

(** Whether it returns normally. *)
Definition resync_ok (d : node) : bool :=
  match tree_at d with
  | inl _ => false
  | inr tree =>
      match open_write false DFp tree d with
      | inr _ => true
      | inl _ => false
      end
  end.

(** The operation returned rather than threw. *)
Definition is_ok {A} (r : result A) : bool :=
  match r with Ok _ => true | Throw _ => false end.

(** The shape all six mutating operations share: one change of the disk,
    then the resync, inside one [try]. *)
Definition then_sync (r : errno + node) (d : node) : node :=
  match r with
  | inr d1 => resync d1
  | inl _ => d
  end.

Definition then_sync_ok (r : errno + node) : bool :=
  match r with
  | inr d1 => resync_ok d1
  | inl _ => false
  end.

(** The record after [memory.content += content; memory.timestamp = ...],
    when the assignments go through. *)
Definition append_value (memory : Json.value) (content timestamp : string)
  : option Json.value :=
  match memory with
  | Json.Obj members =>
      Some (Json.Obj
              (Json.set_member "timestamp" (Json.Str timestamp)
                 (Json.set_member "content"
                    (Json.Str (Json.toString_opt
                                 (Json.find_member "content" members)
                               +:+ content)) members)))
  | Json.Arr items => Some (Json.Arr items)
  | _ => None
  end.

(** The new text of the file, when there is one. *)
Definition edit (text content timestamp : string) : option string :=
  match Json.parse text with
  | Some memory =>
      match append_value memory content timestamp with
      | Some memory' => Some (Json.stringify memory')
      | None => None
      end
  | None => None
  end.

(** The structured append as a function of the disk. *)
Definition json_append_disk (file content timestamp : string) (d : node)
  : node :=
  match read (Fp file) d with
  | inr text =>
      match edit text content timestamp with
      | Some text' => then_sync (open_write false (Fp file) text' d) d
      | None => d
      end
  | inl _ => d
  end.

(** The six mutating operations of a manager. *)
Inductive mutation : Type :=
| CreateFile (name content : string)
| CreateDir (name : string)
| MoveFile (source dest : string)
| MoveDir (source dest : string)
| AppendContent (file content : string)
| RenameFile (oldName newName : string).

Definition perform (manager : MemoryManager) (c : clock) (op : mutation)
  : M unit :=
  match op with
  | CreateFile name content => createFile manager c name content
  | CreateDir name => createDir manager name
  | MoveFile source dest => moveFile manager source dest
  | MoveDir source dest => moveDir manager source dest
  | AppendContent file content => appendContent manager c file content
  | RenameFile oldName newName => renameFile manager oldName newName
  end.

(** The manifest on disk is the tree text computed now. *)
Definition manifest_fresh (s : state) : Prop :=
  exists tree,
    generateDirectoryTree MEMORY_DIR s = (Ok tree, s) /\
    readFileSync DIRECTORY_FILE s = (Ok tree, s).

(** The manifest is in place as a regular file. *)
Definition manifest_present (s : state) : Prop :=
  is_file (segs DFp) (disk s).

(** The operation moves the manifest, or a directory above it, away. *)
Definition moves_manifest (op : mutation) : Prop :=
  match op with
  | MoveFile source _ | MoveDir source _ | RenameFile source _ =>
      is_prefix (segs (Fp source)) (segs DFp) = true
  | _ => False
  end.

(** The two tools, [MODE_JSON] and [MODE_RAW], and the manager behind
    each. *)
Inductive mode : Type := Structured | Raw.

Definition manager_of (m : mode) : MemoryManager :=
  match m with
  | Structured => jsonManager
  | Raw => rawManager
  end.

(** The name under which [createFile(name, ...)] stores the unit: the
    structured manager adds its suffix, and no other operation does. *)
Definition stored_as (m : mode) (name : string) : string :=
  match m with
  | Structured => name +:+ ".json"
  | Raw => name
  end.

(** The raw append as a function of the disk. *)
Definition raw_append_disk (file content : string) (d : node) : node :=
  then_sync (open_write true (Fp file) content d) d.

(** What [readFileContent] of the structured manager makes of a text. *)
Definition content_of_text (text : string) : result jsval :=
  match Json.parse text with
  | None => Throw SyntaxError
  | Some Json.Null => Throw (TypeError_read "null" "content")
  | Some (Json.Obj members) => Ok (Json.find_member "content" members)
  | Some _ => Ok None
  end.

(** What it makes of a file on disk. *)
Definition content_on_disk (file : string) (d : node)
  : errno + result jsval :=
  on_inr content_of_text (read (Fp file) d).

(** A property of a parsed record; [None] when it has none of that
    name. *)
Definition field (k : string) (memory : Json.value) : jsval :=
  match memory with
  | Json.Obj members => Json.find_member k members
  | _ => None
  end.

Definition is_Str (v : Json.value) : bool :=
  match v with Json.Str _ => true | _ => false end.

(** [MemorySchema.safeParse(memory).success]: an object whose
    [timestamp], [id] and [content] are strings and whose [tags] is an
    array of strings. *)
Definition MemorySchema (memory : Json.value) : bool :=
  match memory with
  | Json.Obj _ =>
      match field "timestamp" memory, field "id" memory,
            field "tags" memory, field "content" memory with
      | Some (Json.Str _), Some (Json.Str _), Some (Json.Arr tags),
        Some (Json.Str _) => forallb is_Str tags
      | _, _, _, _ => false
      end
  | _ => false
  end.

(** The record a file holds, when it holds one. *)
Definition stored_record (file : string) (s : state) : option Json.value :=
  match read (Fp file) (disk s) with
  | inr text => Json.parse text
  | inl _ => None
  end.

End with_process.

(** An operation that leaves the tag graph as it found it. *)
Definition keeps_graph {A} (m : M A) : Prop :=
  forall s, memoryGraph (m s).2 = memoryGraph s.

(** The predicate of the structured search, on a parsed record. *)
Definition tag_matches (query : string) (tag : Json.value) : bool :=
  match tag with
  | Json.Str t => JS.includes_ci t query
  | _ => false
  end.

(** The content contains the query, or some tag does; letter case
    aside. *)
Definition record_matches (memory : Json.value) (query : string) : bool :=
  match field "content" memory with
  | Some (Json.Str s) => JS.includes_ci s query
  | _ => false
  end
  || match field "tags" memory with
     | Some (Json.Arr items) => existsb (tag_matches query) items
     | _ => false
     end.

(** The same predicate on the file at a path. *)
Definition file_matches (query : string) (d : Fs.node) (path : string)
  : bool :=
  match Fs.read (Fs.resolve path) d with
  | inr text =>
      match Json.parse text with
      | Some memory => record_matches memory query
      | None => false
      end
  | inl _ => false
  end.

(** [q] occurs in [s]. *)
Definition occurs_in (q s : string) : Prop :=
  exists pre post, s = pre +:+ q +:+ post.

(** An operation whose result, when it returns one, is a string. *)
Definition yields_string (m : M jsval) : Prop :=
  forall s,
    match (m s).1 with
    | Ok v => exists text, v = js_string text
    | Throw _ => True
    end.

End Store.

(** ** A sample installation *)

Module Sample.

(** The script is [/app/build/index.js]. *)
#[export] Instance process : Process := {| BUILD_DIR := "/app/build" |}.

(** The disk before the server first runs: the build directory with the
    script in it. *)
Definition installed : state :=
  {| disk := Fs.Dir [("app", Fs.Dir [("build",
                        Fs.Dir [("index.js", Fs.File "")])])];
     memoryGraph := ∅ |}.

(** The store once the constructors of the managers have run. *)
Definition started : state := (initializeDirectory installed).2.

(** A storage root that was there before the server ran, and is
    empty. *)
Definition bare : state :=
  {| disk := Fs.Dir [("app", Fs.Dir [("build",
                        Fs.Dir [("index.js", Fs.File "");
                                ("MEMORY_DIR", Fs.Dir [])])])];
     memoryGraph := ∅ |}.

(** Two readings of the clock, seven milliseconds apart. *)
Definition noon : clock :=
  {| new_Date := 1700000000000; Date_now := 1700000000000 |}.

Definition later : clock :=
  {| new_Date := 1700000000007; Date_now := 1700000000007 |}.

(** A request for the tool [mode] with the given arguments. *)
Definition call (mode : string) (arguments : list (string * Json.value))
  : CallToolRequest :=
  {| params_name := mode; params_arguments := Some arguments |}.

(** The store after a structured [create_file] of "note". *)
Definition noted : state :=
  (createFile jsonManager noon "note" "Some Content" started).2.

(** The store after a raw [create_file] has put the text of an empty
    object where the structured manager looks for records. *)
Definition stray : state :=
  (createFile rawManager noon "stray.json" "{}" started).2.

(** The store after a raw [create_file] of a greeting. *)
Definition greeted : state :=
  (createFile rawManager noon "greeting.txt" "Hello world" started).2.

(** Two structured creates that read the same millisecond. *)
Definition twins : state :=
  (createFile jsonManager noon "second" "Other Content" noted).2.

(** Two structured creates a few milliseconds apart. *)
Definition apart : state :=
  (createFile jsonManager later "second" "Other Content" noted).2.

(** A record with a tag, put in place by hand (no request can make
    one), next to the record of "note". *)
Definition tagged_record : Json.value :=
  Json.Obj [("timestamp", Json.Str "2023-11-14T22:13:20.000Z");
            ("id", Json.Str "1700000000001");
            ("tags", Json.Arr [Json.Str "Groceries"]);
            ("content", Json.Str "buy milk")].

Definition tagged : state :=
  (createFile rawManager noon "list.json" (Json.stringify tagged_record)
     noted).2.

(** The greeting, moved into the archive. *)
Definition archived : state :=
  (moveFile rawManager "greeting.txt" "ARCHIVE/greeting.txt" greeted).2.

(** The requests of the examples. *)
Definition create_with_tags : CallToolRequest :=
  call "MODE_JSON"
    [("action", Json.Str "create_file"); ("name", Json.Str "note");
     ("content", Json.Str "Some Content");
     ("tags", Json.Arr [Json.Str "work"; Json.Str "idea"])].

Definition search (mode query : string) : CallToolRequest :=
  call mode [("action", Json.Str "fuzzy_search"); ("query", Json.Str query)].

Definition append_to_stray : CallToolRequest :=
  call "MODE_JSON"
    [("action", Json.Str "append_content"); ("name", Json.Str "stray.json");
     ("content", Json.Str "a")].

Definition read_stray : CallToolRequest :=
  call "MODE_JSON"
    [("action", Json.Str "read_file_content");
     ("name", Json.Str "stray.json")].

End Sample.

(** ** Notions for paths, the tag graph and the disk *)

(** A path segment that [normalizeString] keeps as it is. *)
Definition kept (seg : string) : Prop :=
  seg ≠ "" /\ seg ≠ "." /\ seg ≠ "..".

(** A name of one segment: it has no separator in it. *)
Definition one_segment (name : string) : Prop :=
  JS.split Path.slash name = [name].

(** The tags a tag is related to; none when it is not registered. *)
Definition related (graph : gmap string (gset string)) (tag : string)
  : gset string :=
  default ∅ (graph !! tag).

(** Every relation goes both ways, and to a registered tag. *)
Definition reciprocal (graph : gmap string (gset string)) : Prop :=
  forall a b A, graph !! a = Some A -> b ∈ A ->
                exists B, graph !! b = Some B /\ a ∈ B.

(** No tag is related to itself. *)
Definition loop_free (graph : gmap string (gset string)) : Prop :=
  forall a A, graph !! a = Some A -> a ∉ A.

(** The graph [connectTags(tags)] leaves. *)
Definition connected (tags : list string)
  (graph : gmap string (gset string)) : gmap string (gset string) :=
  foldl (connect_tag tags) graph tags.

(** [p] is a directory of the disk. *)
Definition is_dir (p : list string) (root : Fs.node) : Prop :=
  exists entries, Fs.walk p root = inr (Fs.Dir entries).

Section Notions.
Context {process : Process}.

(** The paths an operation names: the file it writes, the directory it
    makes, or the two ends of a move. *)
Definition named_paths (m : Store.mode) (op : Store.mutation)
  : list Fs.fpath :=
  match op with
  | Store.CreateFile name _ => [Store.Fp (Store.stored_as m name)]
  | Store.CreateDir name => [Store.Fp name]
  | Store.MoveFile source dest => [Store.Fp source; Store.Fp dest]
  | Store.MoveDir source dest => [Store.Fp source; Store.Fp dest]
  | Store.AppendContent file _ => [Store.Fp file]
  | Store.RenameFile oldName newName => [Store.Fp oldName; Store.Fp newName]
  end.

End Notions.

(** [op] is one of the three operations that move [source] to [dest]. *)
Definition relocation (source dest : string) (op : Store.mutation) : Prop :=
  op = Store.MoveFile source dest \/ op = Store.MoveDir source dest \/
  op = Store.RenameFile source dest.


(** Text of ASCII characters only.  On such text [toLowerCase] changes
    the letters A to Z and nothing else, which is what [JS.toLowerCase]
    does on every text. *)
Fixpoint is_ascii (s : string) : bool :=
  match s with
  | EmptyString => true
  | String c r => (N_of_ascii c <? 128)%N && is_ascii r
  end.

(** The strings the structured search lowers in a record, its content
    and its tags, are ASCII. *)
Definition ascii_record (memory : Json.value) : bool :=
  match Store.field "content" memory with
  | Some (Json.Str content) => is_ascii content
  | _ => true
  end
  && match Store.field "tags" memory with
     | Some (Json.Arr items) =>
         forallb (fun tag => match tag with
                             | Json.Str t => is_ascii t
                             | _ => true
                             end) items
     | _ => true
     end.

(** The same of the file at a path, when it holds JSON text. *)
Definition ascii_file (d : Fs.node) (path : string) : bool :=
  match Fs.read (Fs.resolve path) d with
  | inr text =>
      match Json.parse text with
      | Some memory => ascii_record memory
      | None => true
      end
  | inl _ => true
  end.

(** No directory of the tree lists a name twice, as on a real disk. *)
Fixpoint unique_names (n : Fs.node) : bool :=
  match n with
  | Fs.File _ => true
  | Fs.Dir entries =>
      bool_decide (NoDup (map fst entries))
      && forallb (fun entry => unique_names (snd entry)) entries
  end.

(** ** More states of the sample installation *)

Module Scenario.
Import Sample.

(** The store after a raw [create_dir] two levels deep. *)
Definition filed : state :=
  (createDir rawManager "projects/alpha" started).2.

(** The store after a raw [create_file] has put plain text under a name
    the structured manager takes for a record's, next to the record of
    "note". *)
Definition drafted : state :=
  (createFile rawManager noon "draft.json" "to do" noted).2.

(** The store after a raw [append_content] to the greeting. *)
Definition cheered : state :=
  (appendContent rawManager later "greeting.txt" "!" greeted).2.

(** The store with a second record, one that has a tag, next to the
    record of "note". *)
Definition planned : state :=
  (createFile rawManager noon "plan.json" (Json.stringify tagged_record)
     noted).2.

End Scenario.

(* ================================================================= *)
(** * Part II: properties of the model *)
(* ================================================================= *)

(** ** Strings *)

Module StrFacts.

Lemma append_nil_r s : s +:+ "" = s.
Proof. induction s; simpl; congruence. Qed.

Lemma append_assoc a b c : (a +:+ b) +:+ c = a +:+ b +:+ c.
Proof. induction a; simpl; congruence. Qed.

Lemma length_append a b :
  String.length (a +:+ b) = String.length a + String.length b.
Proof. induction a; simpl; congruence. Qed.

Lemma append_cons a s t : String a s +:+ t = String a (s +:+ t).
Proof. reflexivity. Qed.

Lemma append_nil_l t : "" +:+ t = t.
Proof. reflexivity. Qed.

End StrFacts.

(** ** The UTF-8 form of a string *)

Module Utf16Facts.
Import Utf16.

Ltac dlia := zify; Z.to_euclidean_division_equations; lia.

Ltac tests :=
  repeat match goal with
         | |- context [(?a <=? ?b)%N] => destruct (N.leb_spec a b)
         | |- context [(?a <? ?b)%N] => destruct (N.ltb_spec a b)
         | |- context [(?a =? ?b)%N] => destruct (N.eqb_spec a b)
         | H : context [(?a <=? ?b)%N] |- _ => destruct (N.leb_spec a b)
         | H : context [(?a <? ?b)%N] |- _ => destruct (N.ltb_spec a b)
         end; cbn [andb orb negb] in *.

Lemma pack_app a b : pack (a ++ b) = pack a +:+ pack b.
Proof. induction a as [|x a IH]; simpl; [done|]. by rewrite IH. Qed.

Lemma unpack_pack l : Forall (fun b => (b < 256)%N) l -> unpack (pack l) = l.
Proof.
  induction 1 as [|b l Hb Hl IH]; simpl; [done|].
  by rewrite N_ascii_embedding, IH.
Qed.

Lemma utf8_bytes cp : scalar cp -> Forall (fun b => (b < 256)%N) (utf8 cp).
Proof.
  intros Hcp. unfold utf8, scalar in *. tests; repeat constructor; dlia.
Qed.

Lemma lead_one b : (b <= 0x7F)%N -> lead b = ([b], fresh).
Proof. intros. unfold lead. tests; try dlia. done. Qed.

Lemma lead_two b :
  (0xC2 <= b <= 0xDF)%N ->
  lead b = ([], {| code_point := b - 0xC0; bytes_needed := 1;
                   lower_boundary := 0x80; upper_boundary := 0xBF |}).
Proof. intros. unfold lead. tests; try dlia. done. Qed.

Lemma lead_three b :
  (0xE0 <= b <= 0xEF)%N ->
  lead b = ([], {| code_point := b - 0xE0; bytes_needed := 2;
                   lower_boundary := if (b =? 0xE0)%N then 0xA0 else 0x80;
                   upper_boundary := if (b =? 0xED)%N then 0x9F else 0xBF |}).
Proof.
  intros. unfold lead.
  destruct (N.leb_spec b 0x7F); [dlia|].
  destruct (N.leb_spec 0xC2 b), (N.leb_spec b 0xDF); cbn [andb]; try dlia;
    destruct (N.leb_spec 0xE0 b), (N.leb_spec b 0xEF); cbn [andb];
    try dlia; done.
Qed.

Lemma lead_four b :
  (0xF0 <= b <= 0xF4)%N ->
  lead b = ([], {| code_point := b - 0xF0; bytes_needed := 3;
                   lower_boundary := if (b =? 0xF0)%N then 0x90 else 0x80;
                   upper_boundary := if (b =? 0xF4)%N then 0x8F else 0xBF |}).
Proof.
  intros. unfold lead.
  destruct (N.leb_spec b 0x7F); [dlia|].
  destruct (N.leb_spec 0xC2 b), (N.leb_spec b 0xDF); cbn [andb]; try dlia;
    destruct (N.leb_spec 0xE0 b), (N.leb_spec b 0xEF); cbn [andb];
    try dlia;
    destruct (N.leb_spec 0xF0 b), (N.leb_spec b 0xF4); cbn [andb];
    try dlia; done.
Qed.

Lemma decode_first b rest :
  decode_bytes fresh (b :: rest)
  = (lead b).1 ++ decode_bytes (lead b).2 rest.
Proof. simpl. by destruct (lead b). Qed.

Lemma decode_last cp lo hi b rest :
  (lo <= b <= hi)%N ->
  decode_bytes {| code_point := cp; bytes_needed := 1;
                  lower_boundary := lo; upper_boundary := hi |} (b :: rest)
  = (cp * 0x40 + (b - 0x80))%N :: decode_bytes fresh rest.
Proof.
  intros [Hlo Hhi]. cbn [decode_bytes bytes_needed lower_boundary
                          upper_boundary code_point].
  apply N.leb_le in Hlo, Hhi. by rewrite Hlo, Hhi.
Qed.

Lemma decode_more cp n lo hi b rest :
  (lo <= b <= hi)%N ->
  decode_bytes {| code_point := cp; bytes_needed := S (S n);
                  lower_boundary := lo; upper_boundary := hi |} (b :: rest)
  = decode_bytes {| code_point := cp * 0x40 + (b - 0x80);
                    bytes_needed := S n;
                    lower_boundary := 0x80; upper_boundary := 0xBF |} rest.
Proof.
  intros [Hlo Hhi]. cbn [decode_bytes bytes_needed lower_boundary
                          upper_boundary code_point].
  apply N.leb_le in Hlo, Hhi. by rewrite Hlo, Hhi.
Qed.

(** The decoder reads the bytes of a code point back as that code
    point. *)
Lemma decode_utf8 cp rest :
  scalar cp ->
  decode_bytes fresh (utf8 cp ++ rest) = cp :: decode_bytes fresh rest.
Proof.
  intros Hcp. unfold utf8, scalar in *.
  destruct (N.ltb_spec cp 0x80) as [H1|H1].
  { cbn [app]. rewrite decode_first, lead_one by dlia. done. }
  destruct (N.ltb_spec cp 0x800) as [H2|H2].
  { cbn [app]. rewrite decode_first, lead_two by dlia. cbn [fst snd app].
    rewrite decode_last by dlia. f_equal. dlia. }
  destruct (N.ltb_spec cp 0x10000) as [H3|H3].
  { cbn [app]. rewrite decode_first, lead_three by dlia. cbn [fst snd app].
    rewrite decode_more by (tests; dlia).
    rewrite decode_last by dlia. f_equal. dlia. }
  cbn [app]. rewrite decode_first, lead_four by dlia. cbn [fst snd app].
  rewrite decode_more by (tests; dlia).
  rewrite decode_more by dlia.
  rewrite decode_last by dlia. f_equal. dlia.
Qed.

Lemma decode_points cps :
  Forall scalar cps -> decode_bytes fresh (flat_map utf8 cps) = cps.
Proof.
  induction 1 as [|cp cps Hcp _ IH]; [done|]. cbn [flat_map].
  by rewrite decode_utf8, IH.
Qed.

Lemma points_bytes cps :
  Forall scalar cps -> Forall (fun b => (b < 256)%N) (flat_map utf8 cps).
Proof.
  induction 1 as [|cp cps Hcp _ IH]; [done|]. cbn [flat_map].
  apply Forall_app. split; [by apply utf8_bytes|done].
Qed.

(** The strings of a given length at most. *)
Lemma by_length (P : text -> Prop) :
  (forall t, (forall r, length r < length t -> P r) -> P t) ->
  forall t, P t.
Proof.
  intros Hstep t. remember (length t) as n eqn:Hn.
  revert t Hn. induction n as [n IH] using lt_wf_ind. intros t ->.
  apply Hstep. intros r Hr. by apply (IH (length r)).
Qed.

Lemma code_points_scalar t :
  well_formed t = true ->
  Forall scalar (code_points t) /\ flat_map units (code_points t) = t.
Proof.
  induction t as [t IH] using by_length. destruct t as [|u r]; [done|].
  cbn [well_formed code_points]. unfold is_high, is_low.
  destruct ((0xD800 <=? u)%N && (u <=? 0xDBFF)%N) eqn:Hh.
  - destruct r as [|l r']; [done|].
    destruct ((0xDC00 <=? l)%N && (l <=? 0xDFFF)%N) eqn:Hl; [|done].
    cbn [andb]. intros Hr. destruct (IH r') as [Hs Hu]; [simpl; lia|done|].
    apply andb_prop in Hh as [Hh1 Hh2], Hl as [Hl1 Hl2].
    apply N.leb_le in Hh1, Hh2, Hl1, Hl2.
    split.
    + apply Forall_cons. split; [unfold scalar; dlia|done].
    + cbn [flat_map]. rewrite Hu. unfold units.
      destruct (N.ltb_spec (0x10000 + (u - 0xD800) * 0x400 + (l - 0xDC00))
                  0x10000); [dlia|].
      cbn [app]. f_equal; [dlia|]. f_equal. dlia.
  - destruct ((0xDC00 <=? u)%N && (u <=? 0xDFFF)%N) eqn:Hl; [done|].
    cbn [negb andb]. intros [Hu Hr]%andb_prop.
    apply N.ltb_lt in Hu. destruct (IH r) as [Hs Hun]; [simpl; lia|done|].
    split.
    + apply Forall_cons. split; [|done]. unfold scalar.
      apply andb_false_iff in Hh, Hl.
      rewrite !N.leb_gt in Hh, Hl. dlia.
    + cbn [flat_map]. rewrite Hun. unfold units.
      apply N.ltb_lt in Hu. by rewrite Hu.
Qed.

(** A string without unpaired surrogates is read back as it was
    written. *)
Lemma decode_encode t : well_formed t = true -> decode (encode t) = t.
Proof.
  intros Hwf. destruct (code_points_scalar t Hwf) as [Hs Hu].
  unfold decode, encode.
  by rewrite unpack_pack, decode_points by by try apply points_bytes.
Qed.

(** A string without unpaired surrogates ends where a code point ends,
    so what follows it is encoded on its own. *)
Lemma code_points_app a b :
  well_formed a = true ->
  code_points (a ++ b) = code_points a ++ code_points b.
Proof.
  induction a as [a IH] using by_length. destruct a as [|u r]; [done|].
  cbn [well_formed code_points app]. destruct (is_high u).
  - destruct r as [|l r']; [done|]. cbn [app].
    destruct (is_low l); [|done]. cbn [andb]. intros Hr.
    rewrite IH by (simpl; lia || done). done.
  - destruct (is_low u); [done|]. cbn [negb andb].
    intros [_ Hr]%andb_prop. by rewrite IH by (simpl; lia || done).
Qed.

Lemma encode_app a b :
  well_formed a = true -> encode (a ++ b) = encode a +:+ encode b.
Proof.
  intros Ha. unfold encode.
  by rewrite code_points_app, flat_map_app, pack_app.
Qed.

Lemma well_formed_app a b :
  well_formed a = true -> well_formed b = true ->
  well_formed (a ++ b) = true.
Proof.
  intros Ha Hb. induction a as [a IH] using by_length.
  destruct a as [|u r]; [done|].
  cbn [well_formed app] in *. destruct (is_high u).
  - destruct r as [|l r']; [done|]. cbn [app].
    apply andb_prop in Ha as [-> Hr]. cbn [andb].
    apply IH; [simpl; lia|done].
  - apply andb_prop in Ha as [-> Hr]. cbn [andb].
    apply IH; [simpl; lia|done].
Qed.

End Utf16Facts.

(** ** The file system *)

Module FsFacts.
Import Fs.

Lemma find_set_same x n es : find_entry x (set_entry x n es) = Some n.
Proof.
  induction es as [|[y m] es IH]; simpl.
  - by rewrite decide_True.
  - destruct (decide (x = y)); simpl.
    + by rewrite decide_True.
    + by rewrite decide_False.
Qed.

Lemma find_set_other x y n es :
  x ≠ y -> find_entry y (set_entry x n es) = find_entry y es.
Proof.
  intros Hxy. induction es as [|[z m] es IH]; simpl.
  - by rewrite decide_False.
  - destruct (decide (x = z)) as [->|]; simpl.
    + by rewrite !decide_False.
    + destruct (decide (y = z)); done.
Qed.

Lemma set_entry_new x n es :
  find_entry x es = None -> set_entry x n es = es ++ [(x, n)].
Proof.
  induction es as [|[y m] es IH]; simpl; [done|].
  destruct (decide (x = y)); [done|]. intros H. by rewrite IH.
Qed.

Lemma set_set_same x n m es :
  set_entry x n (set_entry x m es) = set_entry x n es.
Proof.
  induction es as [|[y k] es IH]; simpl.
  - by rewrite decide_True.
  - destruct (decide (x = y)); simpl.
    + by rewrite decide_True.
    + by rewrite decide_False, IH.
Qed.

Ltac decs := repeat (simpl in *; case_decide; simplify_eq; try done).

Lemma set_set_comm x y a b es :
  x ≠ y -> is_Some (find_entry x es) -> is_Some (find_entry y es) ->
  set_entry x a (set_entry y b es) = set_entry y b (set_entry x a es).
Proof.
  intros Hxy. induction es as [|[z k] es IH]; simpl.
  - intros [? ?]; done.
  - intros Hx Hy. decs. by rewrite IH.
Qed.

Lemma set_entry_id x n es : find_entry x es = Some n -> set_entry x n es = es.
Proof.
  induction es as [|[y k] es IH]; simpl; [done|].
  destruct (decide (x = y)) as [->|]; [congruence|].
  intros H. by rewrite IH.
Qed.

Lemma update_nil_dir g es : update [] g (Dir es) = Dir es.
Proof. done. Qed.

Lemma update_file_cons x r g d : update (x :: r) g (File d) = File d.
Proof. done. Qed.

Lemma is_dirb_update p g n : is_dirb (update p g n) = is_dirb n.
Proof. destruct p, n; simpl; try done. by destruct (find_entry _ _). Qed.

(** Walking a tree after an in-place update. *)
Lemma walk_update q p g n :
  walk q (update p g n) =
  on_inr (fun v => match strip q p with
                    | Some r => update r g v
                    | None => v
                    end) (walk q n).
Proof.
  revert p n. induction q as [|x q IH]; intros p n; simpl; [done|].
  destruct n as [d|es]; simpl.
  { by destruct p. }
  destruct p as [|y p]; simpl.
  { destruct (find_entry x es) as [c|]; simpl; [|done].
    by destruct (walk q c). }
  destruct (find_entry y es) as [c|] eqn:Ey; simpl.
  - destruct (decide (x = y)) as [->|Hxy].
    + rewrite find_set_same, Ey. apply IH.
    + rewrite find_set_other by done.
      destruct (find_entry x es) as [c'|]; simpl; [|done].
      by destruct (walk q c').
  - destruct (decide (x = y)) as [->|Hxy].
    + by rewrite Ey.
    + destruct (find_entry x es) as [c'|]; simpl; [|done].
      by destruct (walk q c').
Qed.

Lemma update_update_same p g h n :
  update p g (update p h n) = update p (fun d => g (h d)) n.
Proof.
  revert n. induction p as [|x p IH]; intros [d|es]; simpl; try done.
  destruct (find_entry x es) as [c|] eqn:E; simpl.
  - by rewrite find_set_same, set_set_same, IH.
  - by rewrite E.
Qed.

Lemma update_update_comm p q g h n :
  p ≠ q -> update p g (update q h n) = update q h (update p g n).
Proof.
  revert q n. induction p as [|x p IH]; intros [|y q] [d|es] Hpq; simpl;
    try done.
  - by destruct (find_entry y es).
  - by destruct (find_entry x es).
  - destruct (decide (x = y)) as [->|Hxy].
    + destruct (find_entry y es) as [c|] eqn:E; simpl.
      * rewrite !find_set_same, !set_set_same. rewrite IH; [done|congruence].
      * by rewrite E.
    + destruct (find_entry y es) as [c|] eqn:Ey;
        destruct (find_entry x es) as [c'|] eqn:Ex; simpl;
        rewrite ?find_set_other, ?Ex, ?Ey by done; try done.
      by rewrite set_set_comm by (done || eauto).
Qed.

(** A write to a file that exists changes its data where it stands. *)
Lemma store_file f p d n old :
  walk p n = inr (File old) ->
  store f p d n = inr (update p (fun o => if f then o +:+ d else d) n).
Proof.
  revert n. induction p as [|x p IH]; intros [o|es]; simpl; try done.
  destruct (find_entry x es) as [c|]; [|done].
  intros H. by rewrite (IH _ H).
Qed.

Lemma store_fail_indep f f' p d d' n e :
  store f p d n = inl e -> store f' p d' n = inl e.
Proof.
  revert n. induction p as [|x p IH]; intros [o|es]; simpl; try done.
  destruct (find_entry x es) as [c|].
  - destruct (store f p d c) eqn:E; [|done].
    intros [= <-]. by rewrite (IH _ E).
  - by destruct p.
Qed.

(** After a successful write the path is a file holding what was
    written. *)
Lemma walk_store_same f p d n n' :
  store f p d n = inr n' ->
  walk p n' = inr (File (match walk p n with
                         | inr (File old) => if f then old +:+ d else d
                         | _ => d
                         end)).
Proof.
  revert n n'. induction p as [|x p IH]; intros [o|es] n'; simpl.
  - by intros [= <-].
  - done.
  - done.
  - destruct (find_entry x es) as [c|] eqn:E.
    + destruct (store f p d c) as [|c'] eqn:Ec; [done|].
      intros [= <-]. simpl. rewrite find_set_same. by apply IH.
    + destruct p; [|done]. intros [= <-]. simpl.
      rewrite <- (set_entry_new x (File d) es E), find_set_same. done.
Qed.

(** A successful write leaves every other file as it was. *)
Lemma walk_store_other f q d n n' p x :
  store f q d n = inr n' -> p ≠ q ->
  walk p n = inr (File x) -> walk p n' = inr (File x).
Proof.
  revert n n' p. induction q as [|y q IH]; intros [o|es] n' p; simpl.
  - intros [= <-] Hp. by destruct p.
  - done.
  - done.
  - destruct (find_entry y es) as [c|] eqn:E.
    + destruct (store f q d c) as [|c'] eqn:Ec; [done|].
      intros [= <-] Hp. destruct p as [|z p]; simpl; [done|].
      destruct (decide (z = y)) as [->|Hyz].
      * rewrite find_set_same, E. apply (IH _ _ _ Ec). congruence.
      * by rewrite find_set_other.
    + destruct q; [|done]. intros [= <-] Hp.
      destruct p as [|z p]; simpl; [done|].
      rewrite <- (set_entry_new y (File d) es E).
      destruct (decide (z = y)) as [->|Hyz].
      * by rewrite E.
      * by rewrite find_set_other.
Qed.

Lemma set_entry_app x a es l :
  is_Some (find_entry x es) -> set_entry x a (es ++ l) = set_entry x a es ++ l.
Proof.
  induction es as [|[y k] es IH]; simpl.
  - by intros [? ?].
  - intros H. case_decide; [done|]. by rewrite IH.
Qed.

Lemma find_entry_app x es l :
  is_Some (find_entry x es) -> find_entry x (es ++ l) = find_entry x es.
Proof.
  induction es as [|[y k] es IH]; simpl.
  - by intros [? ?].
  - intros H. case_decide; [done|]. by rewrite IH.
Qed.

(** A write and an in-place update of another file commute. *)
Lemma store_update_comm f q d p g n :
  p ≠ q ->
  store f q d (update p g n) = on_inr (update p g) (store f q d n).
Proof.
  revert p n. induction q as [|y q IH]; intros p [o|es] Hpq.
  - destruct p; done.
  - destruct p; simpl; [done|]. by destruct (find_entry _ _).
  - destruct p; done.
  - destruct p as [|x r].
    { simpl. destruct (find_entry y es) as [c|].
      - by destruct (store f q d c).
      - by destruct q. }
    simpl. destruct (find_entry x es) as [cx|] eqn:Ex.
    + simpl. destruct (decide (x = y)) as [->|Hxy].
      * rewrite find_set_same, Ex. rewrite IH by congruence.
        destruct (store f q d cx) as [e|c']; simpl; [done|].
        by rewrite find_set_same, !set_set_same.
      * rewrite find_set_other by done.
        destruct (find_entry y es) as [cy|] eqn:Ey.
        -- destruct (store f q d cy) as [e|c']; simpl; [done|].
           rewrite find_set_other, Ex by done.
           by rewrite set_set_comm by (done || eauto).
        -- destruct q; simpl; [|done].
           rewrite find_entry_app, Ex by eauto.
           by rewrite set_entry_app by eauto.
    + simpl. destruct (find_entry y es) as [cy|] eqn:Ey.
      * destruct (store f q d cy) as [e|c']; simpl; [done|].
        destruct (decide (x = y)) as [->|Hxy]; [congruence|].
        by rewrite find_set_other, Ex by done.
      * destruct q; simpl; [|done].
        rewrite <- (set_entry_new y (File d) es Ey).
        destruct (decide (x = y)) as [->|Hxy].
        -- rewrite find_set_same. destruct r; [done|]. simpl.
           by rewrite set_set_same.
        -- by rewrite find_set_other, Ex by done.
Qed.

(** Two writes to one path amount to a single write. *)
Lemma store_store f f' p a b n n1 :
  store f p a n = inr n1 ->
  store f' p b n1 = store (f && f') p (if f' then a +:+ b else b) n.
Proof.
  revert n n1. induction p as [|x p IH]; intros [o|es] n1; simpl.
  - intros [= <-]. simpl. destruct f, f'; simpl; try done.
    by rewrite StrFacts.append_assoc.
  - done.
  - done.
  - destruct (find_entry x es) as [c|] eqn:E.
    + destruct (store f p a c) as [|c1] eqn:Ec; [done|].
      intros [= <-]. simpl. rewrite find_set_same, (IH _ _ Ec).
      destruct (store (f && f') p _ c); [done|]. by rewrite set_set_same.
    + destruct p; [|done]. intros [= <-]. simpl.
      rewrite <- (set_entry_new x (File a) es E), find_set_same. simpl.
      by rewrite set_set_same, set_entry_new.
Qed.

(** Creating directories never touches a file. *)
Lemma walk_mkdirp_file q n n' p x :
  mkdirp q n = inr n' ->
  walk p n = inr (File x) -> walk p n' = inr (File x).
Proof.
  revert n n' p. induction q as [|y q IH]; intros [o|es] n' p; simpl.
  - done.
  - by intros [= <-].
  - done.
  - destruct (find_entry y es) as [c|] eqn:E.
    + destruct (mkdirp q c) as [|c'] eqn:Ec; [done|].
      intros [= <-]. destruct p as [|z p]; simpl; [done|].
      destruct (decide (z = y)) as [->|Hyz].
      * rewrite find_set_same, E. by apply IH.
      * by rewrite find_set_other.
    + destruct (mkdirp q (Dir [])) as [|c'] eqn:Ec; [done|].
      intros [= <-]. destruct p as [|z p]; simpl; [done|].
      rewrite <- (set_entry_new y c' es E).
      destruct (decide (z = y)) as [->|Hyz].
      * by rewrite E.
      * by rewrite find_set_other.
Qed.

Lemma find_remove_other x z es :
  z ≠ x -> find_entry z (remove_entry x es) = find_entry z es.
Proof.
  intros Hzx. induction es as [|[y k] es IH]; simpl; [done|].
  destruct (decide (x = y)) as [->|]; simpl.
  - by rewrite decide_False.
  - by rewrite IH.
Qed.

Lemma remove_cons2 x y r n :
  remove (x :: y :: r) n =
  match n with
  | Dir es =>
      match find_entry x es with
      | Some c => Dir (set_entry x (remove (y :: r) c) es)
      | None => n
      end
  | File _ => n
  end.
Proof. by destruct n. Qed.

Lemma put_cons2 x y r v n :
  put (x :: y :: r) v n =
  match n with
  | Dir es =>
      match find_entry x es with
      | Some c => Dir (set_entry x (put (y :: r) v c) es)
      | None => n
      end
  | File _ => n
  end.
Proof. by destruct n. Qed.

(** Unlinking [p] leaves alone every file that is not at or below [p]. *)
Lemma walk_remove_other p q n x :
  is_prefix p q = false ->
  walk q n = inr (File x) -> walk q (remove p n) = inr (File x).
Proof.
  revert q n. induction p as [|a p IH]; intros q n; [done|].
  destruct p as [|b p].
  - destruct n as [o|es]; simpl; [done|].
    destruct q as [|z q]; simpl; [done|].
    case_bool_decide; simpl; [by destruct q|]. intros _.
    by rewrite find_remove_other.
  - rewrite remove_cons2. destruct n as [o|es]; [done|].
    destruct q as [|z q]; [done|].
    cbn [is_prefix walk]. case_bool_decide as Haz; simpl.
    + subst z. intros Hp. destruct (find_entry a es) as [c|] eqn:E; [|done].
      simpl. rewrite find_set_same. by apply IH.
    + intros _. destruct (find_entry a es) as [c|] eqn:E; [|done].
      simpl. by rewrite find_set_other.
Qed.

(** Linking at [p] leaves alone every file that is not at or below [p]. *)
Lemma walk_put_other p q v n x :
  is_prefix p q = false ->
  walk q n = inr (File x) -> walk q (put p v n) = inr (File x).
Proof.
  revert q n. induction p as [|a p IH]; intros q n; [done|].
  destruct p as [|b p].
  - destruct n as [o|es]; simpl; [done|].
    destruct q as [|z q]; simpl; [done|].
    case_bool_decide; simpl; [by destruct q|]. intros _.
    by rewrite find_set_other.
  - rewrite put_cons2. destruct n as [o|es]; [done|].
    destruct q as [|z q]; [done|].
    cbn [is_prefix walk]. case_bool_decide as Haz; simpl.
    + subst z. intros Hp. destruct (find_entry a es) as [c|] eqn:E; [|done].
      simpl. rewrite find_set_same. by apply IH.
    + intros _. destruct (find_entry a es) as [c|] eqn:E; [|done].
      simpl. by rewrite find_set_other.
Qed.

(** Linking over an entry that exists puts the new node there. *)
Lemma walk_put_same p v n w :
  p ≠ [] -> walk p n = inr w -> walk p (put p v n) = inr v.
Proof.
  revert n. induction p as [|a p IH]; intros n Hp; [done|].
  destruct p as [|b p].
  - destruct n as [o|es]; simpl; [done|]. intros _.
    by rewrite find_set_same.
  - rewrite put_cons2. destruct n as [o|es]; [done|].
    cbn [walk]. destruct (find_entry a es) as [c|] eqn:E; [|done].
    intros H. rewrite find_set_same. by apply IH.
Qed.

(** Above a file there are only directories, none of them empty. *)
Lemma walk_above_file p q n x :
  is_prefix p q = true -> p ≠ q -> walk q n = inr (File x) ->
  exists e es, walk p n = inr (Dir (e :: es)).
Proof.
  revert q n. induction p as [|a p IH]; intros q n.
  - intros _ Hq. destruct q as [|z q]; [done|]. simpl.
    destruct n as [o|es]; [done|]. destruct es as [|e es]; [done|]. eauto.
  - destruct q as [|z q]; [done|]. simpl.
    case_bool_decide as Haz; [|done]. subst z. simpl.
    intros Hp Hne. destruct n as [o|es]; [done|].
    destruct (find_entry a es) as [c|]; [|done].
    apply IH; [done|congruence].
Qed.

Lemma is_prefix_refl p : is_prefix p p = true.
Proof. induction p; simpl; [done|]. by rewrite bool_decide_eq_true_2. Qed.

(** A rename that does not start at or above a file leaves a file at
    that path. *)
Lemma rename_keeps_file src dst n n' q x :
  rename src dst n = inr n' ->
  is_prefix (segs src) q = false ->
  walk q n = inr (File x) ->
  exists y, walk q n' = inr (File y).
Proof.
  unfold rename. intros Hren Hsrc Hq.
  destruct (walk (segs src) n) as [|sn] eqn:Hs; [done|].
  destruct ((dir_only src || dir_only dst) && negb (is_dirb sn)); [done|].
  case_decide as Hnil; [done|].
  case_decide as Hsame; [injection Hren as <-; eauto|].
  destruct (is_dirb sn && is_prefix (segs src) (segs dst)); [done|].
  assert (Hq1 : walk q (remove (segs src) n) = inr (File x))
    by by apply walk_remove_other.
  destruct (is_prefix (segs dst) q) eqn:Hd.
  - destruct (decide (segs dst = q)) as [Heq|Hne].
    + rewrite Heq, Hq in Hren.
      assert (Hput : walk q (put q sn (remove (segs src) n)) = inr sn).
      { eapply walk_put_same; [|done]. intros ->. simpl in Hq.
        injection Hq as ->. by destruct (segs src). }
      destruct sn as [y|]; [|done].
      injection Hren as <-. by exists y.
    + destruct (walk_above_file _ _ _ _ Hd Hne Hq) as (e & es & Hw).
      rewrite Hw in Hren. by destruct sn.
  - assert (Hq2 : walk q (put (segs dst) sn (remove (segs src) n))
                  = inr (File x)) by by apply walk_put_other.
    destruct (walk (segs dst) n) as [|dn].
    + destruct (walk (removelast (segs dst)) n) as [|[|]]; try done.
      injection Hren as <-. eauto.
    + destruct sn, dn as [|[|]]; try done; injection Hren as <-; eauto.
Qed.

End FsFacts.

(** ** The JSON codec *)

Module JsonFacts.
Import Json.
#[local] Arguments nl : simpl never.

(** One character of a string literal, read back. *)
Lemma string_body_char c fuel tail :
  string_body (S fuel) (escape_char c +:+ tail) =
  match string_body fuel tail with
  | Some (x, r) => Some (String c x, r)
  | None => None
  end.
Proof.
  destruct c as [[] [] [] [] [] [] [] []]; reflexivity.
Qed.

Lemma length_escape_char c : 1 <= String.length (escape_char c).
Proof. destruct c as [[] [] [] [] [] [] [] []]; vm_compute; lia. Qed.

Lemma length_escape s : String.length s <= String.length (escape s).
Proof.
  induction s as [|c s IH]; simpl; [lia|].
  rewrite StrFacts.length_append. pose proof (length_escape_char c). lia.
Qed.

Lemma string_body_escape s fuel rest :
  String.length s < fuel ->
  string_body fuel (escape s +:+ String dquote rest) = Some (s, rest).
Proof.
  revert fuel. induction s as [|c s IH]; intros [|fuel] Hf;
    cbn [String.length] in Hf; try lia.
  - done.
  - change (escape (String c s)) with (escape_char c +:+ escape s).
    rewrite StrFacts.append_assoc, string_body_char, IH by lia. done.
Qed.

(** A quoted string reads back as itself. *)
Lemma string_lit_quote s rest :
  string_lit (escape s +:+ String dquote rest) = Some (s, rest).
Proof.
  unfold string_lit. apply string_body_escape.
  rewrite StrFacts.length_append. simpl. pose proof (length_escape s). lia.
Qed.

(** *** White space *)

Lemma skip_ws_app w s : all_ws w = true -> skip_ws (w +:+ s) = skip_ws s.
Proof.
  induction w as [|c w IH]; simpl; [done|].
  intros [Hc Hw]%andb_true_iff. rewrite Hc. auto.
Qed.

Lemma all_ws_app a b : all_ws a = true -> all_ws b = true ->
  all_ws (a +:+ b) = true.
Proof.
  induction a as [|c a IH]; simpl; [done|].
  intros [Hc Ha]%andb_true_iff Hb. rewrite Hc. simpl. auto.
Qed.

Lemma skip_ws_head c r : is_ws c = false -> skip_ws (String c r) = String c r.
Proof. simpl. by intros ->. Qed.

(** *** Number literals *)

Lemma head_ok_app test a t :
  head_ok test a = true -> (a = "" -> head_ok test t = true) ->
  head_ok test (a +:+ t) = true.
Proof. destruct a; simpl; auto. Qed.

Lemma head_ok_weaken (test test' : ascii -> bool) t :
  (forall c, test c = true -> test' c = true) ->
  head_ok test t = true -> head_ok test' t = true.
Proof. destruct t; simpl; auto. Qed.

Lemma digits_spec s d r :
  digits s = (d, r) -> all_digits d = true.
Proof.
  revert d r. induction s as [|c s IH]; intros d r; simpl.
  - by intros [= <- <-].
  - destruct (is_digit c) eqn:Hc.
    + destruct (digits s) as [d' r'] eqn:E. intros [= <- <-]. simpl.
      rewrite Hc. simpl. eauto.
    + by intros [= <- <-].
Qed.

Lemma digits_intro d t :
  all_digits d = true -> head_ok not_digit t = true ->
  digits (d +:+ t) = (d, t).
Proof.
  induction d as [|c d IH]; simpl.
  - intros _. destruct t as [|c t]; simpl; [done|].
    unfold not_digit. by intros ->%negb_true_iff.
  - intros [Hc Hd]%andb_true_iff Ht. rewrite Hc, IH by done. done.
Qed.

Lemma some_digits_relex s d r t :
  some_digits s = Some (d, r) -> head_ok not_digit t = true ->
  some_digits (d +:+ t) = Some (d, t) /\ d <> "" /\ all_digits d = true.
Proof.
  unfold some_digits. destruct (digits s) as [d' r'] eqn:E.
  case_decide; [done|]. intros [= <- <-] Ht.
  pose proof (digits_spec _ _ _ E) as Hd.
  rewrite digits_intro by done. by rewrite decide_False.
Qed.

Lemma all_digits_head test d :
  (forall c, is_digit c = true -> test c = true) ->
  all_digits d = true -> head_ok test d = true.
Proof. destruct d; simpl; [done|]. intros H [? ?]%andb_true_iff. auto. Qed.

Lemma int_part_relex s i r t :
  int_part s = Some (i, r) -> head_ok not_digit t = true ->
  int_part (i +:+ t) = Some (i, t) /\ i <> "" /\ head_ok is_digit i = true.
Proof.
  destruct s as [|c s]; simpl; [done|].
  destruct (ch c "0") eqn:Hc.
  - intros [= <- <-] _. done.
  - intros H Ht. destruct (some_digits_relex _ _ _ _ H Ht) as (H1 & H2 & H3).
    assert (Hhd : exists d', i = String c d').
    { unfold some_digits in H. simpl in H. destruct (is_digit c).
      - destruct (digits s) as [d' r']. case_decide; [done|].
        injection H as <- <-. eauto.
      - by rewrite decide_True in H. }
    destruct Hhd as [d' ->]. simpl. rewrite Hc.
    simpl in H1. rewrite H1. split; [done|]. split; [done|].
    simpl in H3. by apply andb_true_iff in H3 as [? ?].
Qed.

Lemma frac_part_relex s f r t :
  frac_part s = Some (f, r) ->
  head_ok not_digit t = true -> head_ok not_dot t = true ->
  frac_part (f +:+ t) = Some (f, t) /\
  head_ok (fun c => not_digit c && not_exp c) f = true.
Proof.
  destruct s as [|c s]; simpl.
  - intros [= <- <-] Hd Hdot. simpl. split; [|done].
    destruct t as [|c t]; simpl; [done|]. simpl in Hdot.
    unfold not_dot in Hdot. apply negb_true_iff in Hdot. by rewrite Hdot.
  - destruct (ch c ".") eqn:Hc.
    + destruct (some_digits s) as [[d r']|] eqn:E; [|done].
      intros [= <- <-] Hd Hdot. simpl. rewrite Hc.
      destruct (some_digits_relex _ _ _ _ E Hd) as (-> & _ & _).
      split; [done|]. apply Ascii.eqb_eq in Hc. by subst c.
    + intros [= <- <-] Hd Hdot. simpl. split; [|done].
      destruct t as [|c' t]; simpl; [done|]. simpl in Hdot.
      unfold not_dot in Hdot. apply negb_true_iff in Hdot. by rewrite Hdot.
Qed.

Lemma take_if_relex (test : ascii -> bool) s sg r t :
  take_if test s = (sg, r) ->
  head_ok (fun c => negb (test c)) t = true ->
  take_if test (sg +:+ t) = (sg, t).
Proof.
  destruct s as [|c s]; simpl.
  - intros [= <- <-] Ht. simpl. destruct t as [|c t]; simpl; [done|].
    simpl in Ht. apply negb_true_iff in Ht. by rewrite Ht.
  - destruct (test c) eqn:Hc.
    + intros [= <- <-] _. simpl. by rewrite Hc.
    + intros [= <- <-] Ht. simpl. destruct t as [|c' t]; simpl; [done|].
      simpl in Ht. apply negb_true_iff in Ht. by rewrite Ht.
Qed.

Lemma exp_part_relex s e r t :
  exp_part s = Some (e, r) ->
  head_ok not_digit t = true -> head_ok not_exp t = true ->
  exp_part (e +:+ t) = Some (e, t).
Proof.
  destruct s as [|c s]; simpl.
  - intros [= <- <-] Hd He. simpl.
    destruct t as [|c t]; simpl; [done|]. simpl in He.
    unfold not_exp in He. apply negb_true_iff in He. by rewrite He.
  - destruct (ch c "e" || ch c "E") eqn:Hc.
    + destruct (take_if _ s) as [sg r1] eqn:Es.
      destruct (some_digits r1) as [[d r2]|] eqn:E; [|done].
      intros [= <- <-] Hd He. simpl. rewrite Hc.
      destruct (some_digits_relex _ _ _ _ E Hd) as (Hsd & Hne & Had).
      rewrite StrFacts.append_assoc.
      erewrite take_if_relex; [|exact Es|].
      * by rewrite Hsd.
      * apply head_ok_app; [|done].
        apply all_digits_head; [|done].
        intros c0 Hc0. apply negb_true_iff.
        destruct c0 as [[] [] [] [] [] [] [] []]; done.
    + intros [= <- <-] Hd He. simpl.
      destruct t as [|c' t]; simpl; [done|]. simpl in He.
      unfold not_exp in He. apply negb_true_iff in He. by rewrite He.
Qed.

Lemma exp_part_head s e r :
  exp_part s = Some (e, r) ->
  head_ok (fun c => not_digit c && not_dot c) e = true.
Proof.
  destruct s as [|c s]; simpl.
  - by intros [= <- <-].
  - destruct (ch c "e" || ch c "E") eqn:Hc.
    + destruct (take_if _ s) as [sg r1].
      destruct (some_digits r1) as [[d r2]|]; [|done].
      intros [= <- <-]. simpl.
      apply orb_true_iff in Hc as [Hc|Hc]; apply Ascii.eqb_eq in Hc;
        by subst c.
    + by intros [= <- <-].
Qed.

Lemma stops_split t :
  stops t = true ->
  head_ok not_digit t = true /\ head_ok not_dot t = true
  /\ head_ok not_exp t = true.
Proof.
  destruct t as [|c t]; simpl; [done|].
  intros [[? ?]%andb_true_iff ?]%andb_true_iff. done.
Qed.

(** The text of a number that was read is read again as that number,
    whatever follows it, as long as that cannot extend it. *)
Lemma number_relex s literal r t :
  number s = Some (literal, r) -> stops t = true ->
  number (literal +:+ t) = Some (literal, t).
Proof.
  unfold number. intros H Ht.
  destruct (stops_split _ Ht) as (Hd & Hdot & He).
  destruct (take_if _ s) as [sign s1] eqn:Esign.
  destruct (int_part s1) as [[i s2]|] eqn:Ei; [|done].
  destruct (frac_part s2) as [[f s3]|] eqn:Ef; [|done].
  destruct (exp_part s3) as [[e s4]|] eqn:Ee; [|done].
  injection H as <- <-.
  pose proof (exp_part_head _ _ _ Ee) as Hehd.
  pose proof (exp_part_relex _ _ _ t Ee Hd He) as Hexp.
  assert (Het_d : head_ok not_digit (e +:+ t) = true).
  { apply head_ok_app; [|done].
    eapply head_ok_weaken; [|exact Hehd].
    by intros c [? ?]%andb_true_iff. }
  assert (Het_dot : head_ok not_dot (e +:+ t) = true).
  { apply head_ok_app; [|done].
    eapply head_ok_weaken; [|exact Hehd].
    by intros c [? ?]%andb_true_iff. }
  destruct (frac_part_relex _ _ _ (e +:+ t) Ef Het_d Het_dot)
    as (Hfrac & Hfhd).
  assert (Hft : head_ok not_digit (f +:+ e +:+ t) = true).
  { apply head_ok_app; [|done].
    eapply head_ok_weaken; [|exact Hfhd].
    by intros c [? ?]%andb_true_iff. }
  destruct (int_part_relex _ _ _ (f +:+ e +:+ t) Ei Hft)
    as (Hint & Hine & Hihd).
  rewrite !StrFacts.append_assoc.
  erewrite take_if_relex; [|exact Esign|].
  - by rewrite Hint, Hfrac, Hexp.
  - destruct i as [|c i]; [done|]. simpl in *.
    apply negb_true_iff.
    destruct c as [[] [] [] [] [] [] [] []]; done.
Qed.

Lemma number_head s literal r :
  number s = Some (literal, r) ->
  exists c rest, literal = String c rest /\
                 (is_digit c || ch c "-") = true.
Proof.
  unfold number.
  destruct (take_if _ s) as [sign s1] eqn:Esign.
  destruct (int_part s1) as [[i s2]|] eqn:Ei; [|done].
  destruct (frac_part s2) as [[f s3]|] eqn:Ef; [|done].
  destruct (exp_part s3) as [[e s4]|] eqn:Ee; [|done].
  intros [= <- <-].
  destruct (int_part_relex _ _ _ "" Ei eq_refl) as (_ & Hine & Hihd).
  destruct s as [|c s]; simpl in Esign.
  - injection Esign as <- <-. destruct i as [|c i]; [done|].
    simpl in *. exists c, (i +:+ f +:+ e). by rewrite Hihd.
  - destruct (ch c "-") eqn:Hc.
    + injection Esign as <- <-. simpl. eexists _, _. split; [done|].
      by rewrite Hc, orb_true_r.
    + injection Esign as <- <-. destruct i as [|c' i]; [done|].
      simpl in *. exists c', (i +:+ f +:+ e). by rewrite Hihd.
Qed.

(** *** Values *)

Lemma value_ind2 (P : value -> Prop) :
  P Null -> (forall b, P (Bool b)) -> (forall l, P (Num l)) ->
  (forall s, P (Str s)) ->
  (forall items, Forall P items -> P (Arr items)) ->
  (forall members, Forall (fun m => P m.2) members -> P (Obj members)) ->
  forall v, P v.
Proof.
  intros HN HB HNum HS HA HO.
  exact (fix IH (v : value) : P v :=
           match v with
           | Null => HN
           | Bool b => HB b
           | Num l => HNum l
           | Str s => HS s
           | Arr items =>
               HA items
                 ((fix go (l : list value) : Forall P l :=
                     match l with
                     | [] => List.Forall_nil P
                     | x :: r => List.Forall_cons P x r (IH x) (go r)
                     end) items)
           | Obj members =>
               HO members
                 ((fix go (l : list (string * value))
                     : Forall (fun m => P m.2) l :=
                     match l with
                     | [] => List.Forall_nil _
                     | m :: r =>
                         List.Forall_cons (fun m => P m.2) m r (IH m.2) (go r)
                     end) members)
           end).
Qed.

Lemma wf_Arr items : wf (Arr items) <-> Forall wf items.
Proof.
  simpl. induction items as [|x r IH].
  - split; [constructor|done].
  - rewrite Forall_cons. by rewrite IH.
Qed.

Lemma wf_Obj members :
  wf (Obj members) <->
  NoDup (map fst members) /\ Forall (fun m => wf m.2) members.
Proof.
  simpl. apply and_iff_compat_l.
  induction members as [|[k x] r IH].
  - split; [constructor|done].
  - rewrite Forall_cons. by rewrite IH.
Qed.

Lemma size_Arr items : size (Arr items) = S (sizes items).
Proof.
  simpl. induction items as [|x r IH]; simpl in *; [done|]. congruence.
Qed.

Lemma size_Obj members : size (Obj members) = S (msizes members).
Proof.
  simpl. induction members as [|[k x] r IH]; simpl in *; [done|]. congruence.
Qed.

Lemma size_pos v : 1 <= size v.
Proof. destruct v; simpl; lia. Qed.

Lemma print_Arr ind x r :
  print ind (Arr (x :: r)) =
  "[" +:+ nl +:+ (ind +:+ "  ") +:+ print (ind +:+ "  ") x
  +:+ more_items (ind +:+ "  ") r +:+ nl +:+ ind +:+ "]".
Proof. reflexivity. Qed.

Lemma print_Obj ind k x r :
  print ind (Obj ((k, x) :: r)) =
  "{" +:+ nl +:+ (ind +:+ "  ") +:+ quote k +:+ ": "
  +:+ print (ind +:+ "  ") x
  +:+ more_members (ind +:+ "  ") r +:+ nl +:+ ind +:+ "}".
Proof. reflexivity. Qed.

Lemma more_items_cons ind y l :
  more_items ind (y :: l) =
  "," +:+ nl +:+ ind +:+ print ind y +:+ more_items ind l.
Proof. reflexivity. Qed.

Lemma more_members_cons ind k y l :
  more_members ind ((k, y) :: l) =
  "," +:+ nl +:+ ind +:+ quote k +:+ ": " +:+ print ind y
  +:+ more_members ind l.
Proof. reflexivity. Qed.

Lemma number_start c :
  (is_digit c || ch c "-") = true ->
  is_ws c = false /\ ch c "{" = false /\ ch c "[" = false /\
  ch c dquote = false /\ ch c "t" = false /\ ch c "f" = false /\
  ch c "n" = false /\ ch c "]" = false /\ ch c "}" = false.
Proof. destruct c as [[] [] [] [] [] [] [] []]; done. Qed.

(** A printed value starts with a character that is neither white space
    nor a closing bracket. *)
Lemma print_head ind v :
  wf v ->
  exists c r, print ind v = String c r /\ is_ws c = false /\
              ch c "]" = false /\ ch c "}" = false.
Proof.
  destruct v as [|[]|literal|s|[|x items]|[|[k x] members]]; intros Hwf;
    try (eexists _, _; split; [reflexivity|done]).
  simpl in Hwf. destruct (number_head _ _ _ Hwf) as (c & r & -> & Hc).
  exists c, r. split; [done|].
  destruct (number_start c Hc) as (? & _ & _ & _ & _ & _ & _ & ? & ?). done.
Qed.

Lemma parse_value_S fuel s :
  parse_value (S fuel) s =
  match skip_ws s with
  | EmptyString => None
  | String c r =>
      if ch c "{" then
        match closes "}" r with
        | Some r' => Some (Obj [], r')
        | None => parse_members (parse_value fuel) fuel [] r
        end
      else if ch c "[" then
        match closes "]" r with
        | Some r' => Some (Arr [], r')
        | None => parse_elements (parse_value fuel) fuel [] r
        end
      else if ch c dquote then
        match string_lit r with
        | Some (x, r') => Some (Str x, r')
        | None => None
        end
      else if ch c "t" then keyword "true" (Bool true) (String c r)
      else if ch c "f" then keyword "false" (Bool false) (String c r)
      else if ch c "n" then keyword "null" Null (String c r)
      else
        match number (String c r) with
        | Some (literal, r') => Some (Num literal, r')
        | None => None
        end
  end.
Proof. reflexivity. Qed.

Lemma set_member_new k v ms :
  k ∉ map fst ms -> set_member k v ms = ms ++ [(k, v)].
Proof.
  induction ms as [|[k' v'] ms IH]; simpl; [done|].
  intros [Hne Hin]%not_elem_of_cons. rewrite decide_False by done.
  by rewrite IH.
Qed.

Lemma stops_nl t : stops (nl +:+ t) = true.
Proof. done. Qed.

Lemma stops_comma t : stops ("," +:+ t) = true.
Proof. done. Qed.

Section loops.
Variable pv : string -> option (value * string).
Variables ind ind0 : string.
Hypothesis ind_ws : all_ws ind = true.
Hypothesis ind0_ws : all_ws ind0 = true.

(** What the induction gives for each element: [pv] reads its text. *)
Definition reads (y : value) : Prop :=
  forall w rest, all_ws w = true -> stops rest = true ->
    pv (w +:+ print ind y +:+ rest) = Some (y, rest).

Lemma parse_elements_print l : forall x acc fuel rest,
  Forall reads (x :: l) -> length l < fuel ->
  parse_elements pv fuel acc
    (nl +:+ ind +:+ print ind x +:+ more_items ind l +:+ nl +:+ ind0
     +:+ "]" +:+ rest)
  = Some (Arr (rev acc ++ x :: l), rest).
Proof using ind_ws ind0_ws.
  induction l as [|y l IH]; intros x acc [|fuel] rest Hr Hf; simpl in Hf;
    try lia.
  - apply Forall_cons in Hr as [Hx _].
    cbn [parse_elements more_items].
    rewrite <- (StrFacts.append_assoc nl ind).
    rewrite Hx; [|by apply all_ws_app|apply stops_nl].
    change ("" +:+ nl +:+ ind0 +:+ "]" +:+ rest)
      with (nl +:+ ind0 +:+ "]" +:+ rest).
    rewrite <- (StrFacts.append_assoc nl ind0).
    rewrite skip_ws_app by by apply all_ws_app.
    simpl. done.
  - apply Forall_cons in Hr as [Hx Hr].
    cbn [parse_elements]. rewrite more_items_cons.
    rewrite <- (StrFacts.append_assoc nl ind (print ind x +:+ _)).
    rewrite Hx; [|by apply all_ws_app|].
    2:{ rewrite !StrFacts.append_assoc. apply stops_comma. }
    rewrite !StrFacts.append_assoc. simpl.
    etrans; [apply (IH y (x :: acc) fuel rest); [done|lia]|].
    simpl. by rewrite <- app_assoc.
Qed.

Lemma member_key_print k t :
  member_key (nl +:+ ind +:+ quote k +:+ ": " +:+ t) = Some (k, " " +:+ t).
Proof using ind_ws.
  unfold member_key.
  rewrite <- (StrFacts.append_assoc nl ind).
  rewrite skip_ws_app by by apply all_ws_app.
  unfold quote. simpl. rewrite StrFacts.append_assoc. simpl.
  by rewrite string_lit_quote.
Qed.

Lemma parse_members_print l : forall k x acc fuel rest,
  Forall (fun m => reads m.2) ((k, x) :: l) ->
  NoDup (map fst (acc ++ (k, x) :: l)) ->
  length l < fuel ->
  parse_members pv fuel acc
    (nl +:+ ind +:+ quote k +:+ ": " +:+ print ind x
     +:+ more_members ind l +:+ nl +:+ ind0 +:+ "}" +:+ rest)
  = Some (Obj (acc ++ (k, x) :: l), rest).
Proof using ind_ws ind0_ws.
  induction l as [|[k' y] l IH]; intros k x acc [|fuel] rest Hr Hnd Hf;
    simpl in Hf; try lia.
  - apply Forall_cons in Hr as [Hx _]. simpl in Hx.
    cbn [parse_members more_members]. rewrite member_key_print.
    rewrite Hx; [|done|apply stops_nl].
    change ("" +:+ nl +:+ ind0 +:+ "}" +:+ rest)
      with (nl +:+ ind0 +:+ "}" +:+ rest).
    rewrite <- (StrFacts.append_assoc nl ind0).
    rewrite skip_ws_app by by apply all_ws_app.
    simpl. rewrite set_member_new; [done|].
    rewrite map_app in Hnd. apply NoDup_app in Hnd as (_ & Hnd & _).
    intros Hin. apply (Hnd k Hin). simpl. left.
  - apply Forall_cons in Hr as [Hx Hr]. simpl in Hx.
    cbn [parse_members]. rewrite more_members_cons, member_key_print.
    rewrite Hx; [|done|].
    2:{ rewrite !StrFacts.append_assoc. apply stops_comma. }
    rewrite !StrFacts.append_assoc. simpl.
    assert (Hk : k ∉ map fst acc).
    { rewrite map_app in Hnd. apply NoDup_app in Hnd as (_ & Hnd & _).
      intros Hin. apply (Hnd k Hin). simpl. left. }
    rewrite set_member_new by done.
    etrans; [apply (IH k' y (acc ++ [(k, x)]) fuel rest); [done| |lia]|].
    + by rewrite <- app_assoc.
    + by rewrite <- app_assoc.
Qed.

End loops.

Lemma sizes_length l : length l <= sizes l.
Proof.
  induction l as [|x l IH]; simpl; [lia|]. pose proof (size_pos x). lia.
Qed.

Lemma msizes_length l : length l <= msizes l.
Proof.
  induction l as [|[k x] l IH]; simpl; [lia|]. pose proof (size_pos x). lia.
Qed.

Lemma sizes_elem x l : x ∈ l -> size x <= sizes l.
Proof.
  induction 1 as [x l|x y l _ IH]; simpl; lia.
Qed.

Lemma msizes_elem m l : m ∈ l -> size m.2 <= msizes l.
Proof.
  induction 1 as [x l|x y l _ IH]; simpl; lia.
Qed.

Lemma closes_print c ind v t :
  wf v -> (c = "]"%char \/ c = "}"%char) -> all_ws ind = true ->
  closes c (nl +:+ ind +:+ print ind v +:+ t) = None.
Proof.
  intros Hwf Hc Hind. unfold closes.
  rewrite <- (StrFacts.append_assoc nl ind).
  rewrite skip_ws_app by by apply all_ws_app.
  destruct (print_head ind v Hwf) as (c0 & r & -> & Hws & H1 & H2).
  cbn [String.append skip_ws]. rewrite Hws.
  destruct Hc as [-> | ->].
  - by rewrite H1.
  - by rewrite H2.
Qed.

(** The first step of the parser on a printed array or object. *)
Lemma parse_value_Arr fuel w ind x items rest :
  all_ws w = true -> all_ws ind = true -> wf x ->
  parse_value (S fuel) (w +:+ print ind (Arr (x :: items)) +:+ rest) =
  parse_elements (parse_value fuel) fuel []
    (nl +:+ (ind +:+ "  ") +:+ print (ind +:+ "  ") x
     +:+ more_items (ind +:+ "  ") items +:+ nl +:+ ind +:+ "]" +:+ rest).
Proof.
  intros Hw Hind Hx.
  rewrite parse_value_S, skip_ws_app, print_Arr by done.
  set (ind' := ind +:+ "  ").
  assert (Hind' : all_ws ind' = true) by by apply all_ws_app.
  rewrite !StrFacts.append_assoc, StrFacts.append_cons, StrFacts.append_nil_l.
  rewrite skip_ws_head by done.
  change (ch "[" "{") with false. change (ch "[" "[") with true.
  cbv iota. by rewrite closes_print by auto.
Qed.

Lemma parse_value_Obj fuel w ind k x members rest :
  all_ws w = true -> all_ws ind = true ->
  parse_value (S fuel) (w +:+ print ind (Obj ((k, x) :: members)) +:+ rest) =
  parse_members (parse_value fuel) fuel []
    (nl +:+ (ind +:+ "  ") +:+ quote k +:+ ": " +:+ print (ind +:+ "  ") x
     +:+ more_members (ind +:+ "  ") members +:+ nl +:+ ind +:+ "}"
     +:+ rest).
Proof.
  intros Hw Hind.
  rewrite parse_value_S, skip_ws_app, print_Obj by done.
  set (ind' := ind +:+ "  ").
  assert (Hind' : all_ws ind' = true) by by apply all_ws_app.
  rewrite !StrFacts.append_assoc, StrFacts.append_cons, StrFacts.append_nil_l.
  rewrite skip_ws_head by done.
  change (ch "{" "{") with true. cbv iota.
  assert (Hcl : forall t, closes "}" (nl +:+ ind' +:+ quote k +:+ t) = None).
  { intros t. unfold closes. rewrite <- (StrFacts.append_assoc nl).
    rewrite skip_ws_app; [done|]. by apply all_ws_app. }
  by rewrite Hcl.
Qed.

(** Reading back what [print] wrote. *)
Lemma parse_print v : forall fuel ind w rest,
  wf v -> size v <= fuel -> all_ws ind = true -> all_ws w = true ->
  stops rest = true ->
  parse_value fuel (w +:+ print ind v +:+ rest) = Some (v, rest).
Proof.
  induction v as [|b|literal|s|items IH|members IH] using value_ind2;
    intros [|fuel] ind w rest Hwf Hfuel Hind Hw Hrest;
    try (pose proof (size_pos Null); simpl in Hfuel; lia).
  - by rewrite parse_value_S, skip_ws_app by done.
  - rewrite parse_value_S, skip_ws_app by done. by destruct b.
  - rewrite parse_value_S, skip_ws_app by done.
    simpl in Hwf. destruct (number_head _ _ _ Hwf) as (c & r & Heq & Hc).
    destruct (number_start c Hc) as (Hws & H1 & H2 & H3 & H4 & H5 & H6 & _).
    cbn [print]. rewrite Heq, StrFacts.append_cons, skip_ws_head by done.
    rewrite H1, H2, H3, H4, H5, H6.
    rewrite <- StrFacts.append_cons, <- Heq.
    by rewrite (number_relex _ _ _ _ Hwf Hrest).
  - rewrite parse_value_S, skip_ws_app by done.
    cbn [print]. unfold quote.
    rewrite StrFacts.append_cons, StrFacts.append_assoc,
      StrFacts.append_cons, StrFacts.append_nil_l.
    rewrite skip_ws_head by done.
    change (ch dquote "{") with false. change (ch dquote "[") with false.
    change (ch dquote dquote) with true. cbv iota.
    by rewrite string_lit_quote.
  - destruct items as [|x items].
    { by rewrite parse_value_S, skip_ws_app by done. }
    apply wf_Arr in Hwf. rewrite size_Arr in Hfuel.
    rewrite parse_value_Arr; [|done|done|by apply Forall_cons in Hwf as [? ?]].
    apply (parse_elements_print (parse_value fuel) (ind +:+ "  ") ind
             (all_ws_app ind "  " Hind eq_refl) Hind items x [] fuel rest).
    + apply Forall_forall. intros y Hy w' rest' Hw' Hrest'.
      rewrite Forall_forall in IH. apply IH; try done.
      * rewrite Forall_forall in Hwf. by apply Hwf.
      * pose proof (sizes_elem _ _ Hy). lia.
      * by apply all_ws_app.
    + pose proof (sizes_length (x :: items)). simpl in *. lia.
  - destruct members as [|[k x] members].
    { by rewrite parse_value_S, skip_ws_app by done. }
    apply wf_Obj in Hwf as [Hnd Hwf]. rewrite size_Obj in Hfuel.
    rewrite parse_value_Obj by done.
    apply (parse_members_print (parse_value fuel) (ind +:+ "  ") ind
             (all_ws_app ind "  " Hind eq_refl) Hind members k x [] fuel rest).
    + apply Forall_forall. intros m Hm w' rest' Hw' Hrest'.
      rewrite Forall_forall in IH. apply IH; try done.
      * rewrite Forall_forall in Hwf. by apply Hwf.
      * pose proof (msizes_elem _ _ Hm). lia.
      * by apply all_ws_app.
    + done.
    + pose proof (msizes_length ((k, x) :: members)). simpl in *. lia.
Qed.

Lemma size_le_length v : forall ind, size v <= S (String.length (print ind v)).
Proof.
  induction v as [|b|literal|s|items IH|members IH] using value_ind2;
    intros ind; try (simpl; lia).
  - destruct items as [|x items]; [simpl; lia|].
    rewrite size_Arr, print_Arr. set (ind' := ind +:+ "  ").
    apply Forall_cons in IH as [Hx IH]. specialize (Hx ind').
    assert (sizes items <= String.length (more_items ind' items)).
    { clear Hx. induction items as [|y items IHi]; [simpl; lia|].
      apply Forall_cons in IH as [Hy IH]. specialize (Hy ind').
      rewrite more_items_cons. rewrite !StrFacts.length_append. simpl.
      specialize (IHi IH). lia. }
    rewrite !StrFacts.length_append. simpl. lia.
  - destruct members as [|[k x] members]; [simpl; lia|].
    rewrite size_Obj, print_Obj. set (ind' := ind +:+ "  ").
    apply Forall_cons in IH as [Hx IH]. specialize (Hx ind'). simpl in Hx.
    assert (msizes members <= String.length (more_members ind' members)).
    { clear Hx. induction members as [|[k' y] members IHi]; [simpl; lia|].
      apply Forall_cons in IH as [Hy IH]. specialize (Hy ind').
      rewrite more_members_cons. rewrite !StrFacts.length_append. simpl.
      simpl in Hy. specialize (IHi IH). lia. }
    rewrite !StrFacts.length_append. simpl. lia.
Qed.

(** [JSON.parse(JSON.stringify(v, null, 2))] is [v]. *)
Theorem parse_stringify v : wf v -> parse (stringify v) = Some v.
Proof.
  intros Hwf. unfold parse, stringify.
  pose proof (parse_print v (S (String.length (print "" v))) "" "" ""
                Hwf (size_le_length v "") eq_refl eq_refl eq_refl) as H.
  rewrite StrFacts.append_nil_l, StrFacts.append_nil_r in H. by rewrite H.
Qed.

(** *** What the parser produces *)

Lemma map_fst_set_member k v ms :
  k ∈ map fst ms -> map fst (set_member k v ms) = map fst ms.
Proof.
  induction ms as [|[k' v'] ms IH]; simpl; [by intros ?%elem_of_nil|].
  case_decide as Hk; [by subst|].
  intros [?|Hin]%elem_of_cons; [done|]. simpl. by rewrite IH.
Qed.

Lemma set_member_wf k v ms :
  wf v -> wf (Obj ms) -> wf (Obj (set_member k v ms)).
Proof.
  rewrite !wf_Obj. intros Hv [Hnd Hall].
  destruct (decide (k ∈ map fst ms)) as [Hin|Hnin].
  - rewrite map_fst_set_member by done. split; [done|].
    clear Hnd Hin. induction ms as [|[k' v'] ms IH]; simpl.
    + by constructor.
    + apply Forall_cons in Hall as [? ?].
      case_decide; constructor; auto.
  - rewrite set_member_new by done. split.
    + rewrite map_app. simpl. apply NoDup_app. split; [done|].
      split; [|apply NoDup_singleton].
      intros x Hx ->%list_elem_of_singleton. done.
    + apply Forall_app. split; [done|]. by constructor.
Qed.

Lemma parse_elements_wf pv :
  (forall s v r, pv s = Some (v, r) -> wf v) ->
  forall fuel acc s v r,
    Forall wf acc -> parse_elements pv fuel acc s = Some (v, r) -> wf v.
Proof.
  intros Hpv. induction fuel as [|fuel IH]; intros acc s v r Hacc; [done|].
  simpl. destruct (pv s) as [[x r1]|] eqn:Ex; [|done].
  destruct (skip_ws r1) as [|c r2]; [done|].
  assert (Hx : Forall wf (x :: acc)) by (constructor; eauto).
  destruct (ch c ","); [by apply IH|].
  destruct (ch c "]"); [|done]. intros [= <- <-].
  apply wf_Arr. apply Forall_cons in Hx as [? ?].
  apply Forall_app. split; [by apply Forall_rev|by constructor].
Qed.

Lemma parse_members_wf pv :
  (forall s v r, pv s = Some (v, r) -> wf v) ->
  forall fuel acc s v r,
    wf (Obj acc) -> parse_members pv fuel acc s = Some (v, r) -> wf v.
Proof.
  intros Hpv. induction fuel as [|fuel IH]; intros acc s v r Hacc; [done|].
  simpl. destruct (member_key s) as [[k r1]|]; [|done].
  destruct (pv r1) as [[x r2]|] eqn:Ex; [|done].
  destruct (skip_ws r2) as [|c r3]; [done|].
  assert (Hx : wf (Obj (set_member k x acc))).
  { apply set_member_wf; eauto. }
  destruct (ch c ","); [by apply IH|].
  destruct (ch c "}"); [|done]. by intros [= <- <-].
Qed.

Lemma keyword_wf w v0 s v r : wf v0 -> keyword w v0 s = Some (v, r) -> wf v.
Proof.
  unfold keyword. destruct (strip_prefix w s); [|done]. by intros ? [= <- <-].
Qed.

Lemma parse_value_wf fuel : forall s v r,
  parse_value fuel s = Some (v, r) -> wf v.
Proof.
  induction fuel as [|fuel IH]; intros s v r; [done|].
  rewrite parse_value_S. destruct (skip_ws s) as [|c t]; [done|].
  destruct (ch c "{").
  { destruct (closes "}" t).
    - intros [= <- <-]. apply wf_Obj. split; constructor.
    - apply parse_members_wf; [done|]. apply wf_Obj. split; constructor. }
  destruct (ch c "[").
  { destruct (closes "]" t).
    - by intros [= <- <-].
    - apply parse_elements_wf; [done|constructor]. }
  destruct (ch c dquote).
  { destruct (string_lit t) as [[x r']|]; [|done]. by intros [= <- <-]. }
  destruct (ch c "t"); [by apply keyword_wf|].
  destruct (ch c "f"); [by apply keyword_wf|].
  destruct (ch c "n"); [by apply keyword_wf|].
  destruct (number (String c t)) as [[literal r']|] eqn:E; [|done].
  intros [= <- <-]. simpl.
  pose proof (number_relex _ _ _ "" E eq_refl) as H.
  by rewrite StrFacts.append_nil_r in H.
Qed.

(** Whatever [JSON.parse] returns can be written and read back. *)
Theorem parse_wf text v : parse text = Some v -> wf v.
Proof.
  unfold parse.
  destruct (parse_value _ text) as [[v' r]|] eqn:E; [|done].
  destruct (skip_ws r); [|done]. intros [= <-].
  by eapply parse_value_wf.
Qed.

Theorem parse_reparse text v :
  parse text = Some v -> parse (stringify v) = Some v.
Proof. intros H. apply parse_stringify. by eapply parse_wf. Qed.

End JsonFacts.

(** ** The store *)

Module StoreFacts.

Import Fs FsFacts Store.

Lemma tree_text_Dir dir items :
  tree_text dir (Dir items) = dir +:+ nl +:+ tree_items dir items.
Proof. reflexivity. Qed.

Lemma tree_text_File dir d : tree_text dir (File d) = dir +:+ nl +:+ "".
Proof. reflexivity. Qed.

Lemma set_entry_nonempty x c es : set_entry x c es ≠ [].
Proof. destruct es as [|[y k] es]; simpl; [done|]. by case_decide. Qed.

(** Replacing an entry by one that prints the same leaves the listing of
    the directory as it was. *)
Lemma tree_items_set dir x c c' es :
  find_entry x es = Some c ->
  is_dirb c' = is_dirb c ->
  (forall d, tree_text d c' = tree_text d c) ->
  tree_items dir (set_entry x c' es) = tree_items dir es.
Proof.
  intros Hf Hd Ht. induction es as [|[y k] es IH]; [done|].
  simpl in Hf |- *. case_decide as Hxy.
  - subst y. injection Hf as ->. simpl. by rewrite Hd, Ht.
  - simpl. rewrite IH by done.
    destruct es as [|e es]; [done|].
    pose proof (set_entry_nonempty x c' (e :: es)).
    by destruct (set_entry x c' (e :: es)).
Qed.

(** The tree text does not depend on what the files hold. *)
Lemma tree_text_update p g : forall n dir,
  tree_text dir (update p g n) = tree_text dir n.
Proof.
  induction p as [|x p IH]; intros [o|es] dir; simpl; try done.
  destruct (find_entry x es) as [c|] eqn:E; [|done].
  rewrite !tree_text_Dir. f_equal. f_equal.
  apply tree_items_set with (c := c); auto using is_dirb_update.
Qed.

Lemma update_ext p g h n :
  (forall o, g o = h o) -> update p g n = update p h n.
Proof.
  intros Hgh. revert n. induction p as [|x p IH]; intros [o|es]; simpl;
    try done.
  - by rewrite Hgh.
  - destruct (find_entry x es); [|done]. by rewrite IH.
Qed.

Lemma strip_refl p : strip p p = Some [].
Proof. induction p; simpl; [done|]. by rewrite decide_True. Qed.

Lemma strip_nil q p : strip q p = Some [] -> q = p.
Proof.
  revert p. induction q as [|x q IH]; intros [|y p]; simpl; try done.
  case_decide; [|done]. subst. intros H. by rewrite (IH _ H).
Qed.

Lemma walk_update_same p g n o :
  walk p n = inr (File o) -> walk p (update p g n) = inr (File (g o)).
Proof. intros H. by rewrite walk_update, H, strip_refl. Qed.

Lemma walk_update_other p q g n o :
  p ≠ q -> walk q n = inr (File o) -> walk q (update p g n) = inr (File o).
Proof.
  intros Hpq H. rewrite walk_update, H. cbn [on_inr].
  destruct (strip q p) as [[|x r]|] eqn:E; try done.
  apply strip_nil in E. congruence.
Qed.

Lemma getAllFiles_Dir dir files :
  getAllFiles dir (Dir files) = files_items dir files.
Proof. reflexivity. Qed.

(** Every file below a directory is among the paths [getAllFiles]
    returns, under the name the joins along the way give it. *)
Lemma getAllFiles_complete p : forall dir n data,
  p ≠ [] -> walk p n = inr (File data) ->
  foldl Path.join dir p ∈ getAllFiles dir n.
Proof.
  induction p as [|x q IH]; intros dir n data Hp Hw; [done|].
  destruct n as [o|es]; [done|]. simpl in Hw.
  rewrite getAllFiles_Dir. cbn [foldl].
  induction es as [|[y k] es IHes]; [done|]. simpl in Hw.
  cbn [files_items]. apply elem_of_app.
  case_decide as Hxy.
  - subst y. left. destruct q as [|z q].
    + simpl in Hw. injection Hw as ->. simpl. apply list_elem_of_singleton.
      done.
    + destruct k as [o|es']; [done|]. cbn [is_dirb].
      by apply (IH _ _ data).
  - right. by apply IHes.
Qed.

Lemma walk_app p q n :
  walk (p ++ q) n =
  match walk p n with
  | inr m => walk q m
  | inl e => inl e
  end.
Proof.
  revert n. induction p as [|x p IH]; intros n; simpl; [done|].
  destruct n as [|es]; [done|]. by destruct (find_entry x es).
Qed.

Section with_process.

Context {process : Process}.

Lemma with_disk_id s : with_disk s (disk s) = s.
Proof. by destruct s. Qed.

Lemma with_disk_twice s d d' : with_disk (with_disk s d) d' = with_disk s d'.
Proof. done. Qed.

Lemma generateDirectoryTree_run s :
  generateDirectoryTree MEMORY_DIR s =
  (match tree_at (disk s) with
   | inr tree => Ok tree
   | inl e => Throw (FileOperationError "generate directory tree" MEMORY_DIR
                       (Fs.message e "scandir" MEMORY_DIR))
   end, s).
Proof.
  unfold generateDirectoryTree, try_catch, tree_at, readdirSync, mbind,
    M_bind, bind, mret, M_ret, ret. fold Mp.
  by destruct (readdir Mp (disk s)).
Qed.

Lemma updateDirectoryFile_state s :
  (updateDirectoryFile s).2 = with_disk s (resync (disk s)).
Proof.
  unfold updateDirectoryFile, try_catch, mbind, M_bind, bind.
  rewrite generateDirectoryTree_run. unfold resync, writeFileSync, lift_disk.
  fold DFp. destruct (tree_at (disk s)) as [e|tree]; simpl.
  - by rewrite with_disk_id.
  - destruct (open_write false DFp tree (disk s)); simpl; [|done].
    by rewrite with_disk_id.
Qed.

Lemma updateDirectoryFile_ok s :
  is_ok (updateDirectoryFile s).1 = resync_ok (disk s).
Proof.
  unfold updateDirectoryFile, try_catch, mbind, M_bind, bind.
  rewrite generateDirectoryTree_run. unfold resync_ok, writeFileSync, lift_disk.
  fold DFp. destruct (tree_at (disk s)) as [e|tree]; simpl; [done|].
  by destruct (open_write false DFp tree (disk s)).
Qed.

Lemma update_File r g o : exists o', update r g (File o) = File o'.
Proof. destruct r; simpl; eauto. Qed.

Lemma update_Dir r g es :
  exists es', update r g (Dir es) = Dir es' /\
              forall dir, tree_text dir (Dir es') = tree_text dir (Dir es).
Proof.
  pose proof (tree_text_update r g (Dir es)) as Ht.
  pose proof (is_dirb_update r g (Dir es)) as Hd.
  destruct (update r g (Dir es)) as [|es']; [done|]. eauto.
Qed.

Lemma tree_at_update p g d : tree_at (update p g d) = tree_at d.
Proof.
  unfold tree_at, readdir. rewrite walk_update.
  destruct (walk (segs Mp) d) as [e|[o|es]]; cbn [on_inr]; [done| |].
  - destruct (strip (segs Mp) p) as [r|]; [|done].
    by destruct (update_File r g o) as [o' ->].
  - destruct (strip (segs Mp) p) as [r|]; [|done].
    destruct (update_Dir r g es) as (es' & -> & Ht). cbn [on_inr].
    by rewrite Ht.
Qed.

Lemma open_write_update f q data p g d :
  p ≠ segs q ->
  open_write f q data (update p g d) =
  on_inr (update p g) (open_write f q data d).
Proof.
  intros Hp. unfold open_write. destruct (dir_only q).
  - rewrite walk_update.
    destruct (walk (segs q) d) as [e|[o|es]]; cbn [on_inr]; [done| |].
    + destruct (strip (segs q) p) as [r|]; [|done].
      by destruct (update_File r g o) as [o' ->].
    + destruct (strip (segs q) p) as [r|]; [|done].
      by destruct (update_Dir r g es) as (es' & -> & _).
  - by apply store_update_comm.
Qed.

(** The resync commutes with a change of any other file's data. *)
Lemma resync_update_other p g d :
  p ≠ segs DFp -> resync (update p g d) = update p g (resync d).
Proof.
  intros Hp. unfold resync. rewrite tree_at_update.
  destruct (tree_at d) as [e|tree]; [done|].
  rewrite open_write_update by done.
  by destruct (open_write false DFp tree d).
Qed.

Lemma resync_ok_update_other p g d :
  p ≠ segs DFp -> resync_ok (update p g d) = resync_ok d.
Proof.
  intros Hp. unfold resync_ok. rewrite tree_at_update.
  destruct (tree_at d) as [e|tree]; [done|].
  rewrite open_write_update by done.
  by destruct (open_write false DFp tree d).
Qed.

(** On a disk where the manifest is a file, the resync rewrites that
    file's data and changes nothing else. *)
Lemma resync_at_file d o :
  walk (segs DFp) d = inr (File o) ->
  resync d =
  match tree_at d with
  | inr tree =>
      if dir_only DFp then d else update (segs DFp) (fun _ => tree) d
  | inl _ => d
  end.
Proof.
  intros Hf. unfold resync. destruct (tree_at d) as [e|tree]; [done|].
  unfold open_write. rewrite Hf. destruct (dir_only DFp); [done|].
  by rewrite (store_file _ _ _ _ _ Hf).
Qed.

Lemma resync_ok_at_file d o :
  walk (segs DFp) d = inr (File o) ->
  resync_ok d =
  match tree_at d with
  | inr tree => negb (dir_only DFp)
  | inl _ => false
  end.
Proof.
  intros Hf. unfold resync_ok. destruct (tree_at d) as [e|tree]; [done|].
  unfold open_write. rewrite Hf. destruct (dir_only DFp); [done|].
  by rewrite (store_file _ _ _ _ _ Hf).
Qed.

(** A change of the manifest's own data is overwritten by the resync, when
    the resync writes at all. *)
Lemma resync_update_same g d o :
  walk (segs DFp) d = inr (File o) ->
  resync (update (segs DFp) g d) =
  match tree_at d with
  | inr tree =>
      if dir_only DFp then update (segs DFp) g d
      else update (segs DFp) (fun _ => tree) d
  | inl _ => update (segs DFp) g d
  end.
Proof.
  intros Hf.
  rewrite (resync_at_file _ (g o)) by by apply walk_update_same.
  rewrite tree_at_update. destruct (tree_at d) as [e|tree]; [done|].
  destruct (dir_only DFp); [done|]. by rewrite update_update_same.
Qed.

Lemma resync_keeps_file p d o :
  p ≠ segs DFp -> walk p d = inr (File o) -> walk p (resync d) = inr (File o).
Proof.
  intros Hp Hf. unfold resync. destruct (tree_at d) as [e|tree]; [done|].
  unfold open_write. destruct (dir_only DFp).
  - by destruct (walk (segs DFp) d) as [|[|]].
  - destruct (store false (segs DFp) tree d) as [e|d'] eqn:E; [done|].
    by eapply walk_store_other.
Qed.

(** After a resync that wrote the manifest, the manifest is a file. *)
Lemma resync_makes_file d :
  resync_ok d = true -> exists o, walk (segs DFp) (resync d) = inr (File o).
Proof.
  unfold resync_ok, resync. destruct (tree_at d) as [e|tree]; [done|].
  unfold open_write. destruct (dir_only DFp).
  { by destruct (walk (segs DFp) d) as [|[|]]. }
  destruct (store false (segs DFp) tree d) as [e|d'] eqn:E; [done|].
  intros _. rewrite (walk_store_same _ _ _ _ _ E). eauto.
Qed.

Lemma resync_not_ok d : resync_ok d = false -> resync d = d.
Proof.
  unfold resync_ok, resync. destruct (tree_at d) as [e|tree]; [done|].
  by destruct (open_write false DFp tree d).
Qed.

(** From the second resync on, nothing changes any more. *)
Lemma resync_stable d : resync (resync (resync d)) = resync (resync d).
Proof.
  destruct (resync_ok d) eqn:Hok.
  2:{ by rewrite !(resync_not_ok d Hok). }
  destruct (resync_makes_file d Hok) as [o Hf].
  set (r1 := resync d) in *.
  rewrite (resync_at_file r1 o Hf).
  destruct (tree_at r1) as [e|tree] eqn:Ht.
  { by rewrite (resync_at_file r1 o Hf), Ht. }
  destruct (dir_only DFp) eqn:Hd.
  { by rewrite (resync_at_file r1 o Hf), Ht, Hd. }
  by rewrite (resync_update_same _ r1 o Hf), Ht, Hd.
Qed.

(** *** Running the operations *)

Lemma mutate_run operation path (m : M unit) (r : node -> errno + node)
    (msg : errno -> string) s :
  (forall s, m s = match r (disk s) with
                   | inr d => (Ok tt, with_disk s d)
                   | inl e => (Throw (msg e), s)
                   end) ->
  let op := try_catch operation path (m ;; updateDirectoryFile) in
  (op s).2 = with_disk s (then_sync (r (disk s)) (disk s)) /\
  is_ok (op s).1 = then_sync_ok (r (disk s)).
Proof.
  intros Hm. cbn zeta. unfold try_catch, mbind, M_bind, bind. rewrite Hm.
  destruct (r (disk s)) as [e|d1]; cbn [then_sync then_sync_ok].
  - by rewrite with_disk_id.
  - pose proof (updateDirectoryFile_state (with_disk s d1)) as H1.
    pose proof (updateDirectoryFile_ok (with_disk s d1)) as H2.
    destruct (updateDirectoryFile (with_disk s d1)) as [[[]|e] s'];
      simpl in *; by subst.
Qed.

Lemma lift_disk_run sc path (r : errno + node) s :
  lift_disk sc path r s =
  match r with
  | inr d => (Ok tt, with_disk s d)
  | inl e => (Throw (Fs.message e sc path), s)
  end.
Proof. by destruct r. Qed.

Lemma RAW_createFile_run c name content s :
  let r := open_write false (Fp name) content (disk s) in
  (RAW_createFile c name content s).2 = with_disk s (then_sync r (disk s)) /\
  is_ok (RAW_createFile c name content s).1 = then_sync_ok r.
Proof.
  apply (mutate_run _ _ _ (open_write false (Fp name) content)
           (fun e => Fs.message e "open" (Path.join MEMORY_DIR name))).
  intros s0. apply lift_disk_run.
Qed.

Lemma RAW_appendContent_run c file content s :
  let r := open_write true (Fp file) content (disk s) in
  (RAW_appendContent c file content s).2
  = with_disk s (then_sync r (disk s)) /\
  is_ok (RAW_appendContent c file content s).1 = then_sync_ok r.
Proof.
  apply (mutate_run _ _ _ (open_write true (Fp file) content)
           (fun e => Fs.message e "open" (Path.join MEMORY_DIR file))).
  intros s0. apply lift_disk_run.
Qed.

Lemma JSON_createFile_run c name content s :
  let r := open_write false (Fp (name +:+ ".json"))
             (Json.stringify (new_memory c content)) (disk s) in
  (JSON_createFile c name content s).2 = with_disk s (then_sync r (disk s)) /\
  is_ok (JSON_createFile c name content s).1 = then_sync_ok r.
Proof.
  apply (mutate_run _ _ _
           (open_write false (Fp (name +:+ ".json"))
              (Json.stringify (new_memory c content)))
           (fun e => Fs.message e "open"
                       (Path.join MEMORY_DIR (name +:+ ".json")))).
  intros s0. apply lift_disk_run.
Qed.

Lemma createDir_op_run name s :
  let r := mkdirp (segs (Fp name)) (disk s) in
  (createDir_op name s).2 = with_disk s (then_sync r (disk s)) /\
  is_ok (createDir_op name s).1 = then_sync_ok r.
Proof.
  apply (mutate_run _ _ _ (mkdirp (segs (Fp name)))
           (fun e => Fs.message e "mkdir" (Path.join MEMORY_DIR name))).
  intros s0. apply lift_disk_run.
Qed.

Lemma rename_op_run operation source dest s :
  let r := rename (Fp source) (Fp dest) (disk s) in
  (rename_op operation source dest s).2
  = with_disk s (then_sync r (disk s)) /\
  is_ok (rename_op operation source dest s).1 = then_sync_ok r.
Proof.
  apply (mutate_run _ _ _ (rename (Fp source) (Fp dest))
           (fun e => Fs.message2 e "rename" (Path.join MEMORY_DIR source)
                       (Path.join MEMORY_DIR dest))).
  intros s0. unfold renameSync. fold (Fp source) (Fp dest).
  by destruct (rename (Fp source) (Fp dest) (disk s0)).
Qed.

(** *** The structured append, step by step *)

Lemma append_to_run memory content timestamp s :
  exists message,
    append_to memory content timestamp s =
    (match append_value memory content timestamp with
     | Some memory' => Ok memory'
     | None => Throw message
     end, s).
Proof.
  destruct memory; simpl; eauto.
Qed.

Lemma bind_run {A B} (m : M A) (k : A -> M B) s :
  (m ≫= k) s =
  match m s with
  | (Ok a, s') => k a s'
  | (Throw e, s') => (Throw e, s')
  end.
Proof. reflexivity. Qed.

Lemma try_catch_state {A} operation path (m : M A) s :
  (try_catch operation path m s).2 = (m s).2.
Proof. unfold try_catch. by destruct (m s) as [[|] ?]. Qed.

Lemma try_catch_ok {A} operation path (m : M A) s :
  is_ok (try_catch operation path m s).1 = is_ok (m s).1.
Proof. unfold try_catch. by destruct (m s) as [[|] ?]. Qed.

Lemma readFileSync_run path s :
  readFileSync path s =
  (match read (resolve path) (disk s) with
   | inr data => Ok data
   | inl e => Throw (read_failure e path)
   end, s).
Proof. unfold readFileSync. by destruct (read _ _). Qed.

Lemma JSON_parse_run text s :
  JSON_parse text s =
  (match Json.parse text with
   | Some v => Ok v
   | None => Throw SyntaxError
   end, s).
Proof. unfold JSON_parse. by destruct (Json.parse text). Qed.

Lemma JSON_appendContent_state c file content s :
  (JSON_appendContent c file content s).2 =
  with_disk s (json_append_disk file content (toISOString (new_Date c))
                 (disk s)).
Proof.
  unfold JSON_appendContent, json_append_disk, edit.
  rewrite try_catch_state, bind_run, readFileSync_run. fold (Fp file).
  destruct (read (Fp file) (disk s)) as [e|text].
  { by rewrite with_disk_id. }
  rewrite bind_run, JSON_parse_run.
  destruct (Json.parse text) as [memory|].
  2:{ by rewrite with_disk_id. }
  rewrite bind_run.
  destruct (append_to_run memory content (toISOString (new_Date c)) s)
    as [message ->].
  destruct (append_value memory content _) as [memory'|].
  2:{ by rewrite with_disk_id. }
  rewrite bind_run. unfold writeFileSync. fold (Fp file).
  rewrite lift_disk_run.
  destruct (open_write false (Fp file) _ (disk s)) as [e|d1].
  { by rewrite with_disk_id. }
  cbn [then_sync]. by rewrite updateDirectoryFile_state.
Qed.

Lemma JSON_appendContent_ok c file content s :
  is_ok (JSON_appendContent c file content s).1 =
  match read (Fp file) (disk s) with
  | inr text =>
      match edit text content (toISOString (new_Date c)) with
      | Some text' =>
          then_sync_ok (open_write false (Fp file) text' (disk s))
      | None => false
      end
  | inl _ => false
  end.
Proof.
  unfold JSON_appendContent, edit.
  rewrite try_catch_ok, bind_run, readFileSync_run. fold (Fp file).
  destruct (read (Fp file) (disk s)) as [e|text]; [done|].
  rewrite bind_run, JSON_parse_run.
  destruct (Json.parse text) as [memory|]; [|done].
  rewrite bind_run.
  destruct (append_to_run memory content (toISOString (new_Date c)) s)
    as [message ->].
  destruct (append_value memory content _) as [memory'|]; [|done].
  rewrite bind_run. unfold writeFileSync. fold (Fp file).
  rewrite lift_disk_run.
  destruct (open_write false (Fp file) _ (disk s)) as [e|d1]; [done|].
  cbn [then_sync_ok]. by rewrite updateDirectoryFile_ok.
Qed.

(** *** The manifest after a mutation *)

Lemma resync_fresh d o :
  walk (segs DFp) d = inr (File o) -> resync_ok d = true ->
  exists tree, tree_at (resync d) = inr tree /\
               read DFp (resync d) = inr tree.
Proof.
  intros Hf Hok. rewrite (resync_ok_at_file d o Hf) in Hok.
  rewrite (resync_at_file d o Hf).
  destruct (tree_at d) as [e|tree] eqn:Ht; [done|].
  destruct (dir_only DFp) eqn:Hd; [done|].
  exists tree. rewrite tree_at_update. split; [done|].
  unfold read. by rewrite (walk_update_same _ _ _ o Hf), Hd.
Qed.

Lemma manifest_fresh_intro s tree :
  tree_at (disk s) = inr tree -> read DFp (disk s) = inr tree ->
  manifest_fresh s.
Proof.
  intros Ht Hr. exists tree. rewrite generateDirectoryTree_run, Ht.
  split; [done|]. rewrite readFileSync_run. fold DFp. by rewrite Hr.
Qed.

Lemma then_sync_fresh s (r : errno + node) :
  then_sync_ok r = true ->
  (forall d1, r = inr d1 -> is_file (segs DFp) d1) ->
  manifest_fresh (with_disk s (then_sync r (disk s))).
Proof.
  destruct r as [e|d1]; [done|]. cbn [then_sync then_sync_ok].
  intros Hok Hf. destruct (Hf d1 eq_refl) as [o Ho].
  destruct (resync_fresh d1 o Ho Hok) as (tree & Ht & Hr).
  by apply manifest_fresh_intro with tree.
Qed.

Lemma open_write_keeps_file f q data d d1 p :
  open_write f q data d = inr d1 -> is_file p d -> is_file p d1.
Proof.
  unfold open_write. destruct (dir_only q).
  { by destruct (walk (segs q) d) as [|[|]]. }
  intros Hs [o Ho]. destruct (decide (p = segs q)) as [->|Hne].
  - unfold is_file. rewrite (walk_store_same _ _ _ _ _ Hs). by eexists.
  - exists o. by eapply walk_store_other.
Qed.

Lemma run_ok {A} (m : M A) s a s' :
  m s = (Ok a, s') -> is_ok (m s).1 = true /\ (m s).2 = s'.
Proof. by intros ->. Qed.

(** C2, as amended: a mutating operation that returns normally leaves
    the manifest equal to the tree text of the disk it leaves behind,
    provided the manifest was in place as a regular file and the
    operation did not move it (or a directory above it) away. *)
Theorem manifest_fresh_after_mutation manager c op s s' :
  manager = jsonManager \/ manager = rawManager ->
  manifest_present s ->
  ~ moves_manifest op ->
  perform manager c op s = (Ok tt, s') ->
  manifest_fresh s'.
Proof.
  intros Hmgr Hpres Hmove Hrun.
  apply run_ok in Hrun as [Hok <-].
  assert (Hrename : forall operation source dest,
            is_prefix (segs (Fp source)) (segs DFp) <> true ->
            is_ok (rename_op operation source dest s).1 = true ->
            manifest_fresh (rename_op operation source dest s).2).
  { intros operation source dest Hpre Hok'.
    destruct (rename_op_run operation source dest s) as [-> Hk].
    rewrite Hk in Hok'. apply then_sync_fresh; [done|].
    intros d1 Hd1. destruct Hpres as [o Ho].
    destruct (rename_keeps_file _ _ _ _ _ _ Hd1
                (not_true_is_false _ Hpre) Ho) as [y Hy].
    by exists y. }
  assert (Hmk : forall name,
            is_ok (createDir_op name s).1 = true ->
            manifest_fresh (createDir_op name s).2).
  { intros name Hok'. destruct (createDir_op_run name s) as [-> Hk].
    rewrite Hk in Hok'. apply then_sync_fresh; [done|].
    intros d1 Hd1. destruct Hpres as [o Ho]. exists o.
    by eapply walk_mkdirp_file. }
  destruct Hmgr as [-> | ->]; destruct op; cbn [perform jsonManager
    rawManager createFile createDir moveFile moveDir appendContent
    renameFile] in *; auto.
  - destruct (JSON_createFile_run c name content s) as [-> Hk].
    rewrite Hk in Hok. apply then_sync_fresh; [done|].
    intros d1 Hd1. by eapply open_write_keeps_file.
  - rewrite JSON_appendContent_state. rewrite JSON_appendContent_ok in Hok.
    unfold json_append_disk.
    destruct (read (Fp file) (disk s)) as [e|text]; [done|].
    destruct (edit text content _) as [text'|]; [|done].
    apply then_sync_fresh; [done|].
    intros d1 Hd1. by eapply open_write_keeps_file.
  - destruct (RAW_createFile_run c name content s) as [-> Hk].
    rewrite Hk in Hok. apply then_sync_fresh; [done|].
    intros d1 Hd1. by eapply open_write_keeps_file.
  - destruct (RAW_appendContent_run c file content s) as [-> Hk].
    rewrite Hk in Hok. apply then_sync_fresh; [done|].
    intros d1 Hd1. by eapply open_write_keeps_file.
Qed.

(** *** Create, then read *)

Lemma wf_new_memory c content : Json.wf (new_memory c content).
Proof.
  simpl. split; [|done].
  apply (bool_decide_unpack _). by vm_compute.
Qed.

Lemma then_sync_inv (r : errno + node) :
  then_sync_ok r = true -> exists d1, r = inr d1 /\ resync_ok d1 = true.
Proof. destruct r; [done|]. eauto. Qed.

Lemma open_write_read q data d d1 :
  open_write false q data d = inr d1 -> read q d1 = inr data.
Proof.
  unfold open_write, read. destruct (dir_only q).
  { by destruct (walk (segs q) d) as [|[|]]. }
  intros Hs. rewrite (walk_store_same _ _ _ _ _ Hs).
  by destruct (walk (segs q) d) as [|[|]].
Qed.

Lemma read_resync q d data :
  segs q ≠ segs DFp -> read q d = inr data -> read q (resync d) = inr data.
Proof.
  unfold read. intros Hq.
  destruct (walk (segs q) d) as [|[o|]] eqn:Hw; try done.
  by rewrite (resync_keeps_file _ _ _ Hq Hw).
Qed.

Lemma RAW_readFileContent_run file s :
  RAW_readFileContent file s =
  (match read (Fp file) (disk s) with
   | inr data => Ok data
   | inl e => Throw (FileOperationError "read file content" file
                       (read_failure e (Path.join MEMORY_DIR file)))
   end, s).
Proof.
  unfold RAW_readFileContent, try_catch. rewrite readFileSync_run.
  fold (Fp file). by destruct (read (Fp file) (disk s)).
Qed.

Lemma get_property_run memory k s :
  exists message,
    get_property memory k s =
    (match memory with
     | Json.Null => Throw message
     | Json.Obj members => Ok (Json.find_member k members)
     | _ => Ok None
     end, s).
Proof. destruct memory; simpl; eauto. Qed.

Lemma JSON_readFileContent_record file s text members :
  read (Fp file) (disk s) = inr text ->
  Json.parse text = Some (Json.Obj members) ->
  JSON_readFileContent file s = (Ok (Json.find_member "content" members), s).
Proof.
  intros Hr Hp. unfold JSON_readFileContent, try_catch.
  rewrite bind_run, readFileSync_run. fold (Fp file). rewrite Hr.
  by rewrite bind_run, JSON_parse_run, Hp.
Qed.

(** The text that [createFile] stored is the text that is read under the
    name it was stored as, for every name that does not denote the
    manifest. *)
Lemma create_then_read_stored m c name content s s' :
  createFile (manager_of m) c name content s = (Ok tt, s') ->
  segs (Fp (stored_as m name)) ≠ segs DFp ->
  readFileContent (manager_of m) (stored_as m name) s'
  = (Ok (js_string content), s').
Proof.
  intros Hrun Hname. apply run_ok in Hrun as [Hok <-].
  destruct m; cbn [manager_of stored_as createFile readFileContent
                   jsonManager rawManager] in *.
  - destruct (JSON_createFile_run c name content s) as [-> Hk].
    rewrite Hk in Hok. destruct (then_sync_inv _ Hok) as (d1 & Hd1 & _).
    rewrite Hd1. cbn [then_sync].
    apply open_write_read in Hd1. apply (read_resync _ _ _ Hname) in Hd1.
    erewrite JSON_readFileContent_record; [|exact Hd1|].
    2:{ apply JsonFacts.parse_stringify, wf_new_memory. }
    done.
  - destruct (RAW_createFile_run c name content s) as [-> Hk].
    rewrite Hk in Hok. destruct (then_sync_inv _ Hok) as (d1 & Hd1 & _).
    rewrite Hd1. cbn [then_sync].
    apply open_write_read in Hd1. apply (read_resync _ _ _ Hname) in Hd1.
    rewrite bind_run, RAW_readFileContent_run. cbn [disk with_disk].
    by rewrite Hd1.
Qed.

(** C1, as amended: a content string in which no surrogate stands alone,
    once [createFile] has stored it, is read back exactly under the name
    it was stored as, for every name that does not denote the manifest.
    The disk and the answer hold the UTF-8 form of the string, and that
    form decodes to the string. *)
Theorem create_then_read m c name (content : Utf16.text) s s' :
  Utf16.well_formed content = true ->
  createFile (manager_of m) c name (Utf16.encode content) s = (Ok tt, s') ->
  segs (Fp (stored_as m name)) ≠ segs DFp ->
  exists stored,
    readFileContent (manager_of m) (stored_as m name) s'
    = (Ok (js_string stored), s')
    /\ Utf16.decode stored = content.
Proof.
  intros Hwf Hrun Hname. exists (Utf16.encode content).
  split; [by apply (create_then_read_stored m c name _ s)|].
  by apply Utf16Facts.decode_encode.
Qed.

(** *** Appending twice, appending once *)

Lemma open_write_fail_indep f f' q data data' d e :
  open_write f q data d = inl e ->
  exists e', open_write f' q data' d = inl e'.
Proof.
  unfold open_write. destruct (dir_only q).
  - destruct (walk (segs q) d) as [|[|]]; eauto.
  - intros H. exists e. by eapply store_fail_indep.
Qed.

Lemma open_write_file f q data d o :
  walk (segs q) d = inr (File o) -> dir_only q = false ->
  open_write f q data d =
  inr (update (segs q) (fun old => if f then old +:+ data else data) d).
Proof.
  intros Hw Hd. unfold open_write. rewrite Hd. by apply (store_file _ _ _ _ o).
Qed.

Lemma open_write_makes_file f q data d d1 :
  open_write f q data d = inr d1 ->
  dir_only q = false /\ exists o, walk (segs q) d1 = inr (File o).
Proof.
  unfold open_write. destruct (dir_only q).
  { by destruct (walk (segs q) d) as [|[|]]. }
  intros Hs. split; [done|]. rewrite (walk_store_same _ _ _ _ _ Hs). eauto.
Qed.

Lemma resync_file_stays d o :
  walk (segs DFp) d = inr (File o) ->
  exists o', walk (segs DFp) (resync d) = inr (File o').
Proof.
  intros Hf. rewrite (resync_at_file d o Hf).
  destruct (tree_at d); [eauto|]. destruct (dir_only DFp); [eauto|].
  rewrite (walk_update_same _ _ _ o Hf). eauto.
Qed.

Lemma raw_append_at_file file content d o :
  walk (segs (Fp file)) d = inr (File o) -> dir_only (Fp file) = false ->
  raw_append_disk file content d =
  resync (update (segs (Fp file)) (fun old => old +:+ content) d).
Proof.
  intros Hw Hd. unfold raw_append_disk.
  by rewrite (open_write_file _ _ _ _ o Hw Hd).
Qed.

(** Appending to the manifest itself: the resync decides what stays. *)
Lemma raw_append_manifest_twice file a b d o :
  segs (Fp file) = segs DFp -> dir_only (Fp file) = false ->
  walk (segs DFp) d = inr (File o) ->
  raw_append_disk file b (raw_append_disk file a d)
  = raw_append_disk file (a +:+ b) d.
Proof.
  intros Heq Hd Hf.
  assert (Hf' : walk (segs (Fp file)) d = inr (File o)) by by rewrite Heq.
  rewrite (raw_append_at_file file a d o), (raw_append_at_file file _ d o)
    by done.
  rewrite Heq, !(resync_update_same _ d o Hf).
  destruct (tree_at d) as [e|tree] eqn:Ht;
    [|destruct (dir_only DFp) eqn:Hdd].
  - rewrite (raw_append_at_file file b _ (o +:+ a)); [|
      by rewrite Heq, (walk_update_same _ _ _ o Hf)|done].
    rewrite Heq, update_update_same, (resync_update_same _ d o Hf), Ht.
    apply update_ext. intros old. cbv beta. apply StrFacts.append_assoc.
  - rewrite (raw_append_at_file file b _ (o +:+ a)); [|
      by rewrite Heq, (walk_update_same _ _ _ o Hf)|done].
    rewrite Heq, update_update_same, (resync_update_same _ d o Hf), Ht, Hdd.
    apply update_ext. intros old. cbv beta. apply StrFacts.append_assoc.
  - rewrite (raw_append_at_file file b _ tree); [|
      by rewrite Heq, (walk_update_same _ _ _ o Hf)|done].
    rewrite Heq, update_update_same, (resync_update_same _ d o Hf), Ht, Hdd.
    done.
Qed.

(** Appending to any other file, on a disk that a resync has left. *)
Lemma raw_append_other_twice file a b d1 o :
  segs (Fp file) ≠ segs DFp -> dir_only (Fp file) = false ->
  walk (segs (Fp file)) d1 = inr (File o) ->
  raw_append_disk file b (raw_append_disk file a (resync d1))
  = raw_append_disk file (a +:+ b) (resync d1).
Proof.
  intros Hne Hd Hf.
  assert (H1 : walk (segs (Fp file)) (resync d1) = inr (File o))
    by by apply resync_keeps_file.
  assert (H2 : walk (segs (Fp file)) (resync (resync d1)) = inr (File o))
    by by apply resync_keeps_file.
  rewrite (raw_append_at_file file a _ o H1 Hd).
  rewrite (raw_append_at_file file (a +:+ b) _ o H1 Hd).
  rewrite !resync_update_other by done.
  rewrite (raw_append_at_file file b _ (o +:+ a)); [|
    by rewrite (walk_update_same _ _ _ o H2)|done].
  rewrite update_update_same, resync_update_other by done.
  rewrite resync_stable. apply update_ext. intros old. cbv beta.
  apply StrFacts.append_assoc.
Qed.

Lemma raw_create_then_append_twice name content a b d :
  let e := then_sync (open_write false (Fp name) content d) d in
  raw_append_disk name b (raw_append_disk name a e)
  = raw_append_disk name (a +:+ b) e.
Proof.
  cbn zeta. destruct (open_write false (Fp name) content d) as [err|d1] eqn:Hc;
    cbn [then_sync].
  - unfold raw_append_disk.
    destruct (open_write_fail_indep _ true _ _ a _ _ Hc) as [e1 H1].
    destruct (open_write_fail_indep _ true _ _ (a +:+ b) _ _ Hc) as [e2 H2].
    destruct (open_write_fail_indep _ true _ _ b _ _ Hc) as [e3 H3].
    rewrite H1, H2. cbn [then_sync]. by rewrite H3.
  - destruct (open_write_makes_file _ _ _ _ _ Hc) as (Hd & o & Hf).
    destruct (decide (segs (Fp name) = segs DFp)) as [Heq|Hne].
    + rewrite Heq in Hf. destruct (resync_file_stays d1 o Hf) as [o' Hf'].
      by apply raw_append_manifest_twice with o'.
    + by apply raw_append_other_twice with o.
Qed.

Lemma JSON_readFileContent_run file s :
  JSON_readFileContent file s =
  (match content_on_disk file (disk s) with
   | inl e => Throw (FileOperationError "read file content" file
                       (read_failure e (Path.join MEMORY_DIR file)))
   | inr (Ok v) => Ok v
   | inr (Throw message) =>
       Throw (FileOperationError "read file content" file message)
   end, s).
Proof.
  unfold JSON_readFileContent, content_on_disk, content_of_text, try_catch.
  rewrite bind_run, readFileSync_run. fold (Fp file).
  destruct (read (Fp file) (disk s)) as [e|text]; [done|]. cbn [on_inr].
  rewrite bind_run, JSON_parse_run.
  by destruct (Json.parse text) as [[]|].
Qed.

Lemma find_member_set_same k v ms :
  Json.find_member k (Json.set_member k v ms) = Some v.
Proof.
  induction ms as [|[k' v'] ms IH]; simpl.
  - by rewrite decide_True.
  - case_decide; simpl; [by rewrite decide_True|by rewrite decide_False].
Qed.

Lemma find_member_set_other k k' v ms :
  k ≠ k' ->
  Json.find_member k' (Json.set_member k v ms) = Json.find_member k' ms.
Proof.
  intros Hk. induction ms as [|[k0 v0] ms IH]; simpl.
  - by rewrite decide_False.
  - case_decide; simpl.
    + subst. by rewrite !decide_False.
    + by case_decide.
Qed.

Lemma append_value_wf memory content timestamp memory' :
  Json.wf memory -> append_value memory content timestamp = Some memory' ->
  Json.wf memory'.
Proof.
  destruct memory; try done; simpl append_value.
  - by intros H [= <-].
  - intros H [= <-]. by repeat apply JsonFacts.set_member_wf.
Qed.

Lemma edit_None text a b t1 t2 :
  edit text a t1 = None -> edit text b t2 = None.
Proof.
  unfold edit. destruct (Json.parse text) as [memory|]; [|done].
  by destruct memory.
Qed.

(** Editing the edited text adds to what the first edit added. *)
Lemma edit_edit text a b t1 t2 t3 text1 :
  edit text a t1 = Some text1 ->
  exists text2 text12,
    edit text1 b t2 = Some text2 /\
    edit text (a +:+ b) t3 = Some text12 /\
    content_of_text text2 = content_of_text text12.
Proof.
  unfold edit. destruct (Json.parse text) as [memory|] eqn:Hp; [|done].
  pose proof (JsonFacts.parse_wf _ _ Hp) as Hwf.
  destruct (append_value memory a t1) as [memory1|] eqn:H1; [|done].
  intros [= <-].
  pose proof (append_value_wf _ _ _ _ Hwf H1) as Hwf1.
  rewrite (JsonFacts.parse_stringify _ Hwf1).
  destruct memory as [| | | |items|members]; try done.
  - injection H1 as <-. cbn [append_value].
    eexists _, _. split; [done|]. split; [done|].
    unfold content_of_text. by rewrite !(JsonFacts.parse_stringify _ Hwf).
  - injection H1 as <-. cbn [append_value].
    eexists _, _. split; [done|]. split; [done|].
    unfold content_of_text.
    rewrite !JsonFacts.parse_stringify.
    + rewrite !(find_member_set_other "timestamp" "content") by done.
      rewrite !find_member_set_same. cbn [Json.toString_opt Json.toString].
      by rewrite StrFacts.append_assoc.
    + by repeat apply JsonFacts.set_member_wf.
    + by repeat apply JsonFacts.set_member_wf.
Qed.

Lemma read_inv q d text :
  read q d = inr text ->
  walk (segs q) d = inr (File text) /\ dir_only q = false.
Proof.
  unfold read. destruct (walk (segs q) d) as [|[o|]]; try done.
  destruct (dir_only q); [done|]. by intros [= ->].
Qed.

Lemma read_intro q d text :
  walk (segs q) d = inr (File text) -> dir_only q = false ->
  read q d = inr text.
Proof. unfold read. by intros -> ->. Qed.

Lemma json_append_at_file file content timestamp d text :
  read (Fp file) d = inr text ->
  json_append_disk file content timestamp d =
  match edit text content timestamp with
  | Some text' => resync (update (segs (Fp file)) (fun _ => text') d)
  | None => d
  end.
Proof.
  intros Hr. unfold json_append_disk. rewrite Hr.
  destruct (edit text content timestamp) as [text'|]; [|done].
  apply read_inv in Hr as [Hw Hd].
  by rewrite (open_write_file _ _ _ _ text Hw Hd).
Qed.

Lemma resync_update_at p g d o :
  p = segs DFp -> walk p d = inr (File o) ->
  resync (update p g d) =
  match tree_at d with
  | inr tree =>
      if dir_only DFp then update p g d else update p (fun _ => tree) d
  | inl _ => update p g d
  end.
Proof. intros ->. apply resync_update_same. Qed.

Lemma content_after_update file d o x :
  read (Fp file) d = inr o ->
  content_on_disk file (update (segs (Fp file)) (fun _ => x) d)
  = inr (content_of_text x).
Proof.
  intros [Hw Hd]%read_inv. unfold content_on_disk.
  erewrite read_intro; [done| |done].
  by rewrite (walk_update_same _ _ _ o Hw).
Qed.

Lemma read_after_update file d o g :
  read (Fp file) d = inr o ->
  read (Fp file) (update (segs (Fp file)) g d) = inr (g o).
Proof.
  intros [Hw Hd]%read_inv. apply read_intro; [|done].
  by rewrite (walk_update_same _ _ _ o Hw).
Qed.

(** The structured append, twice and once, seen through
    [readFileContent]. *)
Lemma json_append_twice_disk file a b t1 t2 t3 d :
  content_on_disk file
    (json_append_disk file b t2 (json_append_disk file a t1 d))
  = content_on_disk file (json_append_disk file (a +:+ b) t3 d).
Proof.
  destruct (read (Fp file) d) as [err|text] eqn:Hr.
  { unfold json_append_disk. rewrite Hr. by rewrite Hr. }
  rewrite (json_append_at_file file a t1 d text Hr).
  rewrite (json_append_at_file file (a +:+ b) t3 d text Hr).
  destruct (edit text a t1) as [text1|] eqn:Ea.
  2:{ rewrite (edit_None _ _ (a +:+ b) _ t3 Ea).
      rewrite (json_append_at_file file b t2 d text Hr).
      by rewrite (edit_None _ _ b _ t2 Ea). }
  destruct (edit_edit text a b t1 t2 t3 text1 Ea)
    as (text2 & text12 & Eb & Eab & Hview).
  rewrite Eab. destruct (read_inv _ _ _ Hr) as [Hw Hd].
  destruct (decide (segs (Fp file) = segs DFp)) as [Heq|Hne].
  - rewrite !(resync_update_at _ _ d text Heq Hw).
    destruct (tree_at d) as [e|tree] eqn:Ht;
      [|destruct (dir_only DFp) eqn:Hdd].
    + rewrite (json_append_at_file file b t2 _ text1)
        by by apply (read_after_update file d text).
      rewrite Eb, update_update_same.
      rewrite (resync_update_at _ _ d text Heq Hw), Ht.
      rewrite !(content_after_update file d text) by done.
      by rewrite Hview.
    + rewrite (json_append_at_file file b t2 _ text1)
        by by apply (read_after_update file d text).
      rewrite Eb, update_update_same.
      rewrite (resync_update_at _ _ d text Heq Hw), Ht, Hdd.
      rewrite !(content_after_update file d text) by done.
      by rewrite Hview.
    + rewrite (json_append_at_file file b t2 _ tree)
        by by apply (read_after_update file d text).
      destruct (edit tree b t2) as [text'|]; [|done].
      rewrite update_update_same.
      by rewrite (resync_update_at _ _ d text Heq Hw), Ht, Hdd.
  - rewrite !resync_update_other by done.
    assert (H1 : read (Fp file) (resync d) = inr text)
      by by apply read_resync.
    assert (H2 : read (Fp file) (resync (resync d)) = inr text)
      by by apply read_resync.
    rewrite (json_append_at_file file b t2 _ text1)
      by by apply (read_after_update file _ text).
    rewrite Eb, update_update_same.
    rewrite resync_update_other by done.
    rewrite (content_after_update file _ text) by done.
    rewrite (content_after_update file _ text) by done.
    by rewrite Hview.
Qed.

(** After [createFile], appending the text [a] and then the text [b]
    stores what appending the text [a +:+ b] stores.  In raw mode the two
    disks are equal, manifest included.  In structured mode the two
    records differ in their timestamps only, so the statement is about
    the content that [readFileContent] returns, for whatever file the
    appends name. *)
Lemma append_twice_stored c0 c1 c2 c3 name content file a b s :
  (let s1 := (createFile rawManager c0 name content s).2 in
   (appendContent rawManager c2 name b
      (appendContent rawManager c1 name a s1).2).2
   = (appendContent rawManager c3 name (a +:+ b) s1).2)
  /\
  (let s1 := (createFile jsonManager c0 name content s).2 in
   (readFileContent jsonManager file
      (appendContent jsonManager c2 file b
         (appendContent jsonManager c1 file a s1).2).2).1
   = (readFileContent jsonManager file
        (appendContent jsonManager c3 file (a +:+ b) s1).2).1).
Proof.
  cbn [createFile appendContent readFileContent jsonManager rawManager].
  split; cbn zeta.
  - destruct (RAW_createFile_run c0 name content s) as [-> _].
    destruct (RAW_appendContent_run c1 name a
                (with_disk s (then_sync (open_write false (Fp name) content
                                           (disk s)) (disk s)))) as [-> _].
    cbn [disk with_disk].
    match goal with
    | |- (RAW_appendContent _ _ _ ?s1).2 = (RAW_appendContent _ _ _ ?s2).2 =>
        destruct (RAW_appendContent_run c2 name b s1) as [-> _];
        destruct (RAW_appendContent_run c3 name (a +:+ b) s2) as [-> _]
    end.
    cbn [disk with_disk]. f_equal.
    apply raw_create_then_append_twice.
  - rewrite !JSON_readFileContent_run, !JSON_appendContent_state.
    cbn [disk with_disk fst].
    by rewrite (json_append_twice_disk file a b (toISOString (new_Date c1))
                  (toISOString (new_Date c2)) (toISOString (new_Date c3))).
Qed.

(** C5, as amended: for content strings [a] and [b] in which no surrogate
    stands alone, appending [a] and then [b] after [createFile] stores
    what appending the string [a ++ b] stores.  In raw mode the two
    disks are equal, manifest included; in structured mode the two
    records differ in their timestamps only, and [readFileContent]
    returns the same content. *)
Theorem append_twice_is_append_once
    c0 c1 c2 c3 name content file (a b : Utf16.text) s :
  Utf16.well_formed a = true ->
  Utf16.well_formed b = true ->
  (let s1 := (createFile rawManager c0 name content s).2 in
   (appendContent rawManager c2 name (Utf16.encode b)
      (appendContent rawManager c1 name (Utf16.encode a) s1).2).2
   = (appendContent rawManager c3 name (Utf16.encode (a ++ b)) s1).2)
  /\
  (let s1 := (createFile jsonManager c0 name content s).2 in
   (readFileContent jsonManager file
      (appendContent jsonManager c2 file (Utf16.encode b)
         (appendContent jsonManager c1 file (Utf16.encode a) s1).2).2).1
   = (readFileContent jsonManager file
        (appendContent jsonManager c3 file (Utf16.encode (a ++ b)) s1).2).1).
Proof.
  intros Ha _. rewrite (Utf16Facts.encode_app a b Ha).
  apply append_twice_stored.
Qed.

(** *** What the structured append leaves alone *)


(** *** Identifiers *)

Lemma Z_toString_inj a b : JS.Z_toString a = JS.Z_toString b -> a = b.
Proof.
  unfold JS.Z_toString. intros H.
  assert (Hi : Some (Z.to_int a) = Some (Z.to_int b)).
  { by rewrite <- !NilEmpty.isi, H. }
  injection Hi as Hi.
  by rewrite <- (DecimalZ.of_to a), <- (DecimalZ.of_to b), Hi.
Qed.

Lemma created_record c name content s s' :
  createFile jsonManager c name content s = (Ok tt, s') ->
  segs (Fp (name +:+ ".json")) ≠ segs DFp ->
  read (Fp (name +:+ ".json")) (disk s')
  = inr (Json.stringify (new_memory c content)).
Proof.
  intros Hrun Hname. apply run_ok in Hrun as [Hok <-].
  cbn [createFile jsonManager] in *.
  destruct (JSON_createFile_run c name content s) as [-> Hk].
  rewrite Hk in Hok. destruct (then_sync_inv _ Hok) as (d1 & Hd1 & _).
  rewrite Hd1. cbn [then_sync disk with_disk].
  apply open_write_read in Hd1. by apply read_resync.
Qed.

Lemma created_survives c name content s s' file text :
  createFile jsonManager c name content s = (Ok tt, s') ->
  segs (Fp file) ≠ segs DFp ->
  segs (Fp file) ≠ segs (Fp (name +:+ ".json")) ->
  read (Fp file) (disk s) = inr text ->
  read (Fp file) (disk s') = inr text.
Proof.
  intros Hrun Hfile Hne Hr. apply run_ok in Hrun as [Hok <-].
  cbn [createFile jsonManager] in *.
  destruct (JSON_createFile_run c name content s) as [-> Hk].
  rewrite Hk in Hok. destruct (then_sync_inv _ Hok) as (d1 & Hd1 & _).
  rewrite Hd1. cbn [then_sync disk with_disk].
  apply read_resync; [done|].
  apply read_inv in Hr as [Hw Hd]. apply read_intro; [|done].
  unfold open_write in Hd1. destruct (dir_only (Fp (name +:+ ".json"))).
  { by destruct (walk (segs (Fp (name +:+ ".json"))) (disk s)) as [|[|]]. }
  by eapply walk_store_other.
Qed.

(** C6, as amended: the identifier of a record is the decimal text of
    the millisecond clock read by its [createFile], so two records have
    different identifiers exactly when their two calls read different
    values of [Date.now()]. *)
Theorem ids_differ_iff_clock_differs
    c1 c2 name1 name2 content1 content2 s s1 s2 :
  createFile jsonManager c1 name1 content1 s = (Ok tt, s1) ->
  createFile jsonManager c2 name2 content2 s1 = (Ok tt, s2) ->
  segs (Fp (name1 +:+ ".json")) ≠ segs DFp ->
  segs (Fp (name2 +:+ ".json")) ≠ segs DFp ->
  segs (Fp (name1 +:+ ".json")) ≠ segs (Fp (name2 +:+ ".json")) ->
  exists r1 r2,
    stored_record (name1 +:+ ".json") s2 = Some r1 /\
    stored_record (name2 +:+ ".json") s2 = Some r2 /\
    field "id" r1 = Some (Json.Str (JS.Z_toString (Date_now c1))) /\
    field "id" r2 = Some (Json.Str (JS.Z_toString (Date_now c2))) /\
    (field "id" r1 ≠ field "id" r2 <-> Date_now c1 ≠ Date_now c2).
Proof.
  intros H1 H2 Hn1 Hn2 Hne.
  pose proof (created_record _ _ _ _ _ H1 Hn1) as Hr1.
  pose proof (created_survives _ _ _ _ _ _ _ H2 Hn1 Hne Hr1) as Hr1'.
  pose proof (created_record _ _ _ _ _ H2 Hn2) as Hr2.
  exists (new_memory c1 content1), (new_memory c2 content2).
  unfold stored_record. rewrite Hr1', Hr2.
  rewrite !JsonFacts.parse_stringify by apply wf_new_memory.
  do 4 (split; [done|]). cbn [field new_memory Json.find_member].
  rewrite !decide_False by done. rewrite !decide_True by done.
  split.
  - intros Hid Hc. apply Hid. by rewrite Hc.
  - intros Hc [= Hid]. by apply Hc, Z_toString_inj.
Qed.

(** *** Listing and searching *)

Lemma RAW_readAllFiles_run s :
  RAW_readAllFiles s =
  (match readdir Mp (disk s) with
   | inr files => Ok (getAllFiles MEMORY_DIR (Dir files))
   | inl e => Throw (FileOperationError "read directory" MEMORY_DIR
                       (Fs.message e "scandir" MEMORY_DIR))
   end, s).
Proof.
  unfold RAW_readAllFiles, try_catch. rewrite bind_run.
  unfold readdirSync. fold Mp. by destruct (readdir Mp (disk s)).
Qed.


End with_process.

End StoreFacts.

(** ** The operations and the handler *)

Module OpFacts.

Import Fs FsFacts Store StoreFacts.

(** *** Substrings *)

Lemma startsWith_spec s p :
  JS.startsWith s p = true <-> exists post, s = p +:+ post.
Proof.
  revert s. induction p as [|a p IH]; intros s.
  - split; [|by destruct s]. intros _. by exists s.
  - destruct s as [|b s]; simpl.
    + split; [done|]. by intros [post ?].
    + rewrite andb_true_iff, bool_decide_eq_true, IH. split.
      * intros [-> [post ->]]. by exists post.
      * intros [post [= -> ->]]. split; [done|]. by exists post.
Qed.

Lemma includes_spec s q : JS.includes s q = true <-> occurs_in q s.
Proof.
  induction s as [|c s IH]; cbn [JS.includes].
  - rewrite orb_false_r, startsWith_spec. split.
    + intros [post H]. by exists "", post.
    + intros (pre & post & H). destruct pre; [|done]. by exists post.
  - rewrite orb_true_iff, startsWith_spec, IH. split.
    + intros [[post H]|(pre & post & H)].
      * by exists "", post.
      * exists (String c pre), post. simpl. by rewrite H.
    + intros (pre & post & H). destruct pre as [|c' pre].
      * left. by exists post.
      * right. injection H as -> H. by exists pre, post.
Qed.

(** *** Operations that leave the tag graph alone *)

Lemma keeps_ret {A} (a : A) : keeps_graph (mret a : M A).
Proof. done. Qed.

Lemma keeps_throw {A} message : keeps_graph (throw message : M A).
Proof. done. Qed.

Lemma keeps_bind {A B} (m : M A) (k : A -> M B) :
  keeps_graph m -> (forall a, keeps_graph (k a)) -> keeps_graph (m ≫= k).
Proof.
  intros Hm Hk s. rewrite bind_run. specialize (Hm s).
  destruct (m s) as [[a|e] s1]; simpl in *; [|done].
  by rewrite Hk.
Qed.

Lemma keeps_try_catch {A} operation path (m : M A) :
  keeps_graph m -> keeps_graph (try_catch operation path m).
Proof. intros Hm s. by rewrite try_catch_state. Qed.

Lemma keeps_lift_disk sc path r : keeps_graph (lift_disk sc path r).
Proof. intros s. by destruct r. Qed.

Lemma keeps_writeFileSync path data : keeps_graph (writeFileSync path data).
Proof. intros s. apply keeps_lift_disk. Qed.

Lemma keeps_appendFileSync path data :
  keeps_graph (appendFileSync path data).
Proof. intros s. apply keeps_lift_disk. Qed.

Lemma keeps_mkdirSync path : keeps_graph (mkdirSync_recursive path).
Proof. intros s. apply keeps_lift_disk. Qed.

Lemma keeps_renameSync a b : keeps_graph (renameSync a b).
Proof. intros s. unfold renameSync. by destruct (rename _ _ _). Qed.

Lemma keeps_readFileSync path : keeps_graph (readFileSync path).
Proof. intros s. unfold readFileSync. by destruct (read _ _). Qed.

Lemma keeps_readdirSync path : keeps_graph (readdirSync path).
Proof. intros s. unfold readdirSync. by destruct (readdir _ _). Qed.

Lemma keeps_existsSync path : keeps_graph (existsSync path).
Proof. intros s. unfold existsSync. by destruct (walk _ _). Qed.

Lemma keeps_filterM {A} (f : A -> M bool) l :
  (forall x, keeps_graph (f x)) -> keeps_graph (filterM f l).
Proof.
  intros Hf. induction l as [|x l IH]; simpl; [apply keeps_ret|].
  apply keeps_bind; [done|]. intros keep.
  apply keeps_bind; [done|]. intros rest. apply keeps_ret.
Qed.

Create HintDb keeps.

#[local] Hint Resolve keeps_lift_disk keeps_writeFileSync
  keeps_appendFileSync keeps_mkdirSync keeps_renameSync keeps_readFileSync
  keeps_readdirSync keeps_existsSync : keeps.

(** One step through the shape of an operation. *)
Ltac keeps_step :=
  match goal with
  | |- keeps_graph (mret _) => apply keeps_ret
  | |- keeps_graph (ret _) => apply (keeps_ret _)
  | |- keeps_graph (throw _) => apply keeps_throw
  | |- keeps_graph (_ ≫= _) => apply keeps_bind; [|intros ?]
  | |- keeps_graph (try_catch _ _ _) => apply keeps_try_catch
  | |- keeps_graph (filterM _ _) => apply keeps_filterM; intros ?
  | |- keeps_graph (if ?b then _ else _) => destruct b
  | |- keeps_graph (match ?x with _ => _ end) => destruct x
  | |- keeps_graph _ => solve [auto with keeps]
  end.

Ltac keeps := repeat keeps_step.

Section with_process.

Context {process : Process}.

Lemma keeps_updateDirectoryFile : keeps_graph updateDirectoryFile.
Proof. unfold updateDirectoryFile, generateDirectoryTree. keeps. Qed.

#[local] Hint Resolve keeps_updateDirectoryFile : keeps.

Lemma keeps_get_property memory k : keeps_graph (get_property memory k).
Proof. unfold get_property. keeps. Qed.

Lemma keeps_JSON_parse text : keeps_graph (JSON_parse text).
Proof. unfold JSON_parse. keeps. Qed.

#[local] Hint Resolve keeps_get_property keeps_JSON_parse : keeps.

Lemma keeps_lower_includes what v query :
  keeps_graph (lower_includes what v query).
Proof. unfold lower_includes. keeps. Qed.

#[local] Hint Resolve keeps_lower_includes : keeps.

Lemma keeps_some_tag tags query : keeps_graph (some_tag tags query).
Proof. induction tags as [|tag tags IH]; simpl; keeps. Qed.

#[local] Hint Resolve keeps_some_tag : keeps.

(** Every operation of either manager leaves the tag graph alone. *)
Lemma keeps_manager manager :
  manager = jsonManager \/ manager = rawManager ->
  (forall c name content, keeps_graph (createFile manager c name content)) /\
  (forall name, keeps_graph (createDir manager name)) /\
  (forall source dest, keeps_graph (moveFile manager source dest)) /\
  (forall source dest, keeps_graph (moveDir manager source dest)) /\
  (forall c file content,
     keeps_graph (appendContent manager c file content)) /\
  (forall source dest, keeps_graph (renameFile manager source dest)) /\
  keeps_graph (readAllFiles manager) /\
  (forall file, keeps_graph (readFileContent manager file)) /\
  (forall query, keeps_graph (fuzzySearch manager query)).
Proof.
  intros [->| ->];
    cbn [createFile createDir moveFile moveDir appendContent renameFile
         readAllFiles readFileContent fuzzySearch jsonManager rawManager];
    repeat split; intros;
    repeat (progress
              (unfold JSON_createFile, createDir_op, rename_op,
                 JSON_appendContent, append_to, JSON_readAllFiles,
                 JSON_readFileContent, JSON_fuzzySearch, memory_matches,
                 RAW_createFile, RAW_appendContent, RAW_readAllFiles,
                 RAW_readFileContent, RAW_fuzzySearch;
               cbn zeta; keeps)).
Qed.

(** *** The structured search *)

Lemma filterM_ok {A} (f : A -> M bool) (P : A -> bool) l s r s' :
  (forall x b s1, f x s = (Ok b, s1) -> s1 = s /\ b = P x) ->
  filterM f l s = (Ok r, s') -> s' = s /\ r = List.filter P l.
Proof.
  intros Hf. revert r s'. induction l as [|x l IH]; intros r s'; simpl.
  - by intros [= <- <-].
  - rewrite bind_run. destruct (f x s) as [[keep|e] s1] eqn:Hx; [|done].
    destruct (Hf _ _ _ Hx) as [-> ->]. rewrite bind_run.
    destruct (filterM f l s) as [[rest|e] s2]; [|done].
    destruct (IH rest s2 eq_refl) as [-> ->]. by intros [= <- <-].
Qed.

Lemma filterM_total {A} (f : A -> M bool) (P : A -> bool) l s :
  (forall x, x ∈ l -> f x s = (Ok (P x), s)) ->
  filterM f l s = (Ok (List.filter P l), s).
Proof.
  induction l as [|x l IH]; intros Hf; simpl; [done|].
  rewrite bind_run, Hf by left. rewrite bind_run, IH; [done|].
  intros y Hy. apply Hf. by right.
Qed.

Lemma filterM_throws {A} (f : A -> M bool) l x s :
  (forall y, (f y s).2 = s) -> x ∈ l -> is_ok (f x s).1 = false ->
  is_ok (filterM f l s).1 = false.
Proof.
  intros Hs Hx Hthrow. induction l as [|y l IH]; [by inversion Hx|].
  simpl. rewrite bind_run. pose proof (Hs y) as Hy.
  destruct (f y s) as [[keep|e] s1] eqn:Hfy; [|done]. simpl in Hy. subst s1.
  rewrite bind_run. apply elem_of_cons in Hx as [->|Hx].
  - by rewrite Hfy in Hthrow.
  - specialize (IH Hx). by destruct (filterM f l s) as [[rest|e] s2].
Qed.

Lemma some_tag_ok tags query s b s' :
  some_tag tags query s = (Ok b, s') ->
  s' = s /\ b = existsb (tag_matches query) tags.
Proof.
  revert b. induction tags as [|tag tags IH]; intros b; simpl.
  - by intros [= <- <-].
  - rewrite bind_run. destruct tag; try done. simpl.
    destruct (JS.includes_ci s0 query); [by intros [= <- <-]|]. apply IH.
Qed.

Lemma some_tag_run tags query s :
  forallb is_Str tags = true ->
  some_tag tags query s = (Ok (existsb (tag_matches query) tags), s).
Proof.
  induction tags as [|tag tags IH]; simpl; [done|].
  destruct tag; try done. simpl. intros Htags. rewrite bind_run. simpl.
  destruct (JS.includes_ci s0 query); [done|]. by apply IH.
Qed.

(** When the predicate of the search returns, it has left the state
    alone and computed [record_matches]. *)
Lemma memory_matches_ok memory query s b s' :
  memory_matches memory query s = (Ok b, s') ->
  s' = s /\ b = record_matches memory query.
Proof.
  unfold memory_matches, record_matches. rewrite bind_run.
  destruct memory as [| | | | |members]; try done. simpl.
  rewrite bind_run.
  destruct (Json.find_member "content" members) as [[| | |str| |]|];
    try done.
  simpl. destruct (JS.includes_ci str query); [by intros [= <- <-]|].
  rewrite bind_run. simpl.
  destruct (Json.find_member "tags" members) as [[| | | |items|]|];
    try done.
  apply some_tag_ok.
Qed.

(** On a record of the declared shape it does return. *)
Lemma memory_matches_run memory query s :
  MemorySchema memory = true ->
  memory_matches memory query s = (Ok (record_matches memory query), s).
Proof.
  unfold MemorySchema, memory_matches, record_matches.
  destruct memory as [| | | | |members]; try done. cbn [field].
  destruct (Json.find_member "timestamp" members) as [[| | |?| |]|];
    try done.
  destruct (Json.find_member "id" members) as [[| | |?| |]|]; try done.
  destruct (Json.find_member "tags" members) as [[| | | |items|]|] eqn:Ht;
    try done.
  destruct (Json.find_member "content" members) as [[| | |str| |]|] eqn:Hc;
    try done.
  intros Htags. rewrite bind_run. simpl. rewrite Hc, bind_run. simpl.
  destruct (JS.includes_ci str query); [done|].
  rewrite bind_run. simpl. rewrite Ht. by apply some_tag_run.
Qed.

Lemma JSON_readAllFiles_run s :
  JSON_readAllFiles s =
  (match readdir Mp (disk s) with
   | inr items =>
       Ok (map (fun file => Path.join MEMORY_DIR file)
             (filter (fun file => JS.endsWith file ".json" = true)
                (map fst items)))
   | inl e => Throw (FileOperationError "read all files" MEMORY_DIR
                       (Fs.message e "scandir" MEMORY_DIR))
   end, s).
Proof.
  unfold JSON_readAllFiles, try_catch. rewrite bind_run.
  unfold readdirSync. fold Mp. by destruct (readdir Mp (disk s)).
Qed.

(** The structured listing: the entries directly under the storage root
    whose names end in the suffix, whatever kind of entry they are. *)
Lemma JSON_readAllFiles_direct s all path :
  readAllFiles jsonManager s = (Ok all, s) ->
  path ∈ all <->
  exists items file,
    readdir Mp (disk s) = inr items /\ file ∈ map fst items /\
    JS.endsWith file ".json" = true /\ path = Path.join MEMORY_DIR file.
Proof.
  cbn [readAllFiles jsonManager]. rewrite JSON_readAllFiles_run.
  destruct (readdir Mp (disk s)) as [e|items]; [done|].
  intros [= <-]. rewrite list_elem_of_fmap. split.
  - intros (file & -> & Hin). apply list_elem_of_filter in Hin as [He Hin].
    by exists items, file.
  - intros (items' & file & [= <-] & Hin & He & ->). exists file.
    split; [done|]. by apply list_elem_of_filter.
Qed.

Lemma file_predicate_ok query file s b s1 :
  (content ← readFileSync file;
   memory ← JSON_parse content;
   memory_matches memory query) s = (Ok b, s1) ->
  s1 = s /\ b = file_matches query (disk s) file.
Proof.
  unfold file_matches. rewrite bind_run, readFileSync_run.
  destruct (read (resolve file) (disk s)) as [e|text]; [done|].
  rewrite bind_run, JSON_parse_run.
  destruct (Json.parse text) as [memory|]; [|done].
  apply memory_matches_ok.
Qed.

(** The structured search over ASCII text: when the query, and the
    content and the tags of every listed record, are ASCII and the search
    returns, it returns exactly the listed paths whose file holds a
    record that matches, in listing order. *)
Theorem JSON_fuzzySearch_exact query s all files s' :
  readAllFiles jsonManager s = (Ok all, s) ->
  is_ascii query = true ->
  forallb (ascii_file (disk s)) all = true ->
  fuzzySearch jsonManager query s = (Ok files, s') ->
  s' = s /\ files = List.filter (file_matches query (disk s)) all.
Proof.
  cbn [fuzzySearch readAllFiles jsonManager]. intros Hall _ _.
  unfold JSON_fuzzySearch, try_catch. rewrite bind_run, Hall.
  match goal with
  | |- context [filterM ?f ?l s] =>
      destruct (filterM f l s) as [[r|e] s1] eqn:Hrun; [|done];
      apply (filterM_ok f (file_matches query (disk s))) in Hrun
        as [-> ->]
  end.
  - by intros [= <- <-].
  - intros x b s2. apply file_predicate_ok.
Qed.

(** It does return when every listed path holds a record of the
    declared shape; the query, and the content and the tags of the
    records, are ASCII. *)
Theorem JSON_fuzzySearch_returns query s all :
  readAllFiles jsonManager s = (Ok all, s) ->
  (forall file, file ∈ all ->
     exists text memory,
       read (resolve file) (disk s) = inr text /\
       Json.parse text = Some memory /\ MemorySchema memory = true) ->
  is_ascii query = true ->
  forallb (ascii_file (disk s)) all = true ->
  fuzzySearch jsonManager query s
  = (Ok (List.filter (file_matches query (disk s)) all), s).
Proof.
  cbn [fuzzySearch readAllFiles jsonManager]. intros Hall Hrec _ _.
  unfold JSON_fuzzySearch, try_catch. rewrite bind_run, Hall.
  rewrite (filterM_total _ (file_matches query (disk s))); [done|].
  intros file Hin. destruct (Hrec file Hin) as (text & memory & Hr & Hp & Hm).
  unfold file_matches. rewrite bind_run, readFileSync_run, Hr.
  rewrite bind_run, JSON_parse_run, Hp. by apply memory_matches_run.
Qed.

(** *** The raw search *)

(** The raw search reads each listed path, which already begins with
    the storage root, through [readFileContent], which joins it to the
    storage root once more; it throws as soon as one of the paths so
    doubled names no file. *)
Theorem RAW_fuzzySearch_fails query s files file e :
  readAllFiles rawManager s = (Ok files, s) ->
  file ∈ files ->
  read (Fp file) (disk s) = inl e ->
  is_ok (fuzzySearch rawManager query s).1 = false.
Proof.
  cbn [fuzzySearch readAllFiles rawManager]. intros Hall Hin Hr.
  unfold RAW_fuzzySearch. rewrite try_catch_ok, bind_run, Hall.
  apply filterM_throws with file; [|done|].
  - intros y. rewrite bind_run, RAW_readFileContent_run.
    by destruct (read (Fp y) (disk s)).
  - by rewrite bind_run, RAW_readFileContent_run, Hr.
Qed.

(** *** The handler *)

Lemma keeps_dispatch c request : keeps_graph (dispatch c request).
Proof.
  unfold dispatch. cbn zeta.
  destruct (decide (params_name request = "MODE_JSON"));
    [destruct (keeps_manager jsonManager) as (?&?&?&?&?&?&?&?&?); [by left|]
    |destruct (keeps_manager rawManager) as (?&?&?&?&?&?&?&?&?); [by right|]];
    keeps.
Qed.

(** No request changes the tag graph: [connectTags], the one operation
    that writes to it, is called from nowhere. *)
Theorem callTool_keeps_graph c request s :
  memoryGraph (callTool c request s).2 = memoryGraph s.
Proof.
  unfold callTool. pose proof (keeps_dispatch c request s) as H.
  by destruct (dispatch c request s) as [[result|e] s1].
Qed.

(** The response always has the one item of type "text". *)
Lemma callTool_type c request s :
  content_type (callTool c request s).1 = "text".
Proof.
  unfold callTool. by destruct (dispatch c request s) as [[result|e] s1].
Qed.

(** Whatever the [try] block throws becomes the text of the response. *)
Lemma callTool_error c request s message s' :
  dispatch c request s = (Throw message, s') ->
  callTool c request s = (text_result (js_string ("Error: " +:+ message)), s').
Proof. unfold callTool. by intros ->. Qed.

Lemma callTool_result c request s result s' :
  dispatch c request s = (Ok result, s') ->
  callTool c request s = (text_result result, s').
Proof. unfold callTool. by intros ->. Qed.

(** An action outside the [switch] is answered with its name, and
    nothing is touched. *)
Lemma callTool_unknown_action c request s :
  let action := arg (params_arguments request) "action" in
  Forall (fun a => strict_equal action a = false) actions ->
  callTool c request s
  = (text_result
       (js_string ("Error: Unknown action: " +:+ Json.toString_opt action)),
     s).
Proof.
  intros action Hall. apply callTool_error. unfold dispatch. cbn zeta.
  fold action. unfold actions in Hall.
  repeat (apply Forall_cons in Hall as [-> Hall]). done.
Qed.

Lemma callTool_unknown_name c request s name :
  arg (params_arguments request) "action" = Some (Json.Str name) ->
  name ∉ actions ->
  exists text,
    callTool c request s = (text_result (js_string text), s) /\
    occurs_in name text.
Proof.
  intros Ha Hname. eexists. split.
  - apply callTool_unknown_action. rewrite Ha. apply Forall_forall.
    intros a Hin. simpl. apply bool_decide_eq_false.
    intros ->. by apply Hname.
  - rewrite Ha. exists "Error: Unknown action: ", "".
    cbn [Json.toString_opt Json.toString].
    by rewrite StrFacts.append_nil_r.
Qed.

Lemma yields_ret text : yields_string (mret (js_string text)).
Proof. intros s. by exists text. Qed.

Lemma yields_throw message : yields_string (throw message).
Proof. done. Qed.

Lemma yields_bind {A} (m : M A) (k : A -> M jsval) :
  (forall a, yields_string (k a)) -> yields_string (m ≫= k).
Proof.
  intros Hk s. rewrite bind_run. destruct (m s) as [[a|e] s1]; [|done].
  apply Hk.
Qed.

Ltac yields_step :=
  match goal with
  | |- yields_string (mret (js_string _)) => apply yields_ret
  | |- yields_string (ret (js_string _)) => apply (yields_ret _)
  | |- yields_string (throw _) => apply yields_throw
  | |- yields_string (_ ≫= _) => apply yields_bind; intros ?
  | |- yields_string (if ?b then _ else _) => destruct b eqn:?
  end.

(** Every request but the structured [read_file_content] is answered
    with a string. *)
Lemma dispatch_yields_string c request :
  ~ (params_name request = "MODE_JSON" /\
     strict_equal (arg (params_arguments request) "action")
       "read_file_content" = true) ->
  yields_string (dispatch c request).
Proof.
  intros Hnot. unfold dispatch. cbn zeta.
  repeat yields_step; try tauto.
  destruct (decide (params_name request = "MODE_JSON")); [tauto|].
  cbn [readFileContent rawManager]. repeat yields_step.
Qed.

Theorem callTool_text_is_string c request s :
  ~ (params_name request = "MODE_JSON" /\
     strict_equal (arg (params_arguments request) "action")
       "read_file_content" = true) ->
  exists text, content_text (callTool c request s).1 = js_string text.
Proof.
  intros Hnot. pose proof (dispatch_yields_string c request Hnot s) as H.
  unfold callTool. destruct (dispatch c request s) as [[result|e] s1].
  - destruct H as [text ->]. by exists text.
  - by eexists.
Qed.

Lemma strict_equal_true v a :
  strict_equal v a = true -> v = Some (Json.Str a).
Proof.
  destruct v as [[| | |x| |]|]; try done. simpl.
  by intros ->%bool_decide_eq_true.
Qed.

(** Evaluate the tests of the [switch] once the action is known. *)
Ltac switch :=
  repeat match goal with
         | |- context [strict_equal (Some (Json.Str ?x)) ?y] =>
             let b := eval vm_compute in
                        (strict_equal (Some (Json.Str x)) y) in
             change (strict_equal (Some (Json.Str x)) y) with b
         end;
  cbv iota.

(** A request whose arguments fail the check of its action is answered
    by the message of that check, before the store is touched. *)
Lemma dispatch_rejects c request s a :
  let args := params_arguments request in
  a ∈ actions ->
  strict_equal (arg args "action") a = true ->
  existsb (unusable args) (required a) = true ->
  dispatch c request s = (Throw (complaint a), s).
Proof.
  intros args Hin Ha%strict_equal_true Hbad. unfold dispatch. cbn zeta.
  fold args. rewrite Ha. unfold actions in Hin.
  repeat (apply elem_of_cons in Hin as [->|Hin]); [..|by inversion Hin];
    switch;
    match type of Hbad with
    | existsb _ (required ?x) = true =>
        let r := eval vm_compute in (required x) in
        change (required x) with r in Hbad
    end;
    cbn [existsb] in Hbad; unfold unusable in Hbad;
    repeat match goal with
           | |- context [falsy ?v] => destruct (falsy v)
           | |- context [not_string ?v] => destruct (not_string v)
           end; try done.
Qed.

(** What the logging line throws leaves the handler, and the store is as
    it was. *)
Lemma CallToolHandler_throws c request s :
  printable (arg (params_arguments request) "action") = false ->
  CallToolHandler c request s = (Throw TypeError_primitive, s).
Proof. intros H. unfold CallToolHandler. by rewrite H. Qed.

(** Once the logging line is past, the handler returns one item of type
    "text", and nothing is thrown: whatever the store or the checks of
    the arguments throw comes back as the text "Error: " followed by the
    message.  In particular a request that fails the check of its action
    gets the message of that check, and an action name outside the
    [switch] gets an error that names it; neither touches the store. *)
Lemma CallToolHandler_catches c request s :
  let args := params_arguments request in
  let action := arg args "action" in
  printable action = true ->
  exists response s',
    CallToolHandler c request s = (Ok response, s') /\
    content_type response = "text" /\
    (forall message s1,
       dispatch c request s = (Throw message, s1) ->
       response = text_result (js_string ("Error: " +:+ message))
       /\ s' = s1) /\
    (forall a,
       a ∈ actions -> strict_equal action a = true ->
       existsb (unusable args) (required a) = true ->
       response = text_result (js_string ("Error: " +:+ complaint a))
       /\ s' = s) /\
    (forall name,
       action = Some (Json.Str name) -> name ∉ actions ->
       response = text_result
                    (js_string ("Error: Unknown action: " +:+ name))
       /\ s' = s).
Proof.
  intros args action Hprint.
  exists (callTool c request s).1, (callTool c request s).2.
  split.
  { unfold CallToolHandler. fold args action. rewrite Hprint.
    by destruct (callTool c request s). }
  split; [apply callTool_type|].
  split.
  { intros message s1 H. by rewrite (callTool_error _ _ _ _ _ H). }
  split.
  - intros a Hin Ha Hbad.
    by rewrite (callTool_error _ _ _ _ _ (dispatch_rejects c request s a
                                          Hin Ha Hbad)).
  - intros name Hname Hout.
    assert (Hall : Forall (fun a => strict_equal action a = false) actions).
    { apply Forall_forall. intros a Ha. rewrite Hname. simpl.
      apply bool_decide_eq_false. by intros ->. }
    rewrite (callTool_unknown_action c request s Hall).
    fold args action. by rewrite Hname.
Qed.

(** *** Text that is not JSON *)

(** The structured append does throw, and writes nothing, when the file
    holds no JSON text at all. *)
Lemma JSON_appendContent_SyntaxError c file content s text :
  read (Fp file) (disk s) = inr text -> Json.parse text = None ->
  appendContent jsonManager c file content s
  = (Throw (FileOperationError "append content" file SyntaxError), s).
Proof.
  intros Hr Hp. cbn [appendContent jsonManager].
  unfold JSON_appendContent, try_catch. cbn zeta.
  rewrite bind_run, readFileSync_run. fold (Fp file). rewrite Hr.
  by rewrite bind_run, JSON_parse_run, Hp.
Qed.

End with_process.

End OpFacts.

(** ** The sample installation *)

Module SampleFacts.
Import Sample Fs Store StoreFacts OpFacts.

(** C1, as stated, fails in structured mode: after [create_file] of
    "note" has returned, [read_file_content] of "note" throws, because
    the record went to "note.json".  It also fails, in either mode, for
    the one name under which the store keeps its manifest: what was
    written there is overwritten by the resync that ends the create.
    And it fails in raw mode for a content string with a surrogate that
    stands alone: the file gets the three bytes of U+FFFD, and that is
    what is read back. *)
Lemma read_under_create_name_fails :
  (createFile jsonManager noon "note" "Some Content" started
   = (Ok tt, noted)
   /\ readFileContent jsonManager "note" noted
      = (Throw ("Failed to read file content at note: "
                +:+ "ENOENT: no such file or directory, "
                +:+ "open '/app/build/MEMORY_DIR/note'"), noted)
   /\ (readFileContent jsonManager "note" noted).1
      ≠ Ok (js_string "Some Content"))
  /\
  (let s' := (createFile rawManager noon "DIRECTORY.txt" "hello" started).2 in
   createFile rawManager noon "DIRECTORY.txt" "hello" started = (Ok tt, s')
   /\ readFileContent rawManager "DIRECTORY.txt" s'
      = (Ok (js_string
               (tree_text MEMORY_DIR
                  (Dir [("ARCHIVE", Dir []); ("DIRECTORY.txt", File "")]))),
         s')
   /\ (readFileContent rawManager "DIRECTORY.txt" s').1
      ≠ Ok (js_string "hello"))
  /\
  (let content := [0xD83D]%N in
   let stored := Utf16.pack [0xEF; 0xBF; 0xBD]%N in
   let s' := (createFile rawManager noon "half.txt" (Utf16.encode content)
                started).2 in
   createFile rawManager noon "half.txt" (Utf16.encode content) started
   = (Ok tt, s')
   /\ readFileContent rawManager "half.txt" s' = (Ok (js_string stored), s')
   /\ Utf16.decode stored = [0xFFFD]%N
   /\ Utf16.decode stored ≠ content).
Proof.
  split; [|split]; (split; [|split; [|try split]]); vm_compute;
    [reflexivity|reflexivity|discriminate
    |reflexivity|reflexivity|discriminate
    |reflexivity|reflexivity|reflexivity|discriminate].
Qed.

(** The amended C1 on the sample store, in raw mode, for a content with
    an accented letter and a surrogate pair: "é" and U+1F600. *)
Lemma create_then_read_witness :
  let content := [0xE9; 0xD83D; 0xDE00]%N in
  let s' := (createFile rawManager noon "face.txt" (Utf16.encode content)
               started).2 in
  Utf16.well_formed content = true
  /\ createFile (manager_of Raw) noon "face.txt" (Utf16.encode content)
       started = (Ok tt, s')
  /\ segs (Fp (stored_as Raw "face.txt")) ≠ segs DFp
  /\ exists stored,
       readFileContent (manager_of Raw) (stored_as Raw "face.txt") s'
       = (Ok (js_string stored), s')
       /\ Utf16.decode stored = content.
Proof.
  cbv zeta.
  split; [vm_compute; reflexivity|].
  split; [vm_compute; reflexivity|].
  split; [vm_compute; discriminate|].
  apply (create_then_read Raw noon "face.txt" [0xE9; 0xD83D; 0xDE00]%N
           started);
    [vm_compute; reflexivity|vm_compute; reflexivity
    |vm_compute; discriminate].
Defined.

(** C2, as stated, fails where the operation itself brings the manifest
    into being: the tree is computed before the manifest is written, so
    the manifest does not list itself.  That happens when the manifest
    is moved away, and when the storage root was there without one. *)
Lemma manifest_stale_when_created_by_the_operation :
  (exists s',
     perform rawManager noon (MoveFile "DIRECTORY.txt" "old.txt") started
     = (Ok tt, s') /\ ~ manifest_fresh s') /\
  (exists s',
     perform jsonManager noon (CreateFile "note" "Some Content") bare
     = (Ok tt, s') /\ ~ manifest_fresh s').
Proof.
  split; eexists; (split; [vm_compute; reflexivity|]);
    intros (tree & Htree & Hread); vm_compute in Htree, Hread;
    congruence.
Qed.

(** The amended C2 on the sample store. *)
Lemma manifest_fresh_after_mutation_witness :
  manifest_present started
  /\ ~ moves_manifest (CreateFile "note" "Some Content")
  /\ perform jsonManager noon (CreateFile "note" "Some Content") started
     = (Ok tt, noted)
  /\ manifest_fresh noted.
Proof.
  assert (Hp : manifest_present started).
  { eexists. vm_compute. reflexivity. }
  assert (Hm : ~ moves_manifest (CreateFile "note" "Some Content")).
  { intros []. }
  assert (Hr : perform jsonManager noon (CreateFile "note" "Some Content")
                 started = (Ok tt, noted)).
  { vm_compute. reflexivity. }
  split; [exact Hp|]. split; [exact Hm|]. split; [exact Hr|].
  exact (manifest_fresh_after_mutation jsonManager noon
           (CreateFile "note" "Some Content") started noted
           (or_introl eq_refl) Hp Hm Hr).
Defined.

(** C6, as stated, fails: two records created within one millisecond
    carry the same identifier. *)
Lemma same_millisecond_same_id :
  createFile jsonManager noon "note" "Some Content" started = (Ok tt, noted)
  /\ createFile jsonManager noon "second" "Other Content" noted
     = (Ok tt, twins)
  /\ (field "id" <$> stored_record "note.json" twins)
     = Some (js_string "1700000000000")
  /\ (field "id" <$> stored_record "second.json" twins)
     = Some (js_string "1700000000000").
Proof. split; [|split; [|split]]; vm_compute; reflexivity. Qed.

(** The amended C6 on the sample store. *)
Lemma ids_differ_iff_clock_differs_witness :
  exists r1 r2,
    stored_record "note.json" apart = Some r1 /\
    stored_record "second.json" apart = Some r2 /\
    field "id" r1 = js_string "1700000000000" /\
    field "id" r2 = js_string "1700000000007" /\
    (field "id" r1 ≠ field "id" r2 <-> Date_now noon ≠ Date_now later).
Proof.
  apply (ids_differ_iff_clock_differs noon later "note" "second"
           "Some Content" "Other Content" started noted apart);
    vm_compute; (reflexivity || discriminate).
Defined.


(** C5, as stated, fails in raw mode when the two strings are the two
    halves of a surrogate pair: each append writes the three bytes of
    U+FFFD for its half, where the append of the whole pair writes the
    four bytes of U+1F600. *)
Lemma split_pair_appended_twice :
  let a := [0xD83D]%N in
  let b := [0xDE00]%N in
  let s1 := (createFile rawManager noon "face.txt" "Hi " started).2 in
  let half := (appendContent rawManager noon "face.txt" (Utf16.encode a)
                 s1).2 in
  let twice := (appendContent rawManager noon "face.txt" (Utf16.encode b)
                  half).2 in
  let once := (appendContent rawManager noon "face.txt"
                 (Utf16.encode (a ++ b)) s1).2 in
  createFile rawManager noon "face.txt" "Hi " started = (Ok tt, s1)
  /\ appendContent rawManager noon "face.txt" (Utf16.encode a) s1
     = (Ok tt, half)
  /\ appendContent rawManager noon "face.txt" (Utf16.encode b) half
     = (Ok tt, twice)
  /\ appendContent rawManager noon "face.txt" (Utf16.encode (a ++ b)) s1
     = (Ok tt, once)
  /\ readFileContent rawManager "face.txt" twice
     = (Ok (js_string
              ("Hi " +:+ Utf16.pack [0xEF; 0xBF; 0xBD; 0xEF; 0xBF; 0xBD]%N)),
        twice)
  /\ readFileContent rawManager "face.txt" once
     = (Ok (js_string ("Hi " +:+ Utf16.pack [0xF0; 0x9F; 0x98; 0x80]%N)),
        once)
  /\ (readFileContent rawManager "face.txt" twice).1
     ≠ (readFileContent rawManager "face.txt" once).1
  /\ twice ≠ once.
Proof.
  cbv zeta. repeat split; vm_compute; (reflexivity || discriminate).
Qed.

(** The amended C5 on the sample store, for "é" and U+1F600. *)
Lemma append_twice_is_append_once_witness :
  let a := [0xE9]%N in
  let b := [0xD83D; 0xDE00]%N in
  Utf16.well_formed a = true
  /\ Utf16.well_formed b = true
  /\ (let s1 := (createFile rawManager noon "note" "Some Content"
                   started).2 in
      (appendContent rawManager later "note" (Utf16.encode b)
         (appendContent rawManager later "note" (Utf16.encode a) s1).2).2
      = (appendContent rawManager later "note" (Utf16.encode (a ++ b))
           s1).2)
  /\ (let s1 := (createFile jsonManager noon "note" "Some Content"
                   started).2 in
      (readFileContent jsonManager "note.json"
         (appendContent jsonManager later "note.json" (Utf16.encode b)
            (appendContent jsonManager later "note.json" (Utf16.encode a)
               s1).2).2).1
      = (readFileContent jsonManager "note.json"
           (appendContent jsonManager later "note.json"
              (Utf16.encode (a ++ b)) s1).2).1).
Proof.
  cbv zeta.
  split; [vm_compute; reflexivity|].
  split; [vm_compute; reflexivity|].
  apply (append_twice_is_append_once noon later later later "note"
           "Some Content" "note.json" [0xE9]%N [0xD83D; 0xDE00]%N started);
    vm_compute; reflexivity.
Defined.

(** C5 on the sample store: both orders leave "Some Content, and more"
    as the content of the record. *)
Example append_twice_sample :
  (readFileContent jsonManager "note.json"
     (appendContent jsonManager later "note.json" " more"
        (appendContent jsonManager later "note.json" ", and" noted).2).2).1
  = Ok (js_string "Some Content, and more")
  /\ (readFileContent jsonManager "note.json"
        (appendContent jsonManager later "note.json" ", and more"
           noted).2).1
     = Ok (js_string "Some Content, and more").
Proof. split; vm_compute; reflexivity. Qed.

(** C3 at a failing input: a structured [create_file] request that
    carries two tags answers with success, stores a record whose [tags]
    is the empty array and leaves the tag graph empty, although
    [connectTags] on those tags would have linked them. *)
Theorem create_file_drops_tags :
  let out := callTool noon create_with_tags started in
  content_text out.1
  = js_string "File note created successfully in /app/build/MEMORY_DIR"
  /\ (field "tags" <$> stored_record "note.json" out.2)
     = Some (Some (Json.Arr []))
  /\ memoryGraph out.2 = ∅
  /\ memoryGraph (connectTags ["work"; "idea"] out.2).2
     = {[ "work" := {[ "idea" ]}; "idea" := {[ "work" ]} ]}.
Proof. cbv zeta. split; [|split; [|split]]; vm_compute; reflexivity. Qed.

(** C4 at a failing input: with one raw file that holds "Hello world",
    the raw search for "hello" lists the file, whose content does match,
    and then throws on the first path it reads, the manifest's, joined to
    the storage root a second time. *)
Theorem raw_search_throws :
  readAllFiles rawManager greeted
  = (Ok ["/app/build/MEMORY_DIR/DIRECTORY.txt";
         "/app/build/MEMORY_DIR/greeting.txt"], greeted)
  /\ JS.includes_ci "Hello world" "hello" = true
  /\ callTool noon (search "MODE_RAW" "hello") greeted
     = (text_result
          (js_string
             ("Error: Failed to fuzzy search at hello: "
              +:+ "Failed to read file content at "
              +:+ "/app/build/MEMORY_DIR/DIRECTORY.txt: "
              +:+ "ENOENT: no such file or directory, open "
              +:+ "'/app/build/MEMORY_DIR/app/build/MEMORY_DIR/DIRECTORY.txt'")),
        greeted).
Proof. split; [|split]; vm_compute; reflexivity. Qed.

(** C7 at a failing input: the file holds the text of an empty object,
    which is no record, and the structured [append_content] answers with
    success and writes a record-like object back. *)
Theorem append_accepts_what_is_no_record :
  let out := callTool later append_to_stray stray in
  stored_record "stray.json" stray = Some (Json.Obj [])
  /\ MemorySchema (Json.Obj []) = false
  /\ content_text out.1
     = js_string "Content appended to stray.json in /app/build/MEMORY_DIR"
  /\ stored_record "stray.json" out.2
     = Some (Json.Obj [("content", Json.Str "undefineda");
                       ("timestamp", Json.Str "2023-11-14T22:13:20.007Z")]).
Proof. cbv zeta. split; [|split; [|split]]; vm_compute; reflexivity. Qed.

(** The same missing check shows in [read_file_content]: on that file
    the structured read returns the [content] the object does not have,
    and the text of the answer is [undefined]. *)
Example read_answers_without_text :
  callTool noon read_stray stray
  = ({| content_type := "text"; content_text := None |}, stray).
Proof. vm_compute. reflexivity. Qed.

(** C10 at a failing input: on the store as started the raw listing has
    the manifest, whose text contains "ARCHIVE", and the raw search for
    "ARCHIVE" throws instead of returning the manifest's path. *)
Theorem raw_search_for_manifest_text_throws :
  readAllFiles rawManager started
  = (Ok ["/app/build/MEMORY_DIR/DIRECTORY.txt"], started)
  /\ match (readFileSync DIRECTORY_FILE started).1 with
     | Ok text => JS.includes_ci text "ARCHIVE"
     | Throw _ => false
     end = true
  /\ callTool noon (search "MODE_RAW" "ARCHIVE") started
     = (text_result
          (js_string
             ("Error: Failed to fuzzy search at ARCHIVE: "
              +:+ "Failed to read file content at "
              +:+ "/app/build/MEMORY_DIR/DIRECTORY.txt: "
              +:+ "ENOENT: no such file or directory, open "
              +:+ "'/app/build/MEMORY_DIR/app/build/MEMORY_DIR/DIRECTORY.txt'")),
        started).
Proof. split; [|split]; vm_compute; reflexivity. Qed.

(** The rest of C4 on the sample store: the structured search returns
    the record whose tag matches although its content does not, and
    leaves out the record of "note". *)
Example structured_search_by_tag :
  JS.includes_ci "buy milk" "grocer" = false
  /\ fuzzySearch jsonManager "grocer" tagged
     = (Ok ["/app/build/MEMORY_DIR/list.json"], tagged)
  /\ fuzzySearch jsonManager "CONTENT" tagged
     = (Ok ["/app/build/MEMORY_DIR/note.json"], tagged).
Proof. split; [|split]; vm_compute; reflexivity. Qed.

(** The rest of C10 on the sample store: the raw listing has the
    manifest and the file in the archive. *)
Example raw_listing_sample :
  readAllFiles rawManager archived
  = (Ok ["/app/build/MEMORY_DIR/ARCHIVE/greeting.txt";
         "/app/build/MEMORY_DIR/DIRECTORY.txt"], archived).
Proof. vm_compute. reflexivity. Qed.

(** C8 at a failing input: a request whose action is the object
    [{"toString": 1}] makes the handler throw, from the line that logs
    the request, which stands before the [try]: no payload is returned.
    And on the file that holds the text of an empty object the structured
    [read_file_content] is answered with an item whose text is
    [undefined], which is no text. *)
Theorem handler_throws_before_try :
  let request :=
    call "MODE_RAW" [("action", Json.Obj [("toString", Json.Num "1")])] in
  CallToolHandler noon request started
  = (Throw "Cannot convert object to primitive value", started)
  /\ CallToolHandler noon read_stray stray
     = (Ok {| content_type := "text"; content_text := None |}, stray).
Proof. cbv zeta. split; vm_compute; reflexivity. Qed.

(** An action the handler does not know is answered with its name. *)
Example unknown_action_is_named :
  CallToolHandler noon
    (call "MODE_RAW" [("action", Json.Str "delete_file")]) started
  = (Ok (text_result (js_string "Error: Unknown action: delete_file")),
     started)
  /\ occurs_in "delete_file" "Error: Unknown action: delete_file".
Proof.
  split; [vm_compute; reflexivity|].
  by exists "Error: Unknown action: ", "".
Qed.

(** A request without its arguments, an action the handler does not
    know, and a failure of the store each come back as the text of the
    response. *)
Example errors_become_text :
  callTool noon (call "MODE_RAW" [("action", Json.Str "create_file")]) started
  = (text_result
       (js_string "Error: Name and content are required for creating a file"),
     started)
  /\ callTool noon (call "MODE_RAW" [("action", Json.Str "delete_file")])
       started
     = (text_result (js_string "Error: Unknown action: delete_file"),
        started)
  /\ callTool noon
       (call "MODE_RAW" [("action", Json.Str "read_file_content");
                         ("name", Json.Str "nothing.txt")]) started
     = (text_result
          (js_string
             ("Error: Failed to read file content at nothing.txt: "
              +:+ "ENOENT: no such file or directory, "
              +:+ "open '/app/build/MEMORY_DIR/nothing.txt'")),
        started).
Proof. split; [|split]; vm_compute; reflexivity. Qed.

End SampleFacts.

(** ** Paths and the layout of the store *)

Module PathFacts.
Import Path.

Lemma split_nonempty c s : JS.split c s ≠ [].
Proof.
  destruct s as [|a s]; simpl; [done|]. case_decide; [done|].
  by destruct (JS.split c s).
Qed.

Lemma split_app c x y :
  JS.split c (x +:+ String c y) = JS.split c x ++ JS.split c y.
Proof.
  induction x as [|a x IH]; simpl.
  - by rewrite decide_True.
  - case_decide; [by rewrite IH|]. rewrite IH.
    pose proof (split_nonempty c x). by destruct (JS.split c x).
Qed.

Lemma split_one_segment c s seg :
  seg ∈ JS.split c s -> JS.split c seg = [seg].
Proof.
  revert seg. induction s as [|a s IH]; intros seg; simpl.
  - by intros ->%list_elem_of_singleton.
  - case_decide as Ha.
    + intros [->|H]%elem_of_cons; [done|]. by apply IH.
    + pose proof (split_nonempty c s) as Hne.
      destruct (JS.split c s) as [|h t] eqn:E; [done|].
      intros [->|H]%elem_of_cons.
      * simpl. rewrite decide_False by done.
        rewrite (IH h) by left. done.
      * apply IH. by right.
Qed.

Lemma split_join c l :
  l ≠ [] -> Forall (fun seg => JS.split c seg = [seg]) l ->
  JS.split c (JS.join (String c "") l) = l.
Proof.
  induction l as [|x l IH]; [done|]. intros _ Hall.
  apply Forall_cons in Hall as [Hx Hl].
  destruct l as [|y l]; [done|].
  change (JS.join (String c "") (x :: y :: l))
    with (x +:+ String c "" +:+ JS.join (String c "") (y :: l)).
  change (String c "" +:+ ?r) with (String c r).
  rewrite split_app, Hx, IH by done. done.
Qed.


(** *** [normalizeString] as a machine over a stack *)

Lemma normalizeString_app b l1 : forall acc l2,
  normalizeString b acc (l1 ++ l2)
  = normalizeString b (rev (normalizeString b acc l1)) l2.
Proof.
  induction l1 as [|seg l1 IH]; intros acc l2; simpl.
  - by rewrite rev_involutive.
  - repeat case_decide; try apply IH.
    destruct acc as [|top acc]; [destruct b|case_decide]; apply IH.
Qed.

Lemma normalizeString_kept b l : forall acc,
  Forall kept l -> normalizeString b acc l = rev acc ++ l.
Proof.
  induction l as [|seg l IH]; intros acc Hl; simpl.
  - by rewrite app_nil_r.
  - apply Forall_cons in Hl as [(Ka & Kb & Kc) Hl].
    rewrite !decide_False by done. rewrite IH by done.
    simpl. by rewrite <- app_assoc.
Qed.

Lemma normalizeString_empty_last b acc l :
  normalizeString b acc (l ++ [""]) = normalizeString b acc l.
Proof. rewrite normalizeString_app. simpl. apply rev_involutive. Qed.

(** Below the root the stack never holds a "..". *)
Lemma normalizeString_false_kept l : forall acc,
  Forall kept acc -> Forall kept (normalizeString false acc l).
Proof.
  induction l as [|seg l IH]; intros acc Hacc; simpl.
  - by apply Forall_rev.
  - repeat case_decide; try by apply IH.
    + destruct acc as [|top acc]; [by apply IH|].
      apply Forall_cons in Hacc as [(Ka & Kb & Kc) Hacc].
      rewrite decide_False by done. by apply IH.
    + apply IH. by constructor.
Qed.

(** What it returns has no empty segment. *)
Lemma normalizeString_nonempty b l : forall acc,
  Forall (fun seg => seg ≠ "") acc ->
  Forall (fun seg => seg ≠ "") (normalizeString b acc l).
Proof.
  induction l as [|seg l IH]; intros acc Hacc; simpl.
  - by apply Forall_rev.
  - repeat case_decide; try by apply IH.
    + destruct acc as [|top acc].
      * destruct b; apply IH; [by constructor|done].
      * case_decide; apply IH; [by constructor|].
        by apply Forall_cons in Hacc as [_ ?].
    + apply IH. by constructor.
Qed.

(** What it returns is made of what it was given. *)
Lemma normalizeString_elem b l : forall acc seg,
  seg ∈ normalizeString b acc l -> seg ∈ acc \/ seg ∈ l.
Proof.
  induction l as [|x l IH]; intros acc seg; simpl.
  - intros H. left. apply list_elem_of_In, in_rev.
    by apply list_elem_of_In.
  - intros H.
    assert (Hstep : forall acc',
              (forall y, y ∈ acc' -> y ∈ acc \/ y = x) ->
              seg ∈ normalizeString b acc' l -> seg ∈ acc \/ seg ∈ x :: l).
    { intros acc' Hsub H'. destruct (IH _ _ H') as [Hin|Hin].
      - destruct (Hsub _ Hin) as [?| ->]; [by left|right; by left].
      - right. by right. }
    repeat case_decide; subst.
    + apply (Hstep acc); [tauto|done].
    + apply (Hstep acc); [tauto|done].
    + destruct acc as [|top acc].
      * destruct b.
        -- apply (Hstep [".."]); [|done].
           intros y ->%list_elem_of_singleton. by right.
        -- apply (Hstep []); [|done]. intros y Hy. by inversion Hy.
      * case_decide.
        -- apply (Hstep (".." :: top :: acc)); [|done].
           intros y [->|Hy]%elem_of_cons; [by right|by left].
        -- apply (Hstep acc); [|done]. intros y Hy. left. by right.
    + apply (Hstep (x :: acc)); [|done].
      intros y [->|Hy]%elem_of_cons; [by right|by left].
Qed.

(** Above the root: the stack of a relative path is the stack of the
    same path taken from the root, over some number of "..". *)
Lemma normalizeString_relative l : forall acc k,
  Forall kept acc ->
  exists k',
    normalizeString true (acc ++ repeat ".." k) l
    = repeat ".." k' ++ normalizeString false acc l.
Proof.
  induction l as [|seg l IH]; intros acc k Hacc; simpl.
  - exists k. by rewrite rev_app_distr, rev_repeat.
  - repeat case_decide; try by apply IH.
    + destruct acc as [|top acc]; simpl.
      * destruct k as [|k]; simpl.
        -- apply (IH [] 1). done.
        -- apply (IH [] (S (S k))). done.
      * apply Forall_cons in Hacc as [(Ka & Kb & Kc) Hacc].
        rewrite !decide_False by done. by apply IH.
    + apply (IH (seg :: acc) k). by constructor.
Qed.

Lemma normalizeString_dots k l :
  normalizeString false [] (repeat ".." k ++ l) = normalizeString false [] l.
Proof. induction k as [|k IH]; simpl; [done|apply IH]. Qed.


(** *** [normalize], [join] and the walk of the result *)

Lemma join_empty l :
  Forall (fun seg => seg ≠ "") l -> JS.join "/" l = "" -> l = [].
Proof.
  destruct l as [|x [|y l]]; [done| |].
  - intros [Hx _]%Forall_cons. done.
  - intros [Hx _]%Forall_cons. simpl. by destruct x.
Qed.

Lemma normalized_segments b p :
  Forall (fun seg => JS.split slash seg = [seg])
    (normalizeString b [] (JS.split slash p)).
Proof.
  apply Forall_forall. intros seg Hin.
  apply normalizeString_elem in Hin as [Hin|Hin]; [by inversion Hin|].
  by apply split_one_segment with p.
Qed.

Lemma normalizeString_fixed l :
  Forall kept l -> normalizeString false [] l = l.
Proof. intros H. by rewrite normalizeString_kept. Qed.

(** Walking a normalized path is walking the path. *)
Lemma resolve_normalize p :
  Fs.segs (Fs.resolve (normalize p))
  = normalizeString false [] (JS.split slash p).
Proof.
  unfold normalize, Fs.resolve. cbn [Fs.segs].
  case_decide as Hp; [by subst|]. cbv zeta.
  set (u := normalizeString false [] (JS.split slash p)).
  assert (Hu : Forall kept u) by by apply normalizeString_false_kept.
  set (t := normalizeString (negb (JS.head_is slash p)) []
              (JS.split slash p)).
  assert (Ht : exists k, t = repeat ".." k ++ u).
  { unfold t. destruct (JS.head_is slash p); cbn [negb].
    - by exists 0.
    - apply (normalizeString_relative _ [] 0). done. }
  destruct Ht as [k Ht].
  assert (Hback : normalizeString false [] t = u).
  { by rewrite Ht, normalizeString_dots, normalizeString_fixed. }
  case_decide as Hbody.
  - apply join_empty in Hbody;
      [|by apply normalizeString_nonempty].
    rewrite Hbody in Hback. rewrite <- Hback.
    by destruct (JS.head_is slash p), (JS.last_is slash p).
  - assert (Hne : t ≠ []) by (intros E; by rewrite E in Hbody).
    assert (Hsplit : JS.split slash (JS.join "/" t) = t).
    { apply (split_join slash); [done|apply normalized_segments]. }
    destruct (JS.head_is slash p), (JS.last_is slash p).
    + change ("/" +:+ ?x) with ("" +:+ String slash x).
      change (?x +:+ "/") with (x +:+ String slash "").
      rewrite !split_app, Hsplit. simpl JS.split.
      change ([""] ++ ?l) with ("" :: l). cbn [normalizeString].
      rewrite decide_True by done.
      by rewrite normalizeString_empty_last.
    + change ("/" +:+ ?x) with ("" +:+ String slash x).
      rewrite StrFacts.append_nil_r, split_app, Hsplit. simpl JS.split.
      change ([""] ++ ?l) with ("" :: l). cbn [normalizeString].
      by rewrite decide_True by done.
    + change (?x +:+ "/") with (x +:+ String slash "").
      change ("" +:+ ?x) with x.
      rewrite split_app, Hsplit. simpl JS.split.
      by rewrite normalizeString_empty_last.
    + change ("" +:+ ?x) with x.
      by rewrite StrFacts.append_nil_r, Hsplit.
Qed.

(** Walking [path.join(a, b)] is walking [b] from where [a] leads. *)
Lemma resolve_join a b :
  Fs.segs (Fs.resolve (join a b))
  = normalizeString false (rev (Fs.segs (Fs.resolve a))) (JS.split slash b).
Proof.
  unfold join. repeat case_decide; subst; rewrite resolve_normalize.
  - reflexivity.
  - cbn. by rewrite rev_involutive.
  - change ("/" +:+ b) with (String slash b).
    by rewrite split_app, normalizeString_app.
Qed.


(** *** A name of one segment under a directory *)

Lemma last_is_app c x y :
  y ≠ "" -> JS.last_is c (x +:+ y) = JS.last_is c y.
Proof.
  intros Hy. induction x as [|a x IH]; [done|].
  change (String a x +:+ y) with (String a (x +:+ y)).
  cbn [JS.last_is]. destruct (x +:+ y) eqn:E; [|done].
  destruct x; [by subst|done].
Qed.

Lemma one_segment_last c s :
  JS.split c s = [s] -> JS.last_is c s = false.
Proof.
  induction s as [|a s IH]; [done|]. simpl. case_decide as Ha; [done|].
  pose proof (split_nonempty c s).
  destruct (JS.split c s) as [|h [|h' t]] eqn:E; try done.
  intros [= ->]. destruct s as [|b s]; [by apply bool_decide_eq_false|].
  by apply IH.
Qed.

Lemma split_trailing c s :
  JS.last_is c s = true -> exists l, JS.split c s = l ++ [""].
Proof.
  induction s as [|a s IH]; [done|]. cbn [JS.last_is JS.split].
  destruct s as [|b s].
  - intros ->%bool_decide_eq_true. rewrite decide_True by done.
    by exists [""].
  - intros [l Hl]%IH. rewrite Hl. case_decide.
    + by exists ("" :: l).
    + destruct l as [|h l]; simpl.
      * exfalso. simpl in Hl. pose proof (split_nonempty c s).
        case_decide; [by injection Hl|].
        by destruct (JS.split c s).
      * by exists (String a h :: l).
Qed.

Lemma join_ends l name :
  exists pre, JS.join "/" (l ++ [name]) = pre +:+ name.
Proof.
  induction l as [|x l [pre IH]]; [by exists ""|].
  destruct l as [|y l].
  - exists (x +:+ "/"). simpl. by rewrite StrFacts.append_assoc.
  - exists (x +:+ "/" +:+ pre).
    change (JS.join "/" ((x :: y :: l) ++ [name]))
      with (x +:+ "/" +:+ JS.join "/" ((y :: l) ++ [name])).
    by rewrite IH, !StrFacts.append_assoc.
Qed.

Lemma normalize_ends p l name :
  kept name -> JS.split slash p = l ++ [name] ->
  JS.last_is slash (normalize p) = false.
Proof.
  intros (Ka & Kb & Kc) Hp. unfold normalize.
  case_decide as Hne; [done|]. cbv zeta.
  assert (Htrail : JS.last_is slash p = false).
  { destruct (JS.last_is slash p) eqn:E; [|done].
    destruct (split_trailing _ _ E) as [l' Hl']. rewrite Hl' in Hp.
    apply app_inj_tail in Hp as [_ Hp]. done. }
  rewrite Htrail, Hp, normalizeString_app.
  rewrite (normalizeString_kept _ [name]) by by repeat constructor.
  rewrite rev_involutive.
  destruct (join_ends (normalizeString (negb (JS.head_is slash p)) [] l)
              name) as [pre ->].
  case_decide as Hbody.
  { destruct pre; [done|discriminate]. }
  rewrite StrFacts.append_nil_r, <- StrFacts.append_assoc.
  rewrite last_is_app by done.
  apply (one_segment_last slash).
  apply split_one_segment with p. rewrite Hp.
  apply elem_of_app. right. by left.
Qed.

(** A name of one segment joined to a directory is that name, directly
    under the directory. *)
Lemma resolve_join_name a name :
  kept name -> one_segment name ->
  Fs.resolve (join a name)
  = {| Fs.segs := Fs.segs (Fs.resolve a) ++ [name]; Fs.dir_only := false |}.
Proof.
  intros Hk Hone.
  assert (Hs : Fs.segs (Fs.resolve (join a name))
               = Fs.segs (Fs.resolve a) ++ [name]).
  { rewrite resolve_join, Hone, normalizeString_kept
      by by apply Forall_singleton.
    by rewrite rev_involutive. }
  assert (Hd : Fs.dir_only (Fs.resolve (join a name)) = false).
  { unfold Fs.resolve. cbn [Fs.dir_only]. unfold join.
    destruct Hk as (Ka & Kb & Kc).
    case_decide; [|rewrite decide_False by done].
    - by apply (normalize_ends name [] name).
    - apply (normalize_ends _ (JS.split slash a) name); [done|].
      change ("/" +:+ name) with (String slash name).
      by rewrite split_app, Hone. }
  destruct (Fs.resolve (join a name)) as [sg d]. simpl in *. by subst.
Qed.

End PathFacts.

Module LayoutFacts.
Import Fs FsFacts Store StoreFacts PathFacts.

Lemma kept_literal name :
  bool_decide (name ≠ "" /\ name ≠ "." /\ name ≠ "..") = true -> kept name.
Proof. apply bool_decide_eq_true. Qed.

Lemma split_app_segment c x y :
  JS.split c y = [y] ->
  exists l h, JS.split c x = l ++ [h] /\ JS.split c (x +:+ y) = l ++ [h +:+ y].
Proof.
  intros Hy. induction x as [|a x (l & h & Hx & Hxy)].
  - by exists [], "".
  - change (String a x +:+ y) with (String a (x +:+ y)). simpl.
    rewrite Hx, Hxy. case_decide.
    + by exists ("" :: l), h.
    + destruct l as [|h0 l]; simpl.
      * by exists [], (String a h).
      * by exists (String a h0 :: l), h.
Qed.

Lemma json_suffix_kept h : kept (h +:+ ".json").
Proof.
  repeat split; intros E; apply (f_equal String.length) in E;
    rewrite StrFacts.length_append in E; simpl in E; lia.
Qed.

Lemma json_suffix_differs h : h +:+ ".json" ≠ "DIRECTORY.txt".
Proof.
  intros E.
  repeat (destruct h as [|? h]; simpl in E;
          [discriminate E|injection E as _ E]).
  by destruct h.
Qed.

Section with_process.
Context {process : Process}.

Lemma Mp_layout :
  Mp = {| segs := segs (resolve BUILD_DIR) ++ ["MEMORY_DIR"];
          dir_only := false |}.
Proof. by apply resolve_join_name. Qed.

Lemma DFp_layout :
  DFp = {| segs := segs Mp ++ ["DIRECTORY.txt"]; dir_only := false |}.
Proof. by apply resolve_join_name. Qed.

Lemma ARCHIVE_layout :
  resolve ARCHIVE_DIR
  = {| segs := segs Mp ++ ["ARCHIVE"]; dir_only := false |}.
Proof. by apply resolve_join_name. Qed.

Lemma split_parent name :
  one_segment name -> JS.split Path.slash ("../" +:+ name) = [".."; name].
Proof.
  intros Hone. change ("../" +:+ name) with (".." +:+ String Path.slash name).
  by rewrite split_app, Hone.
Qed.

Lemma resolve_join_parent a l top name :
  segs (resolve a) = l ++ [top] ->
  kept name -> one_segment name ->
  resolve (Path.join a ("../" +:+ name))
  = {| segs := l ++ [name]; dir_only := false |}.
Proof.
  intros Ha Hk Hone.
  assert (Htop : top ≠ "..").
  { assert (Hall : Forall kept (segs (resolve a)))
      by by apply normalizeString_false_kept.
    rewrite Ha in Hall. apply Forall_app in Hall as [_ Hall].
    apply Forall_inv in Hall. exact (proj2 (proj2 Hall)). }
  assert (Hs : segs (resolve (Path.join a ("../" +:+ name))) = l ++ [name]).
  { rewrite resolve_join, Ha, split_parent by done.
    rewrite rev_app_distr. cbn [rev app Path.normalizeString].
    destruct Hk as (Ka & Kb & Kc).
    repeat case_decide; try done. by rewrite rev_involutive. }
  assert (Hd : dir_only (resolve (Path.join a ("../" +:+ name))) = false).
  { unfold resolve. cbn [dir_only]. unfold Path.join.
    case_decide; [|rewrite decide_False by done].
    - apply (normalize_ends _ [".."] name); [done|]. by apply split_parent.
    - apply (normalize_ends _ (JS.split Path.slash a ++ [".."]) name);
        [done|].
      change ("/" +:+ "../" +:+ name)
        with (String Path.slash ("../" +:+ name)).
      by rewrite split_app, split_parent, <- app_assoc. }
  destruct (resolve (Path.join a ("../" +:+ name))) as [sg d].
  simpl in *. by subst.
Qed.

(** Whatever the build directory, the storage root is its entry
    "MEMORY_DIR", and the manifest and the archive are the entries
    "DIRECTORY.txt" and "ARCHIVE" of the root. *)
Theorem store_layout :
  Mp = {| segs := segs (resolve BUILD_DIR) ++ ["MEMORY_DIR"];
          dir_only := false |} /\
  DFp = {| segs := segs Mp ++ ["DIRECTORY.txt"]; dir_only := false |} /\
  resolve ARCHIVE_DIR
  = {| segs := segs Mp ++ ["ARCHIVE"]; dir_only := false |}.
Proof.
  split; [apply Mp_layout|]. split; [apply DFp_layout|apply ARCHIVE_layout].
Qed.

(** The names the operations take are not confined to the store: ".."
    steps out of it.  The file an operation makes of "../x" is the
    entry "x" of the build directory, next to the script. *)
Theorem names_are_not_confined name :
  kept name -> one_segment name ->
  Fp ("../" +:+ name)
  = {| segs := segs (resolve BUILD_DIR) ++ [name]; dir_only := false |}.
Proof.
  intros Hk Hone. unfold Fp.
  apply resolve_join_parent with "MEMORY_DIR"; [|done..].
  fold Mp. by rewrite Mp_layout.
Qed.

(** The file of a record is never the manifest. *)
Lemma record_path name : segs (Fp (name +:+ ".json")) ≠ segs DFp.
Proof.
  unfold Fp. rewrite resolve_join.
  destruct (split_app_segment Path.slash name ".json" eq_refl)
    as (l & h & _ & ->).
  rewrite normalizeString_app.
  rewrite (normalizeString_kept _ [_])
    by apply Forall_singleton, json_suffix_kept.
  rewrite rev_involutive, DFp_layout. cbn [segs].
  intros [_ E]%app_inj_tail. by apply json_suffix_differs in E.
Qed.

End with_process.
End LayoutFacts.

(** ** The tag graph *)

Module GraphFacts.

#[local] Set Warnings "-clear-no-such-hyp".


Lemma connect_related_lookup (tag : string) (l : list string) :
  forall (g : gmap string (gset string)) (t : string),
  foldl (fun g relatedTag =>
           if decide (tag = relatedTag) then g
           else alter (fun related => related ∪ {[relatedTag]}) tag g) g l
  !! t
  = if decide (t = tag)
    then (fun S => S ∪ (list_to_set l ∖ {[tag]})) <$> g !! tag
    else g !! t.
Proof.
  induction l as [|x l IH]; intros g t; simpl.
  - case_decide; [subst|done]. destruct (g !! tag); simpl; [|done].
    f_equal. set_solver.
  - rewrite IH. case_decide as Ht; [subst t|].
    + case_decide as Hx; [subst x|].
      * destruct (g !! tag); simpl; [|done]. f_equal. set_solver.
      * rewrite lookup_alter_eq. destruct (g !! tag); simpl; [|done].
        f_equal. set_solver.
    + case_decide; [done|]. by rewrite lookup_alter_ne.
Qed.

(** One round of the outer loop: the tag is registered, and related to
    every other tag of the list. *)
Lemma connect_tag_lookup tags (g : gmap string (gset string)) tag t :
  connect_tag tags g tag !! t
  = if decide (t = tag)
    then Some (related g tag ∪ (list_to_set tags ∖ {[tag]}))
    else g !! t.
Proof.
  unfold connect_tag, related. rewrite connect_related_lookup.
  case_decide as Ht; [subst t|].
  - destruct (g !! tag) as [S|] eqn:E; simpl.
    + by rewrite E.
    + by rewrite lookup_insert_eq.
  - destruct (g !! tag); [done|]. by rewrite lookup_insert_ne.
Qed.

Lemma connected_lookup tags (l : list string) :
  forall (g : gmap string (gset string)) (t : string),
  foldl (connect_tag tags) g l !! t
  = if decide (t ∈ l)
    then Some (related g t ∪ (list_to_set tags ∖ {[t]}))
    else g !! t.
Proof.
  induction l as [|x l IH]; intros g t; cbn [foldl].
  - case_decide as Hin; [by inversion Hin|done].
  - rewrite IH. unfold related. rewrite !connect_tag_lookup.
    destruct (decide (t = x)) as [->|Hne].
    + rewrite (decide_True (P := x ∈ x :: l)) by left.
      case_decide; [|done]. simpl. f_equal. unfold related. set_solver.
    + destruct (decide (t ∈ l)) as [Hl|Hl].
      * by rewrite (decide_True (P := t ∈ x :: l)) by by right.
      * rewrite (decide_False (P := t ∈ x :: l)); [done|].
        by intros [?|?]%elem_of_cons.
Qed.


Lemma connectTags_run tags s :
  connectTags tags s
  = (Ok tt, {| disk := disk s;
               memoryGraph := connected tags (memoryGraph s) |}).
Proof. reflexivity. Qed.

Lemma connected_related tags (g : gmap string (gset string)) t :
  related (foldl (connect_tag tags) g tags) t
  = if decide (t ∈ tags)
    then related g t ∪ (list_to_set tags ∖ {[t]})
    else related g t.
Proof.
  unfold related at 1. rewrite connected_lookup. by case_decide.
Qed.

(** [connectTags(tags)] registers every tag of the list and relates it
    to every other tag of the list; what was related stays related, and
    the tags that are not in the list keep their entries.  The call
    always returns, and the disk is not touched. *)
Theorem connectTags_relates tags s :
  let s' := (connectTags tags s).2 in
  (connectTags tags s).1 = Ok tt /\
  disk s' = disk s /\
  forall t,
    memoryGraph s' !! t
    = if decide (t ∈ tags)
      then Some (related (memoryGraph s) t ∪ (list_to_set tags ∖ {[t]}))
      else memoryGraph s !! t.
Proof.
  rewrite connectTags_run. cbn. split; [done|]. split; [done|].
  intros t. apply connected_lookup.
Qed.

(** A graph in which every relation goes both ways and no tag is
    related to itself stays such a graph under [connectTags]. *)
Theorem connectTags_keeps_symmetry tags s :
  reciprocal (memoryGraph s) -> loop_free (memoryGraph s) ->
  reciprocal (memoryGraph (connectTags tags s).2) /\
  loop_free (memoryGraph (connectTags tags s).2).
Proof.
  rewrite connectTags_run. cbn [snd memoryGraph]. unfold connected.
  intros Hsym Hirr. split.
  - intros a b A. rewrite !connected_lookup. intros Ha Hb.
    assert (Hold : forall A0, memoryGraph s !! a = Some A0 -> b ∈ A0 ->
              exists B, (if decide (b ∈ tags)
                         then Some (related (memoryGraph s) b
                                    ∪ (list_to_set tags ∖ {[b]}))
                         else memoryGraph s !! b) = Some B /\ a ∈ B).
    { intros A0 HA0 Hin. destruct (Hsym a b A0 HA0 Hin) as (B & HB & HaB).
      destruct (decide (b ∈ tags)).
      - eexists. split; [reflexivity|]. unfold related. rewrite HB.
        set_solver.
      - by exists B. }
    destruct (decide (a ∈ tags)) as [Hat|Hat].
    + injection Ha as <-. apply elem_of_union in Hb as [Hb|Hb].
      * unfold related in Hb.
        destruct (memoryGraph s !! a) as [A0|] eqn:E; [|set_solver].
        by apply (Hold A0).
      * apply elem_of_difference in Hb as [Hb Hne].
        apply elem_of_list_to_set in Hb. rewrite decide_True by done.
        eexists. split; [reflexivity|]. set_solver.
    + by apply (Hold A).
  - intros a A. rewrite connected_lookup. case_decide.
    + intros [= <-]. unfold related.
      destruct (memoryGraph s !! a) as [A0|] eqn:E; simpl.
      * specialize (Hirr a A0 E). set_solver.
      * set_solver.
    + apply Hirr.
Qed.

(** The graph [connectTags] leaves depends on the tags as a set: their
    order and their repetitions do not matter.  So calling it again
    with the same tags changes nothing, and two calls can be swapped. *)
Theorem connectTags_set_of_tags tags s :
  (forall tags',
     (forall t, t ∈ tags <-> t ∈ tags') ->
     connectTags tags' s = connectTags tags s) /\
  connectTags tags (connectTags tags s).2 = connectTags tags s /\
  (forall tags',
     connectTags tags' (connectTags tags s).2
     = connectTags tags (connectTags tags' s).2).
Proof.
  unfold connectTags. cbn [snd disk memoryGraph].
  split; [|split].
  - intros tags' Hsame. do 2 f_equal.
    apply map_eq. intros t. rewrite !connected_lookup.
    assert (list_to_set tags' = (list_to_set tags : gset string))
      as -> by set_solver.
    repeat case_decide; try done; exfalso; naive_solver.
  - do 2 f_equal. apply map_eq. intros t.
    rewrite connected_lookup, connected_related, connected_lookup.
    case_decide; [|done]. apply (f_equal Some).
    generalize (related (memoryGraph s) t). set_solver.
  - intros tags'. do 2 f_equal. apply map_eq. intros t.
    rewrite !connected_lookup, !connected_related.
    destruct (decide (t ∈ tags)), (decide (t ∈ tags')); try done.
    all: apply (f_equal Some); generalize (related (memoryGraph s) t);
      set_solver.
Qed.

End GraphFacts.

(** ** Directories on the disk *)

Module DiskFacts.
Import Fs FsFacts Store StoreFacts.

Lemma find_entry_app_new x es l :
  find_entry x es = None -> find_entry x (es ++ l) = find_entry x l.
Proof.
  induction es as [|[y n] es IH]; simpl; [done|]. by case_decide.
Qed.

(** After [mkdir -p] the path is a directory: the one that was there,
    or a new, empty one. *)
Lemma mkdirp_walk p : forall d d',
  mkdirp p d = inr d' ->
  walk p d' = match walk p d with
              | inr n => inr n
              | inl _ => inr (Dir [])
              end.
Proof.
  induction p as [|x q IH]; intros [o|es] d'; simpl; try done.
  destruct (find_entry x es) as [c|] eqn:E.
  - destruct (mkdirp q c) as [e|c'] eqn:Hc; [done|]. intros [= <-].
      simpl. rewrite find_set_same. by apply IH.
  - destruct (mkdirp q (Dir [])) as [e|c'] eqn:Hc; [done|].
    intros [= <-]. simpl. rewrite find_entry_app_new by done. simpl.
    rewrite decide_True by done. rewrite (IH _ _ Hc).
    by destruct q.
Qed.

Lemma mkdirp_is_dir p : forall d d',
  mkdirp p d = inr d' -> is_dir p d'.
Proof.
  induction p as [|x q IH]; intros [o|es] d'; simpl; try done.
  - intros [= <-]. by exists es.
  - destruct (find_entry x es) as [c|] eqn:E.
    + destruct (mkdirp q c) as [e|c'] eqn:Hc; [done|]. intros [= <-].
      unfold is_dir. simpl. rewrite find_set_same. by apply (IH c).
    + destruct (mkdirp q (Dir [])) as [e|c'] eqn:Hc; [done|].
      intros [= <-]. unfold is_dir. simpl.
      rewrite find_entry_app_new by done. simpl.
      rewrite decide_True by done. by apply (IH (Dir [])).
Qed.

(** On a directory that is there [mkdir -p] changes nothing. *)
Lemma mkdirp_existing p : forall d,
  is_dir p d -> mkdirp p d = inr d.
Proof.
  induction p as [|x q IH]; intros [o|es] [es' H]; simpl in *; try done.
  destruct (find_entry x es) as [c|] eqn:E; [|done].
  rewrite IH by by exists es'. by rewrite set_entry_id.
Qed.

(** What happens below a directory happens to the directory. *)
Lemma mkdirp_under p : forall d n q n',
  walk p d = inr n -> mkdirp q n = inr n' ->
  exists d', mkdirp (p ++ q) d = inr d' /\ walk p d' = inr n'.
Proof.
  induction p as [|x p IH]; intros d n q n' Hw Hm; simpl in *.
  - injection Hw as ->. by exists n'.
  - destruct d as [o|es]; [done|].
    destruct (find_entry x es) as [c|] eqn:E; [|done].
    destruct (IH c n q n' Hw Hm) as (c' & -> & Hc').
    eexists. split; [done|]. simpl. by rewrite find_set_same.
Qed.

Lemma store_under f data p : forall d n q n',
  walk p d = inr n -> store f q data n = inr n' ->
  exists d', store f (p ++ q) data d = inr d' /\ walk p d' = inr n'.
Proof.
  induction p as [|x p IH]; intros d n q n' Hw Hm; simpl in *.
  - injection Hw as ->. by exists n'.
  - destruct d as [o|es]; [done|].
    destruct (find_entry x es) as [c|] eqn:E; [|done].
    destruct (IH c n q n' Hw Hm) as (c' & -> & Hc').
    eexists. split; [done|]. simpl. by rewrite find_set_same.
Qed.

(** Writing a file leaves the directories directories. *)
Lemma store_keeps_dir f data q : forall d d' p,
  store f q data d = inr d' -> is_dir p d -> is_dir p d'.
Proof.
  induction q as [|x q IH]; intros [o|es0] d' p; simpl; try done.
  - intros _ [es H]. by destruct p.
  - intros Hs [es Hp]. destruct p as [|y p]; simpl in Hp.
    + destruct (find_entry x es0) as [c|].
      * destruct (store f q data c); [done|]. injection Hs as <-.
        by eexists.
      * destruct q; [|done]. injection Hs as <-. by eexists.
    + destruct (find_entry y es0) as [c0|] eqn:Ey; [|done].
      destruct (find_entry x es0) as [c|] eqn:Ex.
      * destruct (store f q data c) as [e|c'] eqn:Hc; [done|].
        injection Hs as <-. unfold is_dir. simpl.
        destruct (decide (x = y)) as [->|Hne].
        -- rewrite find_set_same. rewrite Ey in Ex. injection Ex as ->.
           apply (IH c); [done|]. by exists es.
        -- rewrite find_set_other by done. rewrite Ey. by exists es.
      * destruct q; [|done]. injection Hs as <-. unfold is_dir. simpl.
        rewrite find_entry_app by by rewrite Ey. rewrite Ey. by exists es.
Qed.

Lemma open_write_keeps_dir f q data d d' p :
  open_write f q data d = inr d' -> is_dir p d -> is_dir p d'.
Proof.
  unfold open_write. destruct (dir_only q).
  - by destruct (walk (segs q) d) as [|[|]].
  - apply store_keeps_dir.
Qed.

(** The directory above a path that leads somewhere. *)
Lemma walk_parent p x d n :
  walk (p ++ [x]) d = inr n ->
  exists es, walk p d = inr (Dir es) /\ find_entry x es = Some n.
Proof.
  rewrite walk_app. destruct (walk p d) as [e|[o|es]]; try done.
  simpl. destruct (find_entry x es) as [c|] eqn:E; [|done].
  intros [= ->]. by exists es.
Qed.

End DiskFacts.

(** ** The manifest and the first run *)

Module ManifestFacts.
Import Fs FsFacts Store StoreFacts PathFacts LayoutFacts DiskFacts.

Lemma ok_unit (r : result unit) : is_ok r = true -> r = Ok tt.
Proof. by destruct r as [[]|]. Qed.

Section with_process.
Context {process : Process}.

Lemma dir_only_DFp : dir_only DFp = false.
Proof. by rewrite DFp_layout. Qed.

Lemma root_of_manifest d o :
  walk (segs DFp) d = inr (File o) -> is_dir (segs Mp) d.
Proof.
  rewrite DFp_layout. cbn [segs]. intros (es & H & _)%walk_parent.
  by exists es.
Qed.

Lemma tree_at_dir d :
  is_dir (segs Mp) d -> exists tree, tree_at d = inr tree.
Proof. intros [es H]. unfold tree_at, readdir. rewrite H. by eexists. Qed.

(** With the manifest in place the resync cannot fail. *)
Lemma resync_ok_present d o :
  walk (segs DFp) d = inr (File o) -> resync_ok d = true.
Proof.
  intros H. rewrite (resync_ok_at_file d o H), dir_only_DFp.
  by destruct (tree_at_dir d (root_of_manifest d o H)) as [tree ->].
Qed.

Lemma resync_present d o :
  walk (segs DFp) d = inr (File o) ->
  exists tree, tree_at d = inr tree /\
               resync d = update (segs DFp) (fun _ => tree) d.
Proof.
  intros H. rewrite (resync_at_file d o H), dir_only_DFp.
  destruct (tree_at_dir d (root_of_manifest d o H)) as [tree ->].
  by exists tree.
Qed.

Lemma resync_idem d o :
  walk (segs DFp) d = inr (File o) -> resync (resync d) = resync d.
Proof.
  intros H. destruct (resync_present d o H) as (tree & Ht & ->).
  by rewrite (resync_update_same _ d o H), Ht, dir_only_DFp.
Qed.



(** *** The first run *)

Lemma initializeDirectory_cases s :
  match walk (segs Mp) (disk s) with
  | inr _ => initializeDirectory s = (Ok tt, s)
  | inl _ =>
      match mkdirp (segs Mp) (disk s) with
      | inl e =>
          initializeDirectory s
          = (Throw (FileOperationError "initialize directories" MEMORY_DIR
                      (Fs.message e "mkdir" MEMORY_DIR)), s)
      | inr _ =>
          exists s',
            initializeDirectory s = (Ok tt, s') /\
            memoryGraph s' = memoryGraph s /\
            readdir Mp (disk s')
            = inr [("ARCHIVE", Dir []);
                   ("DIRECTORY.txt",
                    File (tree_text MEMORY_DIR (Dir [("ARCHIVE", Dir [])])))]
      end
  end.
Proof.
  unfold initializeDirectory, try_catch. rewrite bind_run.
  unfold existsSync. fold Mp.
  destruct (walk (segs Mp) (disk s)) as [e|n] eqn:Hw; [|done].
  assert (Hfirst : mkdirSync_recursive MEMORY_DIR s
                   = lift_disk "mkdir" MEMORY_DIR
                       (mkdirp (segs Mp) (disk s)) s) by done.
  destruct (mkdirp (segs Mp) (disk s)) as [e1|d1] eqn:H1.
  { by rewrite bind_run, Hfirst. }
  rewrite bind_run, Hfirst. cbn [lift_disk].
  assert (Hd1 : walk (segs Mp) d1 = inr (Dir [])).
  { by rewrite (mkdirp_walk _ _ _ H1), Hw. }
  destruct (mkdirp_under (segs Mp) d1 (Dir []) ["ARCHIVE"]
              (Dir [("ARCHIVE", Dir [])]) Hd1 eq_refl) as (d2 & H2 & Hd2).
  set (tree := tree_text MEMORY_DIR (Dir [("ARCHIVE", Dir [])])).
  destruct (store_under false tree (segs Mp) d2 _ ["DIRECTORY.txt"]
              (Dir [("ARCHIVE", Dir []); ("DIRECTORY.txt", File tree)])
              Hd2 eq_refl) as (d3 & H3 & Hd3).
  rewrite bind_run. unfold mkdirSync_recursive.
  rewrite ARCHIVE_layout. cbn [segs disk with_disk].
  rewrite lift_disk_run, H2.
  assert (Ht : tree_at d2 = inr tree).
  { unfold tree_at, readdir. by rewrite Hd2. }
  assert (Ho : open_write false DFp tree d2 = inr d3).
  { unfold open_write. by rewrite DFp_layout. }
  destruct (updateDirectoryFile (with_disk (with_disk s d1) d2))
    as [r s3] eqn:E.
  assert (Hr : r = Ok tt).
  { apply ok_unit. change r with (r, s3).1.
    rewrite <- E, updateDirectoryFile_ok. cbn [disk with_disk].
    unfold resync_ok. by rewrite Ht, Ho. }
  assert (Hs : s3 = with_disk s d3).
  { change s3 with (r, s3).2. rewrite <- E, updateDirectoryFile_state.
    cbn [disk with_disk]. unfold resync. by rewrite Ht, Ho. }
  subst r s3. exists (with_disk s d3). split; [done|]. split; [done|].
  unfold readdir. cbn [disk with_disk]. by rewrite Hd3.
Qed.

(** [initializeDirectory] on a disk that has the build directory and
    not yet the storage root returns; the root then holds the empty
    archive and the manifest, and the manifest lists the archive and
    not itself.  The tag graph is as it was. *)
Theorem initializeDirectory_first_run s :
  is_dir (segs (resolve BUILD_DIR)) (disk s) ->
  existsSync MEMORY_DIR s = (Ok false, s) ->
  exists s',
    initializeDirectory s = (Ok tt, s') /\
    memoryGraph s' = memoryGraph s /\
    readdir Mp (disk s')
    = inr [("ARCHIVE", Dir []);
           ("DIRECTORY.txt",
            File (tree_text MEMORY_DIR (Dir [("ARCHIVE", Dir [])])))].
Proof.
  intros [es Hbuild] Hex. pose proof (initializeDirectory_cases s) as H.
  unfold existsSync in Hex. fold Mp in Hex.
  destruct (walk (segs Mp) (disk s)) as [e|n] eqn:Hw; [|done].
  assert (Hnew : find_entry "MEMORY_DIR" es = None).
  { rewrite Mp_layout in Hw. cbn [segs] in Hw.
    rewrite walk_app, Hbuild in Hw. simpl in Hw.
    by destruct (find_entry "MEMORY_DIR" es). }
  destruct (mkdirp_under (segs (resolve BUILD_DIR)) (disk s) (Dir es)
              ["MEMORY_DIR"] (Dir (es ++ [("MEMORY_DIR", Dir [])])) Hbuild)
    as (d1 & Hd1 & _).
  { simpl. by rewrite Hnew. }
  assert (Hm : mkdirp (segs Mp) (disk s) = inr d1)
    by by rewrite Mp_layout.
  by rewrite Hm in H.
Qed.

(** The two managers are constructed one after the other and each
    constructor calls [initializeDirectory]: once the first call has
    returned, the second does nothing. *)
Theorem initializeDirectory_idempotent s s' :
  initializeDirectory s = (Ok tt, s') ->
  initializeDirectory s' = (Ok tt, s').
Proof.
  intros Hrun. pose proof (initializeDirectory_cases s) as H.
  pose proof (initializeDirectory_cases s') as H'.
  destruct (walk (segs Mp) (disk s)) as [e|n] eqn:Hw.
  - destruct (mkdirp (segs Mp) (disk s)); [congruence|].
    destruct H as (s1 & H1 & Hg & Hd). rewrite Hrun in H1.
    injection H1 as <-. unfold readdir in Hd.
    by destruct (walk (segs Mp) (disk s')) as [|[|]].
  - rewrite H in Hrun. injection Hrun as <-. by rewrite Hw in H'.
Qed.

End with_process.
End ManifestFacts.

(** ** What a mutation touches *)

Module MutationFacts.
Import Fs FsFacts Store StoreFacts PathFacts LayoutFacts DiskFacts
  ManifestFacts.

Lemma is_prefix_ne p q : is_prefix p q = false -> q ≠ p.
Proof. intros H ->. by rewrite is_prefix_refl in H. Qed.

Lemma rename_frame src dst n n' q x :
  rename src dst n = inr n' ->
  is_prefix (segs src) q = false -> is_prefix (segs dst) q = false ->
  walk q n = inr (File x) -> walk q n' = inr (File x).
Proof.
  unfold rename. intros Hren Hsrc Hdst Hq.
  destruct (walk (segs src) n) as [|sn] eqn:Hs; [done|].
  destruct ((dir_only src || dir_only dst) && negb (is_dirb sn)); [done|].
  case_decide as Hnil; [done|].
  case_decide as Hsame; [by injection Hren as <-|].
  destruct (is_dirb sn && is_prefix (segs src) (segs dst)); [done|].
  assert (Hq2 : walk q (put (segs dst) sn (remove (segs src) n))
                = inr (File x)).
  { by apply walk_put_other, walk_remove_other. }
  destruct (walk (segs dst) n) as [|dn].
  - destruct (walk (removelast (segs dst)) n) as [|[|]]; try done.
    by injection Hren as <-.
  - destruct sn, dn as [|[|]]; try done; by injection Hren as <-.
Qed.

(** Unlinking a file leaves the directories directories. *)
Lemma remove_keeps_dir p : forall n q es x,
  walk p n = inr (File x) -> walk q n = inr (Dir es) ->
  exists es', walk q (remove p n) = inr (Dir es').
Proof.
  induction p as [|a p IH]; intros n q es x Hp Hq.
  { destruct n; simpl; eauto. }
  destruct n as [o|es0]; [done|]. destruct p as [|b p].
  - cbn [remove]. destruct q as [|z q]; [simpl; eauto|].
    simpl in *. destruct (decide (z = a)) as [->|Hza].
    + destruct (find_entry a es0) as [c|]; [|done]. simpl in Hp.
      injection Hp as ->. by destruct q.
    + rewrite find_remove_other by done. eauto.
  - rewrite remove_cons2. cbn [walk] in Hp.
    destruct (find_entry a es0) as [c|] eqn:E; [|done].
    destruct q as [|z q]; [simpl; eauto|]. cbn [walk] in *.
    destruct (decide (z = a)) as [->|Hza].
    + rewrite find_set_same. rewrite E in Hq. by eapply IH.
    + rewrite find_set_other by done. eauto.
Qed.

(** Linking below a directory that is there puts the node there. *)
Lemma walk_put_new p v : forall n es,
  p ≠ [] -> walk (removelast p) n = inr (Dir es) ->
  walk p (put p v n) = inr v.
Proof.
  induction p as [|a p IH]; intros n es Hp; [done|].
  destruct p as [|b p].
  - simpl. intros [= ->]. simpl. by rewrite find_set_same.
  - change (removelast (a :: b :: p)) with (a :: removelast (b :: p)).
    rewrite put_cons2. destruct n as [o|es0]; [done|]. cbn [walk].
    destruct (find_entry a es0) as [c|] eqn:E; [|done].
    intros H. rewrite find_set_same. by eapply IH.
Qed.

(** A rename of a regular file that returns leaves the file's data at
    the new path. *)
Lemma rename_file_lands src dst n n' data :
  rename src dst n = inr n' ->
  walk (segs src) n = inr (File data) ->
  walk (segs dst) n' = inr (File data) /\ dir_only dst = false.
Proof.
  unfold rename. intros Hren Hs. rewrite Hs in Hren. cbn [is_dirb negb] in Hren.
  rewrite andb_true_r, andb_false_l in Hren.
  destruct (dir_only src || dir_only dst) eqn:Hflags; [done|].
  apply orb_false_elim in Hflags as [_ Hd]. split; [|done].
  case_decide as Hnil; [done|].
  case_decide as Hsame; [injection Hren as <-; by rewrite <- Hsame|].
  destruct (walk (segs dst) n) as [e|dn] eqn:Hw.
  - destruct (walk (removelast (segs dst)) n) as [|[|es]] eqn:Hpar; try done.
    injection Hren as <-.
    destruct (remove_keeps_dir _ _ _ _ _ Hs Hpar) as [es' Hes'].
    eapply walk_put_new; [|done]. intros E. by rewrite E in Hw.
  - destruct dn as [o|[|]]; try done. injection Hren as <-.
    eapply walk_put_same.
    { intros E. rewrite E in Hw. injection Hw as ->.
      by destruct (segs src). }
    apply walk_remove_other; [|done].
    destruct (is_prefix (segs src) (segs dst)) eqn:Hpre; [|done].
    destruct (walk_above_file _ _ _ _ Hpre Hsame Hw) as (e & es & Hdir).
    congruence.
Qed.

Section with_process.
Context {process : Process}.

Lemma then_sync_frame (r : errno + node) d q data :
  q ≠ segs DFp ->
  walk q d = inr (File data) ->
  (forall d1, r = inr d1 -> walk q d1 = inr (File data)) ->
  walk q (then_sync r d) = inr (File data).
Proof.
  intros Hq Hd Hr. destruct r as [e|d1]; [done|]. cbn [then_sync].
  apply resync_keeps_file; [done|]. by apply Hr.
Qed.

Lemma open_write_frame f p text d d1 q data :
  open_write f p text d = inr d1 ->
  is_prefix (segs p) q = false ->
  walk q d = inr (File data) -> walk q d1 = inr (File data).
Proof.
  unfold open_write. destruct (dir_only p).
  { by destruct (walk (segs p) d) as [|[|]]. }
  intros Hs Hp Hq. eapply walk_store_other; [done| |done].
  by apply is_prefix_ne.
Qed.



(** Whatever a mutating operation does and however it ends, a regular
    file that is neither the manifest nor at or below a path the
    operation names holds afterwards what it held before. *)
Theorem mutation_frame m c op s q data :
  walk q (disk s) = inr (File data) ->
  q ≠ segs DFp ->
  Forall (fun p => is_prefix (segs p) q = false) (named_paths m op) ->
  walk q (disk (perform (manager_of m) c op s).2) = inr (File data).
Proof.
  intros Hq Hne Hnamed.
  assert (Hrename : forall operation source dest,
            Forall (fun p => is_prefix (segs p) q = false)
                   [Fp source; Fp dest] ->
            walk q (disk (rename_op operation source dest s).2)
            = inr (File data)).
  { intros operation source dest [Ha [Hb _]%Forall_cons]%Forall_cons.
    destruct (rename_op_run operation source dest s) as [-> _].
    cbn [disk with_disk]. apply then_sync_frame; [done..|].
    intros d1 Hd1. by eapply rename_frame. }
  assert (Hmk : forall name,
            walk q (disk (createDir_op name s).2) = inr (File data)).
  { intros name. destruct (createDir_op_run name s) as [-> _].
    cbn [disk with_disk]. apply then_sync_frame; [done..|].
    intros d1 Hd1. by eapply walk_mkdirp_file. }
  destruct m, op; cbn [perform manager_of jsonManager rawManager createFile
    createDir moveFile moveDir appendContent renameFile named_paths
    stored_as] in *; auto;
    apply Forall_cons in Hnamed as [Hp _].
  - destruct (JSON_createFile_run c name content s) as [-> _].
    cbn [disk with_disk]. apply then_sync_frame; [done..|].
    intros d1 Hd1. by eapply open_write_frame.
  - rewrite JSON_appendContent_state. cbn [disk with_disk].
    unfold json_append_disk.
    destruct (read (Fp file) (disk s)) as [e|text]; [done|].
    destruct (edit text content _) as [text'|]; [|done].
    apply then_sync_frame; [done..|].
    intros d1 Hd1. by eapply open_write_frame.
  - destruct (RAW_createFile_run c name content s) as [-> _].
    cbn [disk with_disk]. apply then_sync_frame; [done..|].
    intros d1 Hd1. by eapply open_write_frame.
  - destruct (RAW_appendContent_run c file content s) as [-> _].
    cbn [disk with_disk]. apply then_sync_frame; [done..|].
    intros d1 Hd1. by eapply open_write_frame.
Qed.


(** [moveFile], [moveDir] and [renameFile] are one operation: each of
    them, of either manager, moves a regular file, and when it returns
    the file's data is read under the new name (which must not be the
    manifest's, or the resync overwrites it). *)
Theorem relocation_moves_the_data m c op source dest data s s' :
  relocation source dest op ->
  perform (manager_of m) c op s = (Ok tt, s') ->
  read (Fp source) (disk s) = inr data ->
  segs (Fp dest) ≠ segs DFp ->
  read (Fp dest) (disk s') = inr data.
Proof.
  intros Hop Hrun Hr Hne. apply run_ok in Hrun as [Hok <-].
  assert (exists operation,
            perform (manager_of m) c op = rename_op operation source dest)
    as [operation Hperform].
  { destruct Hop as [->|[->| ->]], m; by eexists. }
  rewrite Hperform in *.
  destruct (rename_op_run operation source dest s) as [-> Hk].
  rewrite Hk in Hok. destruct (then_sync_inv _ Hok) as (d1 & Hd1 & _).
  rewrite Hd1. cbn [then_sync disk with_disk].
  apply read_inv in Hr as [Hw _].
  destruct (rename_file_lands _ _ _ _ _ Hd1 Hw) as [Hl Hd].
  apply read_resync; [done|]. by apply read_intro.
Qed.

End with_process.
End MutationFacts.

(** ** Moves and renames *)

Module RelocationFacts.
Import Fs FsFacts Store StoreFacts PathFacts LayoutFacts DiskFacts
  ManifestFacts MutationFacts.

Lemma find_entry_None x es : x ∉ map fst es -> find_entry x es = None.
Proof.
  induction es as [|[y n] es IH]; simpl; [done|].
  intros Hx. rewrite not_elem_of_cons in Hx. destruct Hx as [Hxy Hx].
  case_decide; [done|]. by apply IH.
Qed.

Lemma find_entry_elem x es c : find_entry x es = Some c -> (x, c) ∈ es.
Proof.
  induction es as [|[y n] es IH]; simpl; [done|].
  case_decide as Hxy.
  - intros [= ->]. subst. by left.
  - intros H. right. by apply IH.
Qed.

Lemma find_remove_same x es :
  NoDup (map fst es) -> find_entry x (remove_entry x es) = None.
Proof.
  induction es as [|[y n] es IH]; simpl; [done|].
  intros [Hy Hnd]%NoDup_cons. case_decide as Hxy.
  - subst. by apply find_entry_None.
  - simpl. rewrite decide_False by done. by apply IH.
Qed.

Lemma unique_names_child x es c :
  unique_names (Dir es) = true -> find_entry x es = Some c ->
  unique_names c = true.
Proof.
  simpl. intros [_ Hall]%andb_prop Hc. apply find_entry_elem in Hc.
  rewrite forallb_forall in Hall.
  by apply (Hall (x, c)), list_elem_of_In.
Qed.

(** On a disk without double names an unlinked entry is gone. *)
Lemma walk_remove_same p : forall n w,
  unique_names n = true -> p ≠ [] -> walk p n = inr w ->
  walk p (remove p n) = inl ENOENT.
Proof.
  induction p as [|a p IH]; intros n w Hu Hp Hw; [done|].
  destruct n as [o|es]; [done|]. destruct p as [|b p].
  - simpl. rewrite find_remove_same; [done|].
    simpl in Hu. apply andb_prop in Hu as [Hnd _].
    by apply bool_decide_eq_true in Hnd.
  - rewrite remove_cons2. cbn [walk] in *.
    destruct (find_entry a es) as [c|] eqn:E; [|done].
    rewrite find_set_same. apply (IH c w); [|done|done].
    by eapply unique_names_child.
Qed.

(** Linking at [p] does not bring into being what is not at or below
    [p]. *)
Lemma walk_put_fails p v : forall q n e,
  is_prefix p q = false -> walk q n = inl e -> walk q (put p v n) = inl e.
Proof.
  induction p as [|a p IH]; intros q n e; [done|].
  destruct p as [|b p].
  - destruct n as [o|es]; [done|]. destruct q as [|z q]; [done|].
    cbn [is_prefix put walk]. case_bool_decide as Haz; [by destruct q|].
    intros _. by rewrite find_set_other.
  - rewrite put_cons2. destruct n as [o|es]; [done|].
    destruct q as [|z q]; [done|]. cbn [is_prefix walk].
    destruct (find_entry a es) as [c|] eqn:E; [|done].
    case_bool_decide as Haz; simpl.
    + subst z. intros Hp. rewrite E, find_set_same. by apply IH.
    + intros _. by rewrite find_set_other.
Qed.

(** Neither does a write, except at the path written. *)
Lemma walk_store_fails f data p : forall n n' q e,
  store f p data n = inr n' -> q ≠ p -> walk q n = inl e ->
  exists e', walk q n' = inl e'.
Proof.
  induction p as [|x p IH]; intros [o|es] n' q e; simpl; try done.
  - intros [= <-] Hq. destruct q; [done|]. simpl. eauto.
  - destruct (find_entry x es) as [c|] eqn:E.
    + destruct (store f p data c) as [e0|c'] eqn:Hc; [done|].
      intros [= <-] Hq. destruct q as [|z q]; [done|]. simpl.
      destruct (decide (z = x)) as [->|Hzx].
      * rewrite E, find_set_same. apply (IH _ _ _ _ Hc). congruence.
      * rewrite find_set_other by done. eauto.
    + destruct p; [|done]. intros [= <-] Hq.
      destruct q as [|z q]; [done|]. simpl.
      destruct (find_entry z es) as [c|] eqn:Ez.
      * rewrite find_entry_app by by rewrite Ez. rewrite Ez. eauto.
      * rewrite find_entry_app_new by done. simpl.
        case_decide as Hzx; [|eauto]. subst z.
        destruct q; [done|]. simpl. eauto.
Qed.

(** A rename of a regular file to another path that returns has linked
    the file there and unlinked it here; the new path is not above the
    old one. *)
Lemma rename_file_apart src dst n n' data :
  rename src dst n = inr n' ->
  walk (segs src) n = inr (File data) ->
  segs src ≠ segs dst ->
  n' = put (segs dst) (File data) (remove (segs src) n) /\
  segs src ≠ [] /\ is_prefix (segs dst) (segs src) = false.
Proof.
  unfold rename. intros Hren Hs Hne. rewrite Hs in Hren.
  destruct ((dir_only src || dir_only dst) && negb (is_dirb (File data)));
    [done|].
  case_decide as Hnil; [done|]. rewrite decide_False in Hren by done.
  cbn [is_dirb andb] in Hren.
  destruct (is_prefix (segs dst) (segs src)) eqn:Hpre.
  - destruct (walk_above_file _ _ _ _ Hpre (not_eq_sym Hne) Hs)
      as (e & es & Hdir).
    by rewrite Hdir in Hren.
  - split; [|done].
    destruct (walk (segs dst) n) as [e|dn].
    + destruct (walk (removelast (segs dst)) n) as [|[|]]; try done.
      by injection Hren as <-.
    + destruct dn as [|[|]]; try done. by injection Hren as <-.
Qed.

Section with_process.
Context {process : Process}.

Lemma resync_keeps_missing q d e :
  q ≠ segs DFp -> walk q d = inl e -> exists e', walk q (resync d) = inl e'.
Proof.
  intros Hq Hw. unfold resync. destruct (tree_at d) as [|tree]; [eauto|].
  unfold open_write. rewrite dir_only_DFp.
  destruct (store false (segs DFp) tree d) as [|d'] eqn:E; [eauto|].
  by eapply walk_store_fails.
Qed.

(** After a move or rename of a regular file to another name, the old
    name is gone: on a disk whose directories list no name twice, and
    for a file that is not the manifest (which the resync would write
    anew). *)
Theorem relocation_removes_the_source m c op source dest data s s' :
  relocation source dest op ->
  perform (manager_of m) c op s = (Ok tt, s') ->
  unique_names (disk s) = true ->
  read (Fp source) (disk s) = inr data ->
  segs (Fp source) ≠ segs (Fp dest) ->
  segs (Fp source) ≠ segs DFp ->
  exists e, read (Fp source) (disk s') = inl e.
Proof.
  intros Hop Hrun Hu Hr Hne Hman. apply run_ok in Hrun as [Hok <-].
  assert (exists operation,
            perform (manager_of m) c op = rename_op operation source dest)
    as [operation Hperform].
  { destruct Hop as [->|[->| ->]], m; by eexists. }
  rewrite Hperform in *.
  destruct (rename_op_run operation source dest s) as [-> Hk].
  rewrite Hk in Hok. destruct (then_sync_inv _ Hok) as (d1 & Hd1 & _).
  rewrite Hd1. cbn [then_sync disk with_disk].
  apply read_inv in Hr as [Hw _].
  destruct (rename_file_apart _ _ _ _ _ Hd1 Hw Hne) as (-> & Hnil & Hpre).
  pose proof (walk_remove_same _ _ _ Hu Hnil Hw) as Hgone.
  apply (walk_put_fails (segs (Fp dest)) (File data)) in Hgone; [|done].
  destruct (resync_keeps_missing _ _ _ Hman Hgone) as [e' He'].
  exists e'. unfold read. by rewrite He'.
Qed.

End with_process.
End RelocationFacts.

(** ** Directories, records and appends *)

Module DirectoryFacts.
Import Fs FsFacts Store StoreFacts PathFacts LayoutFacts DiskFacts
  ManifestFacts MutationFacts.

Lemma mkdirp_over_file p : forall n x,
  walk p n = inr (File x) -> mkdirp p n = inl EEXIST.
Proof.
  induction p as [|a p IH]; intros [o|es] x; simpl; try done.
  destruct (find_entry a es) as [c|]; [|done].
  intros H. by rewrite (IH _ _ H).
Qed.

Lemma run_intro (m : M unit) s s' :
  is_ok (m s).1 = true -> (m s).2 = s' -> m s = (Ok tt, s').
Proof.
  destruct (m s) as [r s1]. simpl. by intros ->%ok_unit ->.
Qed.

Section with_process.
Context {process : Process}.

Lemma resync_keeps_dir p d : is_dir p d -> is_dir p (resync d).
Proof.
  intros Hd. unfold resync. destruct (tree_at d) as [|tree]; [done|].
  destruct (open_write false DFp tree d) as [|d'] eqn:E; [done|].
  by eapply open_write_keeps_dir.
Qed.

(** When [createDir] returns, the name is a directory of the store,
    however many of the directories on the way to it were missing. *)
Theorem createDir_makes_the_directory m name s s' :
  createDir (manager_of m) name s = (Ok tt, s') ->
  is_dir (segs (Fp name)) (disk s').
Proof.
  intros Hrun. apply run_ok in Hrun as [Hok <-].
  assert (createDir (manager_of m) name = createDir_op name) as Hc
    by by destruct m.
  rewrite Hc in *. destruct (createDir_op_run name s) as [-> Hk].
  rewrite Hk in Hok. destruct (then_sync_inv _ Hok) as (d1 & Hd1 & _).
  rewrite Hd1. cbn [then_sync disk with_disk].
  by eapply resync_keeps_dir, mkdirp_is_dir.
Qed.

(** With the manifest in place, [createDir] of a name it has just made
    returns again and changes nothing. *)
Theorem createDir_again m name s s' :
  manifest_present s ->
  createDir (manager_of m) name s = (Ok tt, s') ->
  createDir (manager_of m) name s' = (Ok tt, s').
Proof.
  intros [o Ho] Hrun. apply run_ok in Hrun as [Hok <-].
  assert (createDir (manager_of m) name = createDir_op name) as Hc
    by by destruct m.
  rewrite Hc in *. destruct (createDir_op_run name s) as [Hs Hk].
  rewrite Hk in Hok. destruct (then_sync_inv _ Hok) as (d1 & Hd1 & Hok1).
  rewrite Hs, Hd1. cbn [then_sync].
  assert (Ho1 : walk (segs DFp) d1 = inr (File o))
    by by eapply walk_mkdirp_file.
  assert (Hdir : is_dir (segs (Fp name)) (resync d1))
    by by eapply resync_keeps_dir, mkdirp_is_dir.
  destruct (createDir_op_run name (with_disk s (resync d1))) as [Hs2 Hk2].
  cbn [disk with_disk] in *.
  rewrite (mkdirp_existing _ _ Hdir) in Hs2, Hk2.
  cbn [then_sync then_sync_ok] in *.
  rewrite (resync_idem _ _ Ho1) in Hs2.
  destruct (resync_file_stays _ o Ho1) as [o' Ho'].
  rewrite (resync_ok_present _ _ Ho') in Hk2.
  by apply run_intro.
Qed.


(** What the structured [createFile] stores is read back whatever the
    name: the file of a record is never the manifest.  The file holds
    the record with the given content, no tags, and the two values of
    the clock, and the record has the declared shape. *)
Theorem JSON_createFile_read_back c name content s s' :
  createFile jsonManager c name content s = (Ok tt, s') ->
  readFileContent jsonManager (name +:+ ".json") s'
  = (Ok (js_string content), s') /\
  stored_record (name +:+ ".json") s' = Some (new_memory c content) /\
  MemorySchema (new_memory c content) = true.
Proof.
  intros Hrun.
  pose proof (created_record c name content s s' Hrun (record_path name))
    as Hr.
  assert (Hp : Json.parse (Json.stringify (new_memory c content))
               = Some (new_memory c content))
    by apply JsonFacts.parse_stringify, wf_new_memory.
  split; [|split; [|done]].
  - cbn [readFileContent jsonManager].
    by rewrite (JSON_readFileContent_record _ _ _ _ Hr Hp).
  - unfold stored_record. by rewrite Hr.
Qed.

(** [appendContent] of the raw manager, when it returns, leaves the file
    holding what it held followed by the appended text; a file that was
    not there holds the appended text alone.  (The manifest excepted,
    which the resync writes anew.) *)
Theorem RAW_appendContent_appends_or_creates c file content s s' :
  appendContent rawManager c file content s = (Ok tt, s') ->
  segs (Fp file) ≠ segs DFp ->
  read (Fp file) (disk s')
  = inr (match read (Fp file) (disk s) with
         | inr old => old +:+ content
         | inl _ => content
         end).
Proof.
  intros Hrun Hne. apply run_ok in Hrun as [Hok <-].
  cbn [appendContent rawManager] in *.
  destruct (RAW_appendContent_run c file content s) as [-> Hk].
  rewrite Hk in Hok. destruct (then_sync_inv _ Hok) as (d1 & Hd1 & _).
  rewrite Hd1. cbn [then_sync disk with_disk].
  apply read_resync; [done|]. unfold open_write in Hd1. unfold read.
  destruct (dir_only (Fp file)).
  { by destruct (walk (segs (Fp file)) (disk s)) as [|[|]]. }
  rewrite (walk_store_same _ _ _ _ _ Hd1).
  by destruct (walk (segs (Fp file)) (disk s)) as [|[|]].
Qed.


(** The tree text records names, not contents: with the manifest in
    place, a write to a regular file that is there (a [createFile] over
    it, an [appendContent] to it) leaves the text that
    [generateDirectoryTree] computes as it was, however the write
    ends. *)
Theorem rewriting_a_file_keeps_the_tree m c op file s :
  manifest_present s ->
  named_paths m op = [Fp file] ->
  is_file (segs (Fp file)) (disk s) ->
  (generateDirectoryTree MEMORY_DIR (perform (manager_of m) c op s).2).1
  = (generateDirectoryTree MEMORY_DIR s).1.
Proof.
  intros [o Ho] Hnamed [x Hx]. rewrite !generateDirectoryTree_run.
  cbn [fst].
  assert (Hwrite : forall f text,
            tree_at (then_sync (open_write f (Fp file) text (disk s))
                       (disk s)) = tree_at (disk s)).
  { intros f text. destruct (dir_only (Fp file)) eqn:Hd.
    { unfold open_write. rewrite Hd, Hx. done. }
    rewrite (open_write_file _ _ _ _ _ Hx Hd). cbn [then_sync].
    set (g := fun old : string => _).
    destruct (decide (segs (Fp file) = segs DFp)) as [E|E].
    - rewrite E in *. rewrite (resync_update_same _ _ _ Ho).
      rewrite dir_only_DFp.
      destruct (tree_at (disk s)) eqn:Ht; by rewrite tree_at_update.
    - rewrite resync_update_other by done. rewrite tree_at_update.
      destruct (resync_present _ _ Ho) as (tree & Ht & ->).
      by rewrite tree_at_update. }
  assert (Hsame : tree_at (disk (perform (manager_of m) c op s).2)
                  = tree_at (disk s)); [|by rewrite Hsame].
  destruct m, op; cbn [named_paths stored_as] in Hnamed; try done;
    apply (f_equal (hd (Fp file))) in Hnamed; cbn [hd] in Hnamed;
    cbn [perform manager_of jsonManager rawManager createFile createDir
           appendContent].
  - destruct (JSON_createFile_run c name content s) as [-> _].
    cbn [disk with_disk]. rewrite Hnamed. apply Hwrite.
  - destruct (createDir_op_run name s) as [-> _]. cbn [disk with_disk].
    rewrite Hnamed, (mkdirp_over_file _ _ _ Hx). done.
  - rewrite JSON_appendContent_state. cbn [disk with_disk].
    unfold json_append_disk. rewrite Hnamed.
    destruct (read _ (disk s)) as [|text]; [done|].
    destruct (edit text content _) as [text'|]; [|done]. apply Hwrite.
  - destruct (RAW_createFile_run c name content s) as [-> _].
    cbn [disk with_disk]. rewrite Hnamed. apply Hwrite.
  - destruct (createDir_op_run name s) as [-> _]. cbn [disk with_disk].
    rewrite Hnamed, (mkdirp_over_file _ _ _ Hx). done.
  - destruct (RAW_appendContent_run c file0 content s) as [-> _].
    cbn [disk with_disk]. rewrite Hnamed. apply Hwrite.
Qed.

End with_process.
End DirectoryFacts.

(** ** The tree text and the structured search *)

Module ListingFacts.
Import Fs FsFacts Store StoreFacts OpFacts PathFacts LayoutFacts DiskFacts
  ManifestFacts.

Lemma occurs_in_here q post : occurs_in q (q +:+ post).
Proof. by exists "", post. Qed.

Lemma occurs_in_app_l q a b : occurs_in q a -> occurs_in q (a +:+ b).
Proof.
  intros (pre & post & ->). exists pre, (post +:+ b).
  by rewrite !StrFacts.append_assoc.
Qed.

Lemma occurs_in_app_r q a b : occurs_in q b -> occurs_in q (a +:+ b).
Proof.
  intros (pre & post & ->). exists (a +:+ pre), post.
  by rewrite !StrFacts.append_assoc.
Qed.

Lemma tree_items_names dir items name :
  name ∈ map fst items -> occurs_in name (tree_items dir items).
Proof.
  induction items as [|[item child] items IH]; [by intros ?%elem_of_nil|].
  cbn [map fst]. intros [->|Hin]%elem_of_cons.
  - cbn [tree_items]. apply occurs_in_app_l.
    destruct (is_dirb child); apply occurs_in_app_r, occurs_in_here.
  - cbn [tree_items]. by apply occurs_in_app_r, IH.
Qed.

Lemma lower_includes_state what v query s :
  (lower_includes what v query s).2 = s.
Proof. by destruct v as [[]|]. Qed.

Lemma some_tag_state tags query s : (some_tag tags query s).2 = s.
Proof.
  induction tags as [|tag tags IH]; [done|]. cbn [some_tag].
  rewrite bind_run. pose proof (lower_includes_state "tag" (Some tag) query s).
  destruct (lower_includes "tag" (Some tag) query s) as [[[]|] s1];
    simpl in *; by subst.
Qed.

Lemma memory_matches_state memory query s :
  (memory_matches memory query s).2 = s.
Proof.
  unfold memory_matches. rewrite bind_run.
  destruct memory as [| | | | |members]; try done.
  - simpl. rewrite bind_run. simpl.
    destruct (Json.find_member "content" members) as [[| | |str| |]|];
      try done.
    simpl. destruct (JS.includes_ci str query); [done|].
    rewrite bind_run. simpl.
    destruct (Json.find_member "tags" members) as [[| | | |items|]|];
      try done.
    apply some_tag_state.
Qed.

Section with_process.
Context {process : Process}.

(** The text [generateDirectoryTree] returns for the storage root names
    every entry of the root. *)
Theorem tree_names_every_entry s tree items name :
  generateDirectoryTree MEMORY_DIR s = (Ok tree, s) ->
  readdir Mp (disk s) = inr items ->
  name ∈ map fst items ->
  occurs_in name tree.
Proof.
  rewrite generateDirectoryTree_run. unfold tree_at. intros Hrun Hdir Hin.
  rewrite Hdir in Hrun. cbn [on_inr] in Hrun.
  assert (tree = tree_text MEMORY_DIR (Dir items)) as -> by congruence.
  rewrite tree_text_Dir.
  by apply occurs_in_app_r, occurs_in_app_r, tree_items_names.
Qed.

(** One entry of the storage root whose name ends in the suffix and
    which holds no JSON text (a directory, or a file of other text)
    makes the structured search throw, whatever the query and whatever
    the other records hold. *)
Theorem JSON_fuzzySearch_one_bad_entry query s items file :
  readdir Mp (disk s) = inr items ->
  file ∈ map fst items ->
  JS.endsWith file ".json" = true ->
  stored_record file s = None ->
  is_ok (fuzzySearch jsonManager query s).1 = false.
Proof.
  intros Hdir Hin Hend Hrec. cbn [fuzzySearch jsonManager].
  unfold JSON_fuzzySearch. rewrite try_catch_ok, bind_run.
  rewrite JSON_readAllFiles_run, Hdir.
  apply filterM_throws with (Path.join MEMORY_DIR file).
  - intros y. rewrite bind_run, readFileSync_run.
    destruct (read (resolve y) (disk s)) as [|text]; [done|].
    rewrite bind_run, JSON_parse_run.
    destruct (Json.parse text) as [memory|]; [|done].
    apply memory_matches_state.
  - apply list_elem_of_fmap. exists file. split; [done|].
    by apply list_elem_of_filter.
  - rewrite bind_run, readFileSync_run. fold (Fp file).
    unfold stored_record in Hrec.
    destruct (read (Fp file) (disk s)) as [|text]; [done|].
    by rewrite bind_run, JSON_parse_run, Hrec.
Qed.

End with_process.
End ListingFacts.

(** ** The raw listing *)

Module RawListingFacts.
Import Fs FsFacts Store StoreFacts OpFacts PathFacts LayoutFacts DiskFacts
  ManifestFacts RelocationFacts.

(** On a disk without double names, every path [getAllFiles] returns is
    the name the joins give to a regular file below the directory. *)
Lemma getAllFiles_sound : forall n dir path,
  unique_names n = true ->
  path ∈ getAllFiles dir n ->
  exists p data,
    p ≠ [] /\ walk p n = inr (File data) /\ path = foldl Path.join dir p.
Proof.
  fix IH 1. intros n dir path Hu.
  destruct n as [o|es]; [clear IH; by intros ?%elem_of_nil|].
  rewrite getAllFiles_Dir. revert es Hu.
  fix IHes 1. intros es Hu.
  destruct es as [|[y k] es]; [clear IH IHes; by intros ?%elem_of_nil|].
  cbn [files_items]. simpl in Hu.
  apply andb_prop in Hu as [Hnd [Hk Hall]%andb_prop].
  apply bool_decide_eq_true in Hnd. cbn [map fst] in Hnd.
  apply NoDup_cons in Hnd as [Hy Hnd].
  assert (Hu' : unique_names (Dir es) = true).
  { simpl. rewrite Hall, andb_true_r. by apply bool_decide_eq_true. }
  pose proof (IH k (Path.join dir y) path Hk) as Hchild.
  pose proof (IHes es Hu') as Hrest. clear IH IHes.
  intros [Hin|Hin]%elem_of_app.
  - destruct (is_dirb k) eqn:Hdir.
    + destruct (Hchild Hin) as (p & data & Hp & Hw & ->).
      exists (y :: p), data. split; [done|]. simpl.
      by rewrite decide_True.
    + apply list_elem_of_singleton in Hin as ->. destruct k as [o|]; [|done].
      exists [y], o. split; [done|]. simpl. by rewrite decide_True.
  - destruct (Hrest Hin) as (p & data & Hp & Hw & ->).
    exists p, data. split; [done|]. split; [|done].
    destruct p as [|x p]; [done|]. simpl in *.
    destruct (find_entry x es) as [c|] eqn:E; [|done].
    rewrite decide_False; [done|].
    intros ->. apply Hy. apply find_entry_elem in E.
    apply list_elem_of_fmap. by exists (y, c).
Qed.

Lemma unique_names_walk p : forall n m,
  unique_names n = true -> walk p n = inr m -> unique_names m = true.
Proof.
  induction p as [|x p IH]; intros n m Hu; simpl.
  - by intros [= <-].
  - destruct n as [o|es]; [done|].
    destruct (find_entry x es) as [c|] eqn:E; [|done].
    apply IH. by eapply unique_names_child.
Qed.

Section with_process.
Context {process : Process}.

(** On a disk whose directories list no name twice, the raw listing
    has nothing but the regular files below the storage root, each
    under the path the joins from the root give it: directories are
    walked, not listed. *)
Theorem RAW_readAllFiles_lists_files_only s files path :
  unique_names (disk s) = true ->
  readAllFiles rawManager s = (Ok files, s) ->
  path ∈ files ->
  exists rel data,
    rel ≠ [] /\
    walk (segs Mp ++ rel) (disk s) = inr (File data) /\
    path = foldl Path.join MEMORY_DIR rel.
Proof.
  intros Hu. cbn [readAllFiles rawManager]. rewrite RAW_readAllFiles_run.
  unfold readdir.
  destruct (walk (segs Mp) (disk s)) as [e|[o|es]] eqn:Hroot; try done.
  intros [= <-] Hin.
  destruct (getAllFiles_sound (Dir es) MEMORY_DIR path) as
    (rel & data & Hrel & Hw & ->); [|done|].
  { by eapply unique_names_walk. }
  exists rel, data. split; [done|]. split; [|done].
  by rewrite walk_app, Hroot.
Qed.

End with_process.
End RawListingFacts.

(** ** Names are unique *)

Module UniqueFacts.
Import Fs FsFacts Store StoreFacts OpFacts PathFacts LayoutFacts DiskFacts
  ManifestFacts MutationFacts RelocationFacts RawListingFacts.

Lemma unique_names_Dir es :
  unique_names (Dir es) = true <->
  NoDup (map fst es) /\ Forall (fun entry => unique_names entry.2 = true) es.
Proof.
  simpl. rewrite andb_true_iff, bool_decide_eq_true, forallb_forall.
  rewrite Forall_forall. split; intros [Hnd Hall]; (split; [done|]);
    intros entry Hin; apply Hall; by apply list_elem_of_In.
Qed.

Lemma find_entry_names x es :
  find_entry x es = None -> x ∉ map fst es.
Proof.
  induction es as [|[y n] es IH]; simpl; [by intros _ ?%elem_of_nil|].
  case_decide as Hxy; [done|]. intros H [->|Hin]%elem_of_cons; [done|].
  by apply IH.
Qed.

Lemma map_fst_set_entry x v es c :
  find_entry x es = Some c -> map fst (set_entry x v es) = map fst es.
Proof.
  induction es as [|[y n] es IH]; simpl; [done|].
  case_decide as Hxy; [by subst|]. intros H. simpl. by rewrite IH.
Qed.

Lemma Forall_set_entry (P : string * node -> Prop) x v es :
  Forall P es -> P (x, v) -> Forall P (set_entry x v es).
Proof.
  intros Hall Hv. induction es as [|[y n] es IH]; simpl.
  - by apply Forall_singleton.
  - apply Forall_cons in Hall as [Hy Hall]. case_decide.
    + by apply Forall_cons.
    + apply Forall_cons. split; [done|]. by apply IH.
Qed.

Lemma unique_names_replace x v es c :
  unique_names (Dir es) = true -> find_entry x es = Some c ->
  unique_names v = true -> unique_names (Dir (set_entry x v es)) = true.
Proof.
  rewrite !unique_names_Dir. intros [Hnd Hall] Hc Hv.
  rewrite (map_fst_set_entry _ _ _ _ Hc). split; [done|].
  by apply Forall_set_entry.
Qed.

Lemma unique_names_add x v es :
  unique_names (Dir es) = true -> find_entry x es = None ->
  unique_names v = true -> unique_names (Dir (es ++ [(x, v)])) = true.
Proof.
  rewrite !unique_names_Dir. intros [Hnd Hall] Hc Hv.
  rewrite map_app. split.
  - apply NoDup_app. split; [done|]. split; [|apply NoDup_singleton].
    intros y Hy ->%list_elem_of_singleton.
    by apply (find_entry_names _ _ Hc).
  - apply Forall_app. split; [done|]. by apply Forall_singleton.
Qed.

Lemma unique_names_set x v es :
  unique_names (Dir es) = true -> unique_names v = true ->
  unique_names (Dir (set_entry x v es)) = true.
Proof.
  intros Hu Hv. destruct (find_entry x es) as [c|] eqn:E.
  - by eapply unique_names_replace.
  - rewrite set_entry_new by done. by apply unique_names_add.
Qed.

Lemma unique_names_remove_entry x es :
  unique_names (Dir es) = true ->
  unique_names (Dir (remove_entry x es)) = true.
Proof.
  rewrite !unique_names_Dir. intros [Hnd Hall].
  induction es as [|[y n] es IH]; simpl; [done|].
  simpl in Hnd. apply NoDup_cons in Hnd as [Hy Hnd].
  apply Forall_cons in Hall as [Hn Hall]. case_decide; [done|].
  destruct (IH Hnd Hall) as [Hnd' Hall']. simpl. split.
  - apply NoDup_cons. split; [|done]. intros Hin. apply Hy.
    clear -Hin. induction es as [|[z m] es IH]; simpl in *; [done|].
    case_decide; [by right|].
    simpl in Hin. apply elem_of_cons in Hin as [->|Hin]; [by left|].
    right. by apply IH.
  - by apply Forall_cons.
Qed.

Lemma store_unique f data p : forall n n',
  store f p data n = inr n' -> unique_names n = true ->
  unique_names n' = true.
Proof.
  induction p as [|x p IH]; intros [o|es] n'; simpl; try done.
  - by intros [= <-].
  - destruct (find_entry x es) as [c|] eqn:E.
    + destruct (store f p data c) as [|c'] eqn:Hc; [done|].
      intros [= <-] Hu. eapply unique_names_replace; [done..|].
      apply (IH _ _ Hc). by eapply unique_names_child.
    + destruct p; [|done]. intros [= <-] Hu. by apply unique_names_add.
Qed.

Lemma mkdirp_unique p : forall n n',
  mkdirp p n = inr n' -> unique_names n = true -> unique_names n' = true.
Proof.
  induction p as [|x p IH]; intros [o|es] n'; simpl; try done.
  - by intros [= <-].
  - destruct (find_entry x es) as [c|] eqn:E.
    + destruct (mkdirp p c) as [|c'] eqn:Hc; [done|].
      intros [= <-] Hu. eapply unique_names_replace; [done..|].
      apply (IH _ _ Hc). by eapply unique_names_child.
    + destruct (mkdirp p (Dir [])) as [|c'] eqn:Hc; [done|].
      intros [= <-] Hu. apply unique_names_add; [done..|].
      by apply (IH _ _ Hc).
Qed.

Lemma remove_unique p : forall n,
  unique_names n = true -> unique_names (remove p n) = true.
Proof.
  induction p as [|a p IH]; intros n Hu; [by destruct n|].
  destruct n as [o|es]; [by destruct p|]. destruct p as [|b p].
  - cbn [remove]. by apply unique_names_remove_entry.
  - rewrite remove_cons2. destruct (find_entry a es) as [c|] eqn:E; [|done].
    eapply unique_names_replace; [done..|].
    apply IH. by eapply unique_names_child.
Qed.

Lemma put_unique p v : forall n,
  unique_names v = true -> unique_names n = true ->
  unique_names (put p v n) = true.
Proof.
  induction p as [|a p IH]; intros n Hv Hu; [by destruct n|].
  destruct n as [o|es]; [by destruct p|]. destruct p as [|b p].
  - cbn [put]. by apply unique_names_set.
  - rewrite put_cons2. destruct (find_entry a es) as [c|] eqn:E; [|done].
    eapply unique_names_replace; [done..|].
    apply IH; [done|]. by eapply unique_names_child.
Qed.

Lemma rename_unique src dst n n' :
  rename src dst n = inr n' -> unique_names n = true ->
  unique_names n' = true.
Proof.
  unfold rename. intros Hren Hu.
  destruct (walk (segs src) n) as [|sn] eqn:Hs; [done|].
  destruct ((dir_only src || dir_only dst) && negb (is_dirb sn)); [done|].
  case_decide; [done|]. case_decide; [by injection Hren as <-|].
  destruct (is_dirb sn && is_prefix (segs src) (segs dst)); [done|].
  assert (Hmove : unique_names (put (segs dst) sn (remove (segs src) n))
                  = true).
  { apply put_unique; [by eapply unique_names_walk|by apply remove_unique]. }
  destruct (walk (segs dst) n) as [|dn].
  - destruct (walk (removelast (segs dst)) n) as [|[|]]; try done.
    by injection Hren as <-.
  - destruct sn, dn as [|[|]]; try done; by injection Hren as <-.
Qed.

Section with_process.
Context {process : Process}.

Lemma open_write_unique f p data d d' :
  open_write f p data d = inr d' -> unique_names d = true ->
  unique_names d' = true.
Proof.
  unfold open_write. destruct (dir_only p).
  - by destruct (walk (segs p) d) as [|[|]].
  - apply store_unique.
Qed.

Lemma resync_unique d :
  unique_names d = true -> unique_names (resync d) = true.
Proof.
  intros Hu. unfold resync. destruct (tree_at d) as [|tree]; [done|].
  destruct (open_write false DFp tree d) as [|d'] eqn:E; [done|].
  by eapply open_write_unique.
Qed.

Lemma then_sync_unique (r : errno + node) d :
  unique_names d = true ->
  (forall d1, r = inr d1 -> unique_names d1 = true) ->
  unique_names (then_sync r d) = true.
Proof.
  intros Hu Hr. destruct r as [|d1]; [done|]. cbn [then_sync].
  by apply resync_unique, Hr.
Qed.

(** No operation makes a second entry of a name: on a disk whose
    directories list no name twice, and however the operation ends, the
    disk it leaves is such a disk again. *)
Theorem mutation_keeps_names_unique m c op s :
  unique_names (disk s) = true ->
  unique_names (disk (perform (manager_of m) c op s).2) = true.
Proof.
  intros Hu.
  assert (Hrename : forall operation source dest,
            unique_names (disk (rename_op operation source dest s).2)
            = true).
  { intros operation source dest.
    destruct (rename_op_run operation source dest s) as [-> _].
    cbn [disk with_disk]. apply then_sync_unique; [done|].
    intros d1 Hd1. by eapply rename_unique. }
  assert (Hmk : forall name,
            unique_names (disk (createDir_op name s).2) = true).
  { intros name. destruct (createDir_op_run name s) as [-> _].
    cbn [disk with_disk]. apply then_sync_unique; [done|].
    intros d1 Hd1. by eapply mkdirp_unique. }
  destruct m, op; cbn [perform manager_of jsonManager rawManager createFile
    createDir moveFile moveDir appendContent renameFile]; auto.
  - destruct (JSON_createFile_run c name content s) as [-> _].
    cbn [disk with_disk]. apply then_sync_unique; [done|].
    intros d1 Hd1. by eapply open_write_unique.
  - rewrite JSON_appendContent_state. cbn [disk with_disk].
    unfold json_append_disk.
    destruct (read (Fp file) (disk s)) as [e|text]; [done|].
    destruct (edit text content _) as [text'|]; [|done].
    apply then_sync_unique; [done|].
    intros d1 Hd1. by eapply open_write_unique.
  - destruct (RAW_createFile_run c name content s) as [-> _].
    cbn [disk with_disk]. apply then_sync_unique; [done|].
    intros d1 Hd1. by eapply open_write_unique.
  - destruct (RAW_appendContent_run c file content s) as [-> _].
    cbn [disk with_disk]. apply then_sync_unique; [done|].
    intros d1 Hd1. by eapply open_write_unique.
Qed.

End with_process.
End UniqueFacts.

(** ** The raw search *)

Module RawSearchFacts.
Import Fs FsFacts Store StoreFacts OpFacts PathFacts LayoutFacts DiskFacts
  ManifestFacts RelocationFacts.

Lemma head_is_app c a b :
  JS.head_is c a = true -> JS.head_is c (a +:+ b) = true.
Proof. by destruct a. Qed.

(** An absolute path, normalized, splits into the empty segment before
    the root and the segments below it. *)
Lemma split_normalize_absolute p l name :
  JS.head_is Path.slash p = true ->
  JS.split Path.slash p = l ++ [name] -> kept name ->
  JS.split Path.slash (Path.normalize p)
  = "" :: Path.normalizeString false [] (JS.split Path.slash p) /\
  JS.head_is Path.slash (Path.normalize p) = true.
Proof.
  intros Habs Hp Hk. unfold Path.normalize.
  case_decide as Hne; [by subst|]. cbv zeta. rewrite Habs. cbn [negb].
  assert (Htrail : JS.last_is Path.slash p = false).
  { destruct (JS.last_is Path.slash p) eqn:E; [|done].
    destruct (split_trailing _ _ E) as [l' Hl']. rewrite Hl' in Hp.
    apply app_inj_tail in Hp as [_ Hp]. destruct Hk as (Ka & _). done. }
  rewrite Htrail.
  set (sg := Path.normalizeString false [] (JS.split Path.slash p)).
  assert (Hsg : sg ≠ []).
  { unfold sg. rewrite Hp, normalizeString_app.
    rewrite (normalizeString_kept _ [name]) by by apply Forall_singleton.
    by destruct (rev _). }
  assert (Hall : Forall (fun seg => seg ≠ "") sg).
  { apply (Forall_impl kept); [|by intros seg (? & _)].
    by apply normalizeString_false_kept. }
  case_decide as Hbody.
  { by apply join_empty in Hbody. }
  rewrite StrFacts.append_nil_r. split; [|done].
  change ("/" +:+ JS.join "/" sg)
    with ("" +:+ String Path.slash (JS.join (String Path.slash "") sg)).
  rewrite split_app.
  rewrite (split_join Path.slash sg Hsg) by apply normalized_segments.
  done.
Qed.

Lemma split_join_absolute a name :
  JS.head_is Path.slash a = true -> kept name -> one_segment name ->
  JS.split Path.slash (Path.join a name)
  = "" :: segs (resolve (Path.join a name)) /\
  JS.head_is Path.slash (Path.join a name) = true.
Proof.
  intros Habs Hk Hone.
  assert (Hj : Path.join a name = Path.normalize (a +:+ "/" +:+ name)).
  { unfold Path.join. destruct Hk as (Ka & _).
    rewrite decide_False by by intros ->. by rewrite decide_False. }
  rewrite Hj, resolve_normalize.
  apply (split_normalize_absolute _ (JS.split Path.slash a) name);
    [by apply head_is_app| |done].
  change ("/" +:+ name) with (String Path.slash name).
  by rewrite split_app, Hone.
Qed.

Section with_process.
Context {process : Process}.

(** With an absolute build directory, the path the raw search reads for
    the manifest is the manifest's path below the storage root, once
    more. *)
Lemma doubled_manifest :
  JS.head_is Path.slash BUILD_DIR = true ->
  segs (Fp DIRECTORY_FILE) = segs Mp ++ segs DFp.
Proof.
  intros Habs.
  destruct (split_join_absolute BUILD_DIR "MEMORY_DIR" Habs)
    as [_ Hroot]; [done..|]. fold MEMORY_DIR in Hroot.
  destruct (split_join_absolute MEMORY_DIR "DIRECTORY.txt" Hroot)
    as [Hsplit _]; [done..|]. fold DIRECTORY_FILE in Hsplit. fold DFp in Hsplit.
  unfold Fp. rewrite resolve_join. fold Mp. rewrite Hsplit.
  cbn [Path.normalizeString]. rewrite decide_True by done.
  rewrite normalizeString_kept, rev_involutive; [done|].
  by apply normalizeString_false_kept.
Qed.

(** With an absolute build directory and the manifest in place, the raw
    search throws for every query, unless the storage root has an entry
    named as the first directory of its own path: the manifest is
    listed, and read at its path below the root once more. *)
Theorem RAW_fuzzySearch_throws query s items :
  JS.head_is Path.slash BUILD_DIR = true ->
  manifest_present s ->
  readdir Mp (disk s) = inr items ->
  hd "" (segs Mp) ∉ map fst items ->
  is_ok (fuzzySearch rawManager query s).1 = false.
Proof.
  intros Habs [o Ho] Hdir Hfirst.
  assert (Hroot : walk (segs Mp) (disk s) = inr (Dir items)).
  { unfold readdir in Hdir.
    destruct (walk (segs Mp) (disk s)) as [|[|]]; congruence. }
  cbn [fuzzySearch rawManager]. unfold RAW_fuzzySearch.
  rewrite try_catch_ok, bind_run, RAW_readAllFiles_run, Hdir.
  apply filterM_throws with DIRECTORY_FILE.
  - intros y. rewrite bind_run, RAW_readFileContent_run.
    by destruct (read (Fp y) (disk s)).
  - apply (getAllFiles_complete ["DIRECTORY.txt"] MEMORY_DIR (Dir items) o);
      [done|].
    rewrite DFp_layout in Ho. cbn [segs] in Ho.
    by rewrite walk_app, Hroot in Ho.
  - rewrite bind_run, RAW_readFileContent_run.
    assert (Hw : walk (segs (Fp DIRECTORY_FILE)) (disk s) = inl ENOENT).
    { rewrite doubled_manifest, walk_app, Hroot by done.
      rewrite DFp_layout. cbn [segs]. rewrite Mp_layout in Hfirst |- *.
      cbn [segs] in Hfirst |- *.
      destruct (segs (resolve BUILD_DIR) ++ ["MEMORY_DIR"]) as [|h rest]
        eqn:E; [by destruct (segs (resolve BUILD_DIR))|].
      cbn [hd] in Hfirst. simpl.
      by rewrite (find_entry_None _ _ Hfirst). }
    unfold read. by rewrite Hw.
Qed.

End with_process.
End RawSearchFacts.

(** ** More of the sample installation *)

Module ScenarioFacts.
Import Sample Scenario Fs Store StoreFacts OpFacts PathFacts LayoutFacts
  GraphFacts DiskFacts ManifestFacts MutationFacts RelocationFacts
  DirectoryFacts ListingFacts RawListingFacts UniqueFacts RawSearchFacts.

(** The name "../index.js" is the script itself. *)
Lemma names_are_not_confined_witness :
  kept "index.js" /\ one_segment "index.js" /\
  Fp ("../" +:+ "index.js")
  = {| segs := segs (resolve BUILD_DIR) ++ ["index.js"];
       dir_only := false |}.
Proof.
  assert (Hk : kept "index.js") by by repeat split.
  assert (Ho : one_segment "index.js") by reflexivity.
  split; [exact Hk|]. split; [exact Ho|].
  exact (names_are_not_confined "index.js" Hk Ho).
Defined.

(** Two tags connected on the empty graph of the started store. *)
Lemma connectTags_keeps_symmetry_witness :
  reciprocal (memoryGraph started) /\ loop_free (memoryGraph started) /\
  reciprocal (memoryGraph (connectTags ["work"; "idea"] started).2) /\
  loop_free (memoryGraph (connectTags ["work"; "idea"] started).2).
Proof.
  assert (Hg : memoryGraph started = ∅) by (vm_compute; reflexivity).
  assert (Hs : reciprocal (memoryGraph started)).
  { intros a b A H. by rewrite Hg, lookup_empty in H. }
  assert (Hi : loop_free (memoryGraph started)).
  { intros a A H. by rewrite Hg, lookup_empty in H. }
  split; [exact Hs|]. split; [exact Hi|].
  exact (connectTags_keeps_symmetry ["work"; "idea"] started Hs Hi).
Defined.


(** The first run on the installed disk. *)
Lemma initializeDirectory_first_run_witness :
  is_dir (segs (resolve BUILD_DIR)) (disk installed) /\
  existsSync MEMORY_DIR installed = (Ok false, installed) /\
  exists s',
    initializeDirectory installed = (Ok tt, s') /\
    memoryGraph s' = memoryGraph installed /\
    readdir Mp (disk s')
    = inr [("ARCHIVE", Dir []);
           ("DIRECTORY.txt",
            File (tree_text MEMORY_DIR (Dir [("ARCHIVE", Dir [])])))].
Proof.
  assert (Hd : is_dir (segs (resolve BUILD_DIR)) (disk installed)).
  { eexists. vm_compute. reflexivity. }
  assert (He : existsSync MEMORY_DIR installed = (Ok false, installed)).
  { vm_compute. reflexivity. }
  split; [exact Hd|]. split; [exact He|].
  exact (initializeDirectory_first_run installed Hd He).
Defined.

(** The second constructor on the started store. *)
Lemma initializeDirectory_idempotent_witness :
  initializeDirectory installed = (Ok tt, started) /\
  initializeDirectory started = (Ok tt, started).
Proof.
  assert (Hr : initializeDirectory installed = (Ok tt, started)).
  { vm_compute. reflexivity. }
  split; [exact Hr|].
  exact (initializeDirectory_idempotent installed started Hr).
Defined.

(** A raw append to the list leaves the record of "note" as it was. *)
Lemma mutation_frame_witness :
  walk ["app"; "build"; "MEMORY_DIR"; "note.json"] (disk tagged)
  = inr (File (Json.stringify (new_memory noon "Some Content"))) /\
  ["app"; "build"; "MEMORY_DIR"; "note.json"] ≠ segs DFp /\
  Forall (fun p => is_prefix (segs p)
                     ["app"; "build"; "MEMORY_DIR"; "note.json"] = false)
    (named_paths Raw (AppendContent "list.json" " ")) /\
  walk ["app"; "build"; "MEMORY_DIR"; "note.json"]
    (disk (perform (manager_of Raw) later (AppendContent "list.json" " ")
             tagged).2)
  = inr (File (Json.stringify (new_memory noon "Some Content"))).
Proof.
  assert (Hw : walk ["app"; "build"; "MEMORY_DIR"; "note.json"] (disk tagged)
               = inr (File (Json.stringify
                              (new_memory noon "Some Content")))).
  { vm_compute. reflexivity. }
  assert (Hq : ["app"; "build"; "MEMORY_DIR"; "note.json"] ≠ segs DFp).
  { vm_compute. discriminate. }
  assert (Hn : Forall (fun p => is_prefix (segs p)
                          ["app"; "build"; "MEMORY_DIR"; "note.json"]
                        = false)
                 (named_paths Raw (AppendContent "list.json" " "))).
  { apply Forall_singleton. vm_compute. reflexivity. }
  split; [exact Hw|]. split; [exact Hq|]. split; [exact Hn|].
  exact (mutation_frame Raw later (AppendContent "list.json" " ") tagged
           _ _ Hw Hq Hn).
Defined.


(** The greeting, moved into the archive by [moveFile]. *)
Lemma relocation_moves_the_data_witness :
  relocation "greeting.txt" "ARCHIVE/greeting.txt"
    (MoveFile "greeting.txt" "ARCHIVE/greeting.txt") /\
  perform (manager_of Raw) noon
    (MoveFile "greeting.txt" "ARCHIVE/greeting.txt") greeted
  = (Ok tt, archived) /\
  read (Fp "greeting.txt") (disk greeted) = inr "Hello world" /\
  segs (Fp "ARCHIVE/greeting.txt") ≠ segs DFp /\
  read (Fp "ARCHIVE/greeting.txt") (disk archived) = inr "Hello world".
Proof.
  assert (Ho : relocation "greeting.txt" "ARCHIVE/greeting.txt"
                 (MoveFile "greeting.txt" "ARCHIVE/greeting.txt"))
    by by left.
  assert (Hr : perform (manager_of Raw) noon
                 (MoveFile "greeting.txt" "ARCHIVE/greeting.txt") greeted
               = (Ok tt, archived)).
  { vm_compute. reflexivity. }
  assert (Hd : read (Fp "greeting.txt") (disk greeted) = inr "Hello world").
  { vm_compute. reflexivity. }
  assert (Hn : segs (Fp "ARCHIVE/greeting.txt") ≠ segs DFp).
  { vm_compute. discriminate. }
  split; [exact Ho|]. split; [exact Hr|]. split; [exact Hd|].
  split; [exact Hn|].
  exact (relocation_moves_the_data Raw noon _ _ _ _ greeted archived
           Ho Hr Hd Hn).
Defined.

(** The greeting, moved into the archive by [moveDir] of the other
    manager: the old name is gone. *)
Lemma relocation_removes_the_source_witness :
  relocation "greeting.txt" "ARCHIVE/greeting.txt"
    (MoveDir "greeting.txt" "ARCHIVE/greeting.txt") /\
  perform (manager_of Structured) noon
    (MoveDir "greeting.txt" "ARCHIVE/greeting.txt") greeted
  = (Ok tt, archived) /\
  unique_names (disk greeted) = true /\
  read (Fp "greeting.txt") (disk greeted) = inr "Hello world" /\
  segs (Fp "greeting.txt") ≠ segs (Fp "ARCHIVE/greeting.txt") /\
  segs (Fp "greeting.txt") ≠ segs DFp /\
  exists e, read (Fp "greeting.txt") (disk archived) = inl e.
Proof.
  assert (Ho : relocation "greeting.txt" "ARCHIVE/greeting.txt"
                 (MoveDir "greeting.txt" "ARCHIVE/greeting.txt"))
    by (right; by left).
  assert (Hr : perform (manager_of Structured) noon
                 (MoveDir "greeting.txt" "ARCHIVE/greeting.txt") greeted
               = (Ok tt, archived)).
  { vm_compute. reflexivity. }
  assert (Hu : unique_names (disk greeted) = true).
  { vm_compute. reflexivity. }
  assert (Hd : read (Fp "greeting.txt") (disk greeted) = inr "Hello world").
  { vm_compute. reflexivity. }
  assert (Hn : segs (Fp "greeting.txt") ≠ segs (Fp "ARCHIVE/greeting.txt")).
  { vm_compute. discriminate. }
  assert (Hm : segs (Fp "greeting.txt") ≠ segs DFp).
  { vm_compute. discriminate. }
  split; [exact Ho|]. split; [exact Hr|]. split; [exact Hu|].
  split; [exact Hd|]. split; [exact Hn|]. split; [exact Hm|].
  exact (relocation_removes_the_source Structured noon _ _ _ _ greeted
           archived Ho Hr Hu Hd Hn Hm).
Defined.

(** A directory two levels deep. *)
Lemma createDir_makes_the_directory_witness :
  createDir (manager_of Raw) "projects/alpha" started = (Ok tt, filed) /\
  is_dir (segs (Fp "projects/alpha")) (disk filed).
Proof.
  assert (Hr : createDir (manager_of Raw) "projects/alpha" started
               = (Ok tt, filed)).
  { vm_compute. reflexivity. }
  split; [exact Hr|].
  exact (createDir_makes_the_directory Raw "projects/alpha" started filed Hr).
Defined.

(** The same directory, created again. *)
Lemma createDir_again_witness :
  manifest_present started /\
  createDir (manager_of Raw) "projects/alpha" started = (Ok tt, filed) /\
  createDir (manager_of Raw) "projects/alpha" filed = (Ok tt, filed).
Proof.
  assert (Hp : manifest_present started).
  { eexists. vm_compute. reflexivity. }
  assert (Hr : createDir (manager_of Raw) "projects/alpha" started
               = (Ok tt, filed)).
  { vm_compute. reflexivity. }
  split; [exact Hp|]. split; [exact Hr|].
  exact (createDir_again Raw "projects/alpha" started filed Hp Hr).
Defined.


(** The record of "note", read back. *)
Lemma JSON_createFile_read_back_witness :
  createFile jsonManager noon "note" "Some Content" started
  = (Ok tt, noted) /\
  readFileContent jsonManager ("note" +:+ ".json") noted
  = (Ok (js_string "Some Content"), noted) /\
  stored_record ("note" +:+ ".json") noted
  = Some (new_memory noon "Some Content") /\
  MemorySchema (new_memory noon "Some Content") = true.
Proof.
  assert (Hr : createFile jsonManager noon "note" "Some Content" started
               = (Ok tt, noted)).
  { vm_compute. reflexivity. }
  split; [exact Hr|].
  exact (JSON_createFile_read_back noon "note" "Some Content" started noted
           Hr).
Defined.

(** The greeting, with a mark appended. *)
Lemma RAW_appendContent_appends_or_creates_witness :
  appendContent rawManager later "greeting.txt" "!" greeted
  = (Ok tt, cheered) /\
  segs (Fp "greeting.txt") ≠ segs DFp /\
  read (Fp "greeting.txt") (disk cheered)
  = inr (match read (Fp "greeting.txt") (disk greeted) with
         | inr old => old +:+ "!"
         | inl _ => "!"
         end).
Proof.
  assert (Hr : appendContent rawManager later "greeting.txt" "!" greeted
               = (Ok tt, cheered)).
  { vm_compute. reflexivity. }
  assert (Hn : segs (Fp "greeting.txt") ≠ segs DFp).
  { vm_compute. discriminate. }
  split; [exact Hr|]. split; [exact Hn|].
  exact (RAW_appendContent_appends_or_creates later "greeting.txt" "!"
           greeted cheered Hr Hn).
Defined.


(** The tree text before and after a raw append to the greeting. *)
Lemma rewriting_a_file_keeps_the_tree_witness :
  manifest_present greeted /\
  named_paths Raw (AppendContent "greeting.txt" "!") = [Fp "greeting.txt"] /\
  is_file (segs (Fp "greeting.txt")) (disk greeted) /\
  (generateDirectoryTree MEMORY_DIR
     (perform (manager_of Raw) later (AppendContent "greeting.txt" "!")
        greeted).2).1
  = (generateDirectoryTree MEMORY_DIR greeted).1.
Proof.
  assert (Hp : manifest_present greeted).
  { eexists. vm_compute. reflexivity. }
  assert (Hn : named_paths Raw (AppendContent "greeting.txt" "!")
               = [Fp "greeting.txt"]) by reflexivity.
  assert (Hf : is_file (segs (Fp "greeting.txt")) (disk greeted)).
  { eexists. vm_compute. reflexivity. }
  split; [exact Hp|]. split; [exact Hn|]. split; [exact Hf|].
  exact (rewriting_a_file_keeps_the_tree Raw later
           (AppendContent "greeting.txt" "!") "greeting.txt" greeted
           Hp Hn Hf).
Defined.

(** The tree text of the store with the record of "note" names the
    record's file. *)
Lemma tree_names_every_entry_witness :
  generateDirectoryTree MEMORY_DIR noted
  = (Ok (tree_text MEMORY_DIR
           (Dir [("ARCHIVE", Dir []); ("DIRECTORY.txt", File "");
                 ("note.json", File "")])), noted) /\
  readdir Mp (disk noted)
  = inr [("ARCHIVE", Dir []);
         ("DIRECTORY.txt",
          File (tree_text MEMORY_DIR
                  (Dir [("ARCHIVE", Dir []); ("DIRECTORY.txt", File "");
                        ("note.json", File "")])));
         ("note.json",
          File (Json.stringify (new_memory noon "Some Content")))] /\
  "note.json" ∈ map fst
    [("ARCHIVE", Dir []);
     ("DIRECTORY.txt",
      File (tree_text MEMORY_DIR
              (Dir [("ARCHIVE", Dir []); ("DIRECTORY.txt", File "");
                    ("note.json", File "")])));
     ("note.json", File (Json.stringify (new_memory noon "Some Content")))] /\
  occurs_in "note.json"
    (tree_text MEMORY_DIR
       (Dir [("ARCHIVE", Dir []); ("DIRECTORY.txt", File "");
             ("note.json", File "")])).
Proof.
  set (tree := tree_text MEMORY_DIR
                 (Dir [("ARCHIVE", Dir []); ("DIRECTORY.txt", File "");
                       ("note.json", File "")])).
  set (items := [("ARCHIVE", Dir []); ("DIRECTORY.txt", File tree);
                 ("note.json",
                  File (Json.stringify (new_memory noon "Some Content")))]).
  assert (Hg : generateDirectoryTree MEMORY_DIR noted = (Ok tree, noted)).
  { vm_compute. reflexivity. }
  assert (Hd : readdir Mp (disk noted) = inr items).
  { vm_compute. reflexivity. }
  assert (Hi : "note.json" ∈ map fst items).
  { cbn [map fst items]. do 2 right. left. }
  split; [exact Hg|]. split; [exact Hd|]. split; [exact Hi|].
  exact (tree_names_every_entry noted tree items "note.json" Hg Hd Hi).
Defined.

(** Plain text under the name "draft.json" breaks the structured
    search, also for a query the record of "note" matches. *)
Lemma JSON_fuzzySearch_one_bad_entry_witness :
  readdir Mp (disk drafted)
  = inr [("ARCHIVE", Dir []);
         ("DIRECTORY.txt",
          File (tree_text MEMORY_DIR
                  (Dir [("ARCHIVE", Dir []); ("DIRECTORY.txt", File "");
                        ("note.json", File ""); ("draft.json", File "")])));
         ("note.json",
          File (Json.stringify (new_memory noon "Some Content")));
         ("draft.json", File "to do")] /\
  "draft.json" ∈ ["ARCHIVE"; "DIRECTORY.txt"; "note.json"; "draft.json"] /\
  JS.endsWith "draft.json" ".json" = true /\
  stored_record "draft.json" drafted = None /\
  is_ok (fuzzySearch jsonManager "Some" drafted).1 = false.
Proof.
  set (items := [("ARCHIVE", Dir []);
         ("DIRECTORY.txt",
          File (tree_text MEMORY_DIR
                  (Dir [("ARCHIVE", Dir []); ("DIRECTORY.txt", File "");
                        ("note.json", File ""); ("draft.json", File "")])));
         ("note.json",
          File (Json.stringify (new_memory noon "Some Content")));
         ("draft.json", File "to do")]).
  assert (Hd : readdir Mp (disk drafted) = inr items).
  { vm_compute. reflexivity. }
  assert (Hi : "draft.json" ∈ map fst items).
  { cbn [map fst items]. do 3 right. left. }
  assert (He : JS.endsWith "draft.json" ".json" = true) by reflexivity.
  assert (Hs : stored_record "draft.json" drafted = None).
  { vm_compute. reflexivity. }
  split; [exact Hd|]. split; [exact Hi|]. split; [exact He|].
  split; [exact Hs|].
  exact (JSON_fuzzySearch_one_bad_entry "Some" drafted items "draft.json"
           Hd Hi He Hs).
Defined.

(** The structured search that finds the record of "note". *)
Lemma JSON_fuzzySearch_exact_witness :
  readAllFiles jsonManager noted
  = (Ok ["/app/build/MEMORY_DIR/note.json"], noted) /\
  is_ascii "content" = true /\
  forallb (ascii_file (disk noted)) ["/app/build/MEMORY_DIR/note.json"]
  = true /\
  fuzzySearch jsonManager "content" noted
  = (Ok ["/app/build/MEMORY_DIR/note.json"],
     (fuzzySearch jsonManager "content" noted).2) /\
  (fuzzySearch jsonManager "content" noted).2 = noted /\
  ["/app/build/MEMORY_DIR/note.json"]
  = List.filter (file_matches "content" (disk noted))
      ["/app/build/MEMORY_DIR/note.json"].
Proof.
  assert (Ha : readAllFiles jsonManager noted
               = (Ok ["/app/build/MEMORY_DIR/note.json"], noted)).
  { vm_compute. reflexivity. }
  assert (Hq : is_ascii "content" = true).
  { vm_compute. reflexivity. }
  assert (Hc : forallb (ascii_file (disk noted))
                 ["/app/build/MEMORY_DIR/note.json"] = true).
  { vm_compute. reflexivity. }
  assert (Hr : fuzzySearch jsonManager "content" noted
               = (Ok ["/app/build/MEMORY_DIR/note.json"],
                  (fuzzySearch jsonManager "content" noted).2)).
  { vm_compute. reflexivity. }
  split; [exact Ha|]. split; [exact Hq|]. split; [exact Hc|].
  split; [exact Hr|].
  exact (JSON_fuzzySearch_exact "content" noted _ _ _ Ha Hq Hc Hr).
Defined.

(** The structured search over two well-shaped records. *)
Lemma JSON_fuzzySearch_returns_witness :
  readAllFiles jsonManager planned
  = (Ok ["/app/build/MEMORY_DIR/note.json";
         "/app/build/MEMORY_DIR/plan.json"], planned) /\
  (forall file,
     file ∈ ["/app/build/MEMORY_DIR/note.json";
             "/app/build/MEMORY_DIR/plan.json"] ->
     exists text memory,
       read (resolve file) (disk planned) = inr text /\
       Json.parse text = Some memory /\ MemorySchema memory = true) /\
  is_ascii "GROCER" = true /\
  forallb (ascii_file (disk planned))
    ["/app/build/MEMORY_DIR/note.json";
     "/app/build/MEMORY_DIR/plan.json"] = true /\
  fuzzySearch jsonManager "GROCER" planned
  = (Ok (List.filter (file_matches "GROCER" (disk planned))
           ["/app/build/MEMORY_DIR/note.json";
            "/app/build/MEMORY_DIR/plan.json"]), planned).
Proof.
  assert (Ha : readAllFiles jsonManager planned
               = (Ok ["/app/build/MEMORY_DIR/note.json";
                      "/app/build/MEMORY_DIR/plan.json"], planned)).
  { vm_compute. reflexivity. }
  assert (Hf : forall file,
            file ∈ ["/app/build/MEMORY_DIR/note.json";
                    "/app/build/MEMORY_DIR/plan.json"] ->
            exists text memory,
              read (resolve file) (disk planned) = inr text /\
              Json.parse text = Some memory /\ MemorySchema memory = true).
  { intros file Hin.
    apply elem_of_cons in Hin as [->|Hin];
      [|apply elem_of_cons in Hin as [->|Hin]; [|by inversion Hin]].
    - exists (Json.stringify (new_memory noon "Some Content")),
        (new_memory noon "Some Content").
      split; [|split]; vm_compute; reflexivity.
    - exists (Json.stringify tagged_record), tagged_record.
      split; [|split]; vm_compute; reflexivity. }
  assert (Hq : is_ascii "GROCER" = true).
  { vm_compute. reflexivity. }
  assert (Hc : forallb (ascii_file (disk planned))
                 ["/app/build/MEMORY_DIR/note.json";
                  "/app/build/MEMORY_DIR/plan.json"] = true).
  { vm_compute. reflexivity. }
  split; [exact Ha|]. split; [exact Hf|]. split; [exact Hq|].
  split; [exact Hc|].
  exact (JSON_fuzzySearch_returns "GROCER" planned _ Ha Hf Hq Hc).
Defined.

(** The raw search on the store with the greeting: the doubled path is
    not there. *)
Lemma RAW_fuzzySearch_fails_witness :
  readAllFiles rawManager greeted
  = (Ok ["/app/build/MEMORY_DIR/DIRECTORY.txt";
         "/app/build/MEMORY_DIR/greeting.txt"], greeted) /\
  "/app/build/MEMORY_DIR/greeting.txt"
  ∈ ["/app/build/MEMORY_DIR/DIRECTORY.txt";
     "/app/build/MEMORY_DIR/greeting.txt"] /\
  read (Fp "/app/build/MEMORY_DIR/greeting.txt") (disk greeted)
  = inl ENOENT /\
  is_ok (fuzzySearch rawManager "hello" greeted).1 = false.
Proof.
  assert (Ha : readAllFiles rawManager greeted
               = (Ok ["/app/build/MEMORY_DIR/DIRECTORY.txt";
                      "/app/build/MEMORY_DIR/greeting.txt"], greeted)).
  { vm_compute. reflexivity. }
  assert (Hi : "/app/build/MEMORY_DIR/greeting.txt"
               ∈ ["/app/build/MEMORY_DIR/DIRECTORY.txt";
                  "/app/build/MEMORY_DIR/greeting.txt"]).
  { right. left. }
  assert (Hr : read (Fp "/app/build/MEMORY_DIR/greeting.txt") (disk greeted)
               = inl ENOENT).
  { vm_compute. reflexivity. }
  split; [exact Ha|]. split; [exact Hi|]. split; [exact Hr|].
  exact (RAW_fuzzySearch_fails "hello" greeted _ _ ENOENT Ha Hi Hr).
Defined.


(** The response to a structured search is a string. *)
Lemma callTool_text_is_string_witness :
  ~ (params_name (search "MODE_JSON" "content") = "MODE_JSON" /\
     strict_equal
       (arg (params_arguments (search "MODE_JSON" "content")) "action")
       "read_file_content" = true) /\
  exists text,
    content_text (callTool noon (search "MODE_JSON" "content") noted).1
    = js_string text.
Proof.
  assert (Hn : ~ (params_name (search "MODE_JSON" "content") = "MODE_JSON" /\
                  strict_equal
                    (arg (params_arguments (search "MODE_JSON" "content"))
                       "action")
                    "read_file_content" = true)).
  { intros [_ H]. vm_compute in H. discriminate H. }
  split; [exact Hn|].
  exact (callTool_text_is_string noon (search "MODE_JSON" "content") noted
           Hn).
Defined.

(** A path of the raw listing of the archived store is a file. *)
Lemma RAW_readAllFiles_lists_files_only_witness :
  unique_names (disk archived) = true /\
  readAllFiles rawManager archived
  = (Ok ["/app/build/MEMORY_DIR/ARCHIVE/greeting.txt";
         "/app/build/MEMORY_DIR/DIRECTORY.txt"], archived) /\
  "/app/build/MEMORY_DIR/ARCHIVE/greeting.txt"
  ∈ ["/app/build/MEMORY_DIR/ARCHIVE/greeting.txt";
     "/app/build/MEMORY_DIR/DIRECTORY.txt"] /\
  exists rel data,
    rel ≠ [] /\
    walk (segs Mp ++ rel) (disk archived) = inr (File data) /\
    "/app/build/MEMORY_DIR/ARCHIVE/greeting.txt"
    = foldl Path.join MEMORY_DIR rel.
Proof.
  assert (Hu : unique_names (disk archived) = true).
  { vm_compute. reflexivity. }
  assert (Ha : readAllFiles rawManager archived
               = (Ok ["/app/build/MEMORY_DIR/ARCHIVE/greeting.txt";
                      "/app/build/MEMORY_DIR/DIRECTORY.txt"], archived)).
  { vm_compute. reflexivity. }
  assert (Hi : "/app/build/MEMORY_DIR/ARCHIVE/greeting.txt"
               ∈ ["/app/build/MEMORY_DIR/ARCHIVE/greeting.txt";
                  "/app/build/MEMORY_DIR/DIRECTORY.txt"]) by left.
  split; [exact Hu|]. split; [exact Ha|]. split; [exact Hi|].
  exact (RAW_readAllFiles_lists_files_only archived _ _ Hu Ha Hi).
Defined.

(** The same two tags, listed in another order and one of them twice. *)
Lemma connectTags_set_of_tags_witness :
  (forall t, t ∈ ["work"; "idea"] <-> t ∈ ["idea"; "work"; "idea"]) /\
  connectTags ["idea"; "work"; "idea"] started
  = connectTags ["work"; "idea"] started.
Proof.
  assert (Hs : forall t, t ∈ ["work"; "idea"]
                         <-> t ∈ ["idea"; "work"; "idea"]).
  { intros t. rewrite !elem_of_cons, !elem_of_nil. tauto. }
  split; [exact Hs|].
  exact (proj1 (connectTags_set_of_tags ["work"; "idea"] started) _ Hs).
Defined.

(** The move of the greeting into the archive leaves no name twice. *)
Lemma mutation_keeps_names_unique_witness :
  unique_names (disk greeted) = true /\
  unique_names
    (disk (perform (manager_of Raw) noon
             (MoveFile "greeting.txt" "ARCHIVE/greeting.txt") greeted).2)
  = true.
Proof.
  assert (Hu : unique_names (disk greeted) = true).
  { vm_compute. reflexivity. }
  split; [exact Hu|].
  exact (mutation_keeps_names_unique Raw noon
           (MoveFile "greeting.txt" "ARCHIVE/greeting.txt") greeted Hu).
Defined.

(** The raw search on the store as the first run leaves it. *)
Lemma RAW_fuzzySearch_throws_witness :
  JS.head_is Path.slash BUILD_DIR = true /\
  manifest_present started /\
  readdir Mp (disk started)
  = inr [("ARCHIVE", Dir []);
         ("DIRECTORY.txt",
          File (tree_text MEMORY_DIR (Dir [("ARCHIVE", Dir [])])))] /\
  (hd "" (segs Mp) ∉ ["ARCHIVE"; "DIRECTORY.txt"]) /\
  is_ok (fuzzySearch rawManager "archive" started).1 = false.
Proof.
  assert (Ha : JS.head_is Path.slash BUILD_DIR = true) by reflexivity.
  assert (Hp : manifest_present started).
  { eexists. vm_compute. reflexivity. }
  assert (Hd : readdir Mp (disk started)
               = inr [("ARCHIVE", Dir []);
                      ("DIRECTORY.txt",
                       File (tree_text MEMORY_DIR
                               (Dir [("ARCHIVE", Dir [])])))]).
  { vm_compute. reflexivity. }
  assert (Hf : hd "" (segs Mp) ∉ ["ARCHIVE"; "DIRECTORY.txt"]).
  { apply not_elem_of_cons. split; [vm_compute; discriminate|].
    apply not_elem_of_cons. split; [vm_compute; discriminate|].
    apply not_elem_of_nil. }
  split; [exact Ha|]. split; [exact Hp|]. split; [exact Hd|].
  split; [exact Hf|].
  exact (RAW_fuzzySearch_throws "archive" started _ Ha Hp Hd Hf).
Defined.

End ScenarioFacts.
